(** * Slack layout publishers of StreamAlert: a shallow embedding

    The development follows [publishers/community/slack/slack_layout.py]:
    the four publishers [Summary], [AttachRuleInfo], [AttachPublication]
    and [AttachFullRecord], the Python objects they build and mutate, and
    the loop of [AttachFullRecord.publish] that cuts the serialized record
    into attachments. *)

From Stdlib Require Import ZArith String Ascii List Lia Bool DecimalString.
From stdpp Require Import base option list strings gmap.

Set Warnings "-register-all".

Open Scope Z_scope.

(** ** Python strings *)

(** The newline character, written ['\n'] in the source. *)
Definition nl_char : ascii := "010"%char.
Definition nl : string := String nl_char EmptyString.

(** [s.split('\n')]: the pieces between newlines; never an empty list. *)
Fixpoint split_nl (s : string) : list string :=
  match s with
  | EmptyString => [EmptyString]
  | String c s' =>
      if Ascii.eqb c nl_char then EmptyString :: split_nl s'
      else match split_nl s' with
           | [] => [String c EmptyString]
           | piece :: pieces => String c piece :: pieces
           end
  end.

(** ['\n'.join(pieces)]. *)
Fixpoint join_nl (pieces : list string) : string :=
  match pieces with
  | [] => EmptyString
  | [piece] => piece
  | piece :: rest => piece +:+ nl +:+ join_nl rest
  end.

(** [s.replace(c, by)] for a pattern [c] of one character. *)
Fixpoint replace_char (c : ascii) (by_ : string) (s : string) : string :=
  match s with
  | EmptyString => EmptyString
  | String a s' =>
      if Ascii.eqb a c then by_ +:+ replace_char c by_ s'
      else String a (replace_char c by_ s')
  end.

(** [cgi.escape(s)] with its default [quote=None]: the ampersand first,
    then the two angle brackets. *)
Definition cgi_escape (s : string) : string :=
  let s := replace_char "&"%char "&amp;" s in
  let s := replace_char "<"%char "&lt;" s in
  let s := replace_char ">"%char "&gt;" s in
  s.

(** Truth value of a string in a condition: non-empty. *)
Definition truthy (s : string) : bool :=
  match s with
  | EmptyString => false
  | String _ _ => true
  end.

(** [len(s)] as a Python integer. *)
Definition len (s : string) : Z := Z.of_nat (String.length s).

(** ** The loop of [AttachFullRecord.publish]

    The loop body calls [make_attachment] and appends the result to the
    attachment list of the new publication.  [emit] stands for that call:
    it receives the three arguments of [make_attachment] and the current
    state, and may fail.  The publisher instantiates it with the store
    operation; [record_chunk] instantiates it with a recorder of the
    arguments. *)

Record chunk := Chunk {
  document : string;
  is_first : bool;
  is_last : bool
}.

Section Chunker.
Context {St : Type}.
Variable emit : string -> bool -> bool -> St -> option St.
Variable character_limit : Z.

(** [while len(record_document_lines) > 0: ...] *)
Fixpoint chunker_loop (record_document_lines : list string)
    (next_document : string) (is_first_document : bool) (s : St)
    : option (St * string * bool) :=
  match record_document_lines with
  | [] => Some (s, next_document, is_first_document)
  | line :: rest =>
      let next_item_length := len line in
      let next_length := next_item_length + len next_document in
      flushed ←
        (if truthy next_document && (character_limit <? next_length)
         then s' ← emit next_document is_first_document false s;
              Some (s', EmptyString, false)
         else Some (s, next_document, is_first_document));
      let '(s1, next_document1, is_first_document1) := flushed in
      chunker_loop rest (next_document1 +:+ (nl +:+ line))
        is_first_document1 s1
  end.

(** The loop from its initial state, then
    [if next_document: ... make_attachment(next_document, is_first_document, True)]. *)
Definition chunker (record_document_lines : list string) (s : St) : option St :=
  '(s1, next_document, is_first_document) ←
    chunker_loop record_document_lines EmptyString true s;
  if truthy next_document
  then emit next_document is_first_document true s1
  else Some s1.
End Chunker.

(** The recorder: the state is the list of chunks flushed so far. *)
Definition record_chunk (doc : string) (first last : bool) (cs : list chunk)
    : option (list chunk) :=
  Some (cs ++ [Chunk doc first last]).

(** The chunks of a list of lines, and of a document, under a budget. *)
Definition chunks_of_lines (character_limit : Z) (lines : list string)
    : option (list chunk) :=
  chunker record_chunk character_limit lines [].

Definition chunks_of_document (character_limit : Z) (D : string)
    : option (list chunk) :=
  chunks_of_lines character_limit (split_nl D).

(** The body of a chunk without the newline the loop put in front of it,
    and the lines of a chunk. *)
Definition strip_separator (body : string) : string :=
  match body with
  | String c s => if Ascii.eqb c nl_char then s else body
  | EmptyString => body
  end.

Definition chunk_lines (c : chunk) : list string :=
  split_nl (strip_separator (document c)).

(** Whether a string holds a newline. *)
Fixpoint has_nl (s : string) : bool :=
  match s with
  | EmptyString => false
  | String c s' => Ascii.eqb c nl_char || has_nl s'
  end.

(** What the loop accumulates from a group of lines: a newline in front
    of each line. *)
Fixpoint render (group : list string) : string :=
  match group with
  | [] => EmptyString
  | line :: rest => nl +:+ line +:+ render rest
  end.

(** The chunks the loop flushes before the end, one for each group of
    lines: none is the last, only the head can be the first. *)
Fixpoint mark_open (groups : list (list string)) (first : bool) : list chunk :=
  match groups with
  | [] => []
  | g :: rest => Chunk (render g) first false :: mark_open rest false
  end.

(** All the chunks of a run, the one attached after the loop included. *)
Fixpoint mark (groups : list (list string)) (first : bool) : list chunk :=
  match groups with
  | [] => []
  | [g] => [Chunk (render g) first true]
  | g :: rest => Chunk (render g) first false :: mark rest false
  end.

(** A group the loop can build under budget [B]: it is not empty; its
    body is at most one character over [B], unless it is a single line
    longer than [B]; and a line longer than [B] shares its group with no
    other line. *)
Definition group_ok (B : Z) (g : list string) : Prop :=
  g <> [] /\
  (len (render g) <= B + 1 \/ exists line, g = [line] /\ B < len line) /\
  (forall line, In line g -> B < len line -> g = [line]).

(** ** Python values and the object store

    Dictionaries and lists are mutable objects with an identity: a value
    is an immutable atom or a reference into the store.  The store grows
    at its end, so the next free location is its length. *)

Abbreviation loc := nat.

Inductive val :=
  | VNone
  | VBool (b : bool)
  | VInt (z : Z)
  | VFloat (z : Z)          (* a float with the whole value [z] *)
  | VStr (s : string)
  | VRef (l : loc).

Inductive obj :=
  | ODict (items : list (string * val))
  | OList (items : list val).

Abbreviation heap := (list obj).

(** The values an object holds. *)
Definition children (o : obj) : list val :=
  match o with
  | ODict items => map snd items
  | OList items => items
  end.

(** An expression that builds nested containers, such as a dict display:
    every [TList] and [TDict] node is a new object, a [TVal] leaf is a
    value that exists already.  The same type describes what a value
    looks like when its references are followed ([snapshot]). *)
Inductive tree :=
  | TVal (v : val)
  | TList (items : list tree)
  | TDict (items : list (string * tree)).

Abbreviation TStr s := (TVal (VStr s)).

Definition alloc (o : obj) (h : heap) : heap * val :=
  (h ++ [o], VRef (length h)).

(** Evaluation of a display: children first, then the container. *)
Fixpoint build (t : tree) (h : heap) : heap * val :=
  match t with
  | TVal v => (h, v)
  | TList items =>
      let '(h1, vs) :=
        (fix build_items (ts : list tree) (h : heap) : heap * list val :=
           match ts with
           | [] => (h, [])
           | t :: ts' =>
               let '(h1, v) := build t h in
               let '(h2, vs) := build_items ts' h1 in
               (h2, v :: vs)
           end) items h in
      alloc (OList vs) h1
  | TDict items =>
      let '(h1, kvs) :=
        (fix build_entries (kts : list (string * tree)) (h : heap)
             : heap * list (string * val) :=
           match kts with
           | [] => (h, [])
           | (k, t) :: kts' =>
               let '(h1, v) := build t h in
               let '(h2, kvs) := build_entries kts' h1 in
               (h2, (k, v) :: kvs)
           end) items h in
      alloc (ODict kvs) h1
  end.

(** Dictionaries as association lists with distinct keys. *)
Fixpoint dict_get (k : string) (d : list (string * val)) : option val :=
  match d with
  | [] => None
  | (k', v) :: d' => if String.eqb k' k then Some v else dict_get k d'
  end.

Fixpoint dict_set (k : string) (v : val) (d : list (string * val))
    : list (string * val) :=
  match d with
  | [] => [(k, v)]
  | (k', v') :: d' =>
      if String.eqb k' k then (k, v) :: d' else (k', v') :: dict_set k v d'
  end.

(** [x[k]] for a string [k]: [None] stands for the exception Python
    raises (KeyError, or TypeError when [x] is no dictionary). *)
Definition getitem (h : heap) (x : val) (k : string) : option val :=
  match x with
  | VRef l =>
      match h !! l with
      | Some (ODict d) => dict_get k d
      | _ => None
      end
  | _ => None
  end.

(** [x[k] = v]. *)
Definition setitem (h : heap) (x : val) (k : string) (v : val) : option heap :=
  match x with
  | VRef l =>
      match h !! l with
      | Some (ODict d) => Some (<[l := ODict (dict_set k v d)]> h)
      | _ => None
      end
  | _ => None
  end.

(** [x.get(k, default)]. *)
Definition get_default (h : heap) (x : val) (k : string) (default : val)
    : option val :=
  match x with
  | VRef l =>
      match h !! l with
      | Some (ODict d) =>
          Some (match dict_get k d with Some v => v | None => default end)
      | _ => None
      end
  | _ => None
  end.

(** [x.append(v)]. *)
Definition append (h : heap) (x : val) (v : val) : option heap :=
  match x with
  | VRef l =>
      match h !! l with
      | Some (OList items) => Some (<[l := OList (items ++ [v])]> h)
      | _ => None
      end
  | _ => None
  end.

(** [k in x] for a string [k]: a key of a dictionary, an element of a
    list, a substring of a string; a TypeError otherwise. *)
Definition contains (h : heap) (k : string) (x : val) : option bool :=
  match x with
  | VRef l =>
      match h !! l with
      | Some (ODict d) =>
          Some (match dict_get k d with Some _ => true | None => false end)
      | Some (OList items) =>
          Some (existsb (fun v => match v with
                                  | VStr s => String.eqb s k
                                  | _ => false
                                  end) items)
      | None => None
      end
  | VStr s =>
      Some (match String.index 0 k s with Some _ => true | None => false end)
  | _ => None
  end.

(** What a value looks like when its references are followed, as
    [json.dumps] walks it.  A walk longer than the number of objects has
    met an object twice: [None] then stands for the ValueError of a
    circular reference. *)
Fixpoint snapshot (fuel : nat) (h : heap) (v : val) : option tree :=
  match v with
  | VRef l =>
      match fuel with
      | O => None
      | S fuel' =>
          match h !! l with
          | Some (OList items) =>
              TList <$> mapM (snapshot fuel' h) items
          | Some (ODict items) =>
              TDict <$> mapM (fun kv : string * val =>
                                t ← snapshot fuel' h kv.2; Some (kv.1, t)) items
          | None => None
          end
      end
  | _ => Some (TVal v)
  end.

(** *** [copy.deepcopy]

    The copy of a container is allocated empty and entered in the memo
    before its items are copied into it, so that shared and cyclic
    structure is copied once.  Atoms are returned as they are. *)

Abbreviation memo := (gmap loc loc).

Section CopyItems.
Variable deepcopy_rec : val -> heap * memo -> option (val * (heap * memo)).
Variable y : loc.

(** [for a in x: y.append(deepcopy(a, memo))] *)
Fixpoint copy_list_items (x : list val) (st : heap * memo)
    : option (heap * memo) :=
  match x with
  | [] => Some st
  | a :: rest =>
      '(a', (h, m)) ← deepcopy_rec a st;
      h' ← append h (VRef y) a';
      copy_list_items rest (h', m)
  end.

(** [for key, value in x.iteritems(): y[key] = deepcopy(value, memo)] *)
Fixpoint copy_dict_items (x : list (string * val)) (st : heap * memo)
    : option (heap * memo) :=
  match x with
  | [] => Some st
  | (key, value) :: rest =>
      '(value', (h, m)) ← deepcopy_rec value st;
      h' ← setitem h (VRef y) key value';
      copy_dict_items rest (h', m)
  end.
End CopyItems.

(** [fuel] bounds the depth of the recursion. *)
Fixpoint deepcopy_fuel (fuel : nat) (x : val) (st : heap * memo)
    : option (val * (heap * memo)) :=
  match x with
  | VRef l =>
      match st.2 !! l with
      | Some y => Some (VRef y, st)
      | None =>
          match fuel with
          | O => None
          | S fuel' =>
              let y := length st.1 in
              match st.1 !! l with
              | Some (OList items) =>
                  st' ← copy_list_items (deepcopy_fuel fuel') y items
                         (st.1 ++ [OList []], <[l := y]> st.2);
                  Some (VRef y, st')
              | Some (ODict items) =>
                  st' ← copy_dict_items (deepcopy_fuel fuel') y items
                         (st.1 ++ [ODict []], <[l := y]> st.2);
                  Some (VRef y, st')
              | None => None
              end
          end
      end
  | _ => Some (x, st)
  end.

(** [deepcopy(x)]: every object is entered in the memo at most once and
    the recursion descends only into objects that are not in it, so its
    depth stays below the number of objects plus one. *)
Definition deepcopy (h : heap) (x : val) : option (heap * val) :=
  '(y, (h', _)) ← deepcopy_fuel (S (length h)) x (h, ∅);
  Some (h', y).

(** ** Alerts and the collaborators outside this file *)

Record datetime := Datetime {
  year : Z; month : Z; day : Z; hour : Z; minute : Z; second : Z;
  microsecond : Z
}.

Record Alert := {
  alert_id : string;
  rule_name : string;
  rule_description : string;
  created : option datetime;
  record : tree;
  source_service : string;
  source_entity : string
}.

(** What [RuleDescriptionParser.present] returns: the dictionary with the
    keys ['author'], ['description'] and ['fields']; the fields in the
    order in which [keys()] lists them. *)
Record presentation := {
  p_author : string;
  p_description : string;
  p_fields : list (string * string)
}.

(** The functions the publishers call and this file does not define. *)
Class Externals := {
  (** [RuleDescriptionParser.present(rule_description)] *)
  present : string -> presentation;
  (** [json.dumps(x, indent=2, sort_keys=True, separators=(',', ': '))] *)
  json_dumps : tree -> string;
  (** [urllib.urlencode(query)] *)
  urlencode : list (string * string) -> string;
  (** [time.mktime(d.timetuple())], a float with a whole value *)
  mktime : datetime -> Z
}.

Definition RAUSCH : string := "#ff5a5f".
Definition BABU : string := "#00d1c1".
Definition LIMA : string := "#8ce071".
Definition HACKBERRY : string := "#7b0051".

(** [rule_presentation['fields'][key]]; the key is always one of
    [keys()], so the default is never returned. *)
Fixpoint fields_getitem (key : string) (fields : list (string * string))
    : string :=
  match fields with
  | [] => EmptyString
  | (k, v) :: rest => if String.eqb k key then v else fields_getitem key rest
  end.

(** [map(lambda key: {'title': key, 'value': fields[key]}, fields.keys())] *)
Definition rule_fields (rule_presentation : presentation) : tree :=
  TList (map (fun key =>
                TDict [("title", TStr key);
                       ("value", TStr (fields_getitem key
                                         (p_fields rule_presentation)))])
             (map fst (p_fields rule_presentation))).

(** ** The publishers

    Each [publish] takes the store in which [publication] lives and
    returns the store after the call with the value it returns; [None]
    stands for an exception.  A class is its methods as they are
    written, over the class attributes, which a record holds with the
    values of the source as [base]. *)

Module Summary.
(** The class attributes a subclass may override. *)
Record cls := {
  _GITHUB_REPO_URL : string;
  _SEARCH_PATH : string;
  _RULES_PATH : string
}.

Definition base : cls := {|
  _GITHUB_REPO_URL := "https://github.com/airbnb/streamalert";
  _SEARCH_PATH := "/search";
  _RULES_PATH := "/rules"
|}.

Section Methods.
Context `{Externals} (self : cls).

Definition _color : string := RAUSCH.
Definition _author_url (_ : string) : string := EmptyString.
Definition _author_icon (_ : string) : string := EmptyString.

Definition _title_url (rule_name : string) : string :=
  _GITHUB_REPO_URL self +:+ _SEARCH_PATH self +:+ "?" +:+
  urlencode [("q", rule_name +:+ " path:" +:+ _RULES_PATH self)].

(** The one attachment of the summary. *)
Definition attachment (alert : Alert) : tree :=
  let rule_name := rule_name alert in
  let rule_description := rule_description alert in
  let rule_presentation := present rule_description in
  let author := p_author rule_presentation in
  TDict [
    ("fallback", TStr ("Rule triggered: " +:+ rule_name));
    ("color", TStr _color);
    ("author_name", TStr author);
    ("author_link", TStr (_author_url author));
    ("author_icon", TStr (_author_icon author));
    ("title", TStr rule_name);
    ("title_link", TStr (_title_url rule_name));
    ("text", TStr (cgi_escape (p_description rule_presentation)));
    ("fields", rule_fields rule_presentation);
    ("image_url", TStr EmptyString);
    ("thumb_url", TStr EmptyString);
    ("footer", TStr EmptyString);
    ("footer_icon", TStr EmptyString);
    ("ts", match created alert with
           | Some d => TVal (VFloat (mktime d))
           | None => TStr EmptyString
           end);
    ("mrkdwn_in", TList [])
  ].

Definition publish (alert : Alert) (publication : val) (h : heap)
    : heap * val :=
  build (TDict [
    ("slack.text", TStr "Rule triggered");
    ("slack.attachments", TList [attachment alert]);
    (* This information is passed-through to future publishers. *)
    ("_previous_publication", TVal publication)
  ]) h.
End Methods.
End Summary.

Module AttachRuleInfo.
Section Methods.
Context `{Externals}.

Definition _color : string := LIMA.

Definition attachment (alert : Alert) : tree :=
  let rule_description := rule_description alert in
  let rule_presentation := present rule_description in
  TDict [
    ("color", TStr _color);
    ("fields", rule_fields rule_presentation)
  ].

Definition publish (alert : Alert) (publication : val) (h : heap)
    : option (heap * val) :=
  '(h, new_publication) ← deepcopy h publication;
  let '(h, empty) := alloc (OList []) h in
  attachments ← get_default h new_publication "slack.attachments" empty;
  h ← setitem h new_publication "slack.attachments" attachments;
  target ← getitem h new_publication "slack.attachments";
  let '(h, a) := build (attachment alert) h in
  h ← append h target a;
  Some (h, new_publication).
End Methods.
End AttachRuleInfo.

Module AttachPublication.
Section Methods.
Context `{Externals}.

Definition _color : string := BABU.

Definition attachment (publication_block : string) : tree :=
  TDict [
    ("color", TStr _color);
    ("title", TStr "Alert Data:");
    ("text", TStr (cgi_escape publication_block));
    ("mrkdwn_in", TList [TStr "text"])
  ].

Definition publish (alert : Alert) (publication : val) (h : heap)
    : option (heap * val) :=
  has_previous ← contains h "_previous_publication" publication;
  missing ←
    (if negb has_previous then Some true
     else has_attachments ← contains h "slack.attachments" publication;
          Some (negb has_attachments));
  if missing : bool then
    (* This publisher cannot be run except immediately after PrettyLayout *)
    Some (h, publication)
  else
    '(h, new_publication) ← deepcopy h publication;
    previous ← getitem h publication "_previous_publication";
    dumped ← snapshot (length h) h previous;
    let publication_block :=
      "```" +:+ nl +:+ json_dumps dumped +:+ nl +:+ "```" in
    target ← getitem h new_publication "slack.attachments";
    let '(h, a) := build (attachment publication_block) h in
    h ← append h target a;
    Some (h, new_publication).
End Methods.
End AttachPublication.

Module AttachFullRecord.
(** The class attributes a subclass may override. *)
Record cls := {
  _SLACK_MAXIMUM_ATTACHMENT_CHARACTER_LENGTH : Z;
  _LENGTH_PADDING : Z
}.

Definition base : cls := {|
  _SLACK_MAXIMUM_ATTACHMENT_CHARACTER_LENGTH := 4000;
  _LENGTH_PADDING := 10
|}.

Section Methods.
Context `{Externals} (self : cls).

Definition _color : string := HACKBERRY.

Definition _source_service_url (source_service : string) : string :=
  "https://console.aws.amazon.com/" +:+ source_service +:+ "/home".

Definition _footer_icon_from_service (_ : string) : string := EmptyString.

Definition make_attachment (alert : Alert) (document : string)
    (is_first is_last : bool) : tree :=
  let footer :=
    if is_last then
      let footer_url := _source_service_url (source_service alert) in
      if truthy footer_url
      then "via <" +:+ footer_url +:+ "|" +:+ source_service alert +:+ ">"
      else EmptyString   (* the other branch assigns nothing *)
    else EmptyString in
  TDict [
    ("color", TStr _color);
    ("author", TStr (if is_first then source_entity alert else EmptyString));
    ("title", TStr (if is_first then "Record" else EmptyString));
    ("text", TStr ("```" +:+ nl +:+ document +:+ nl +:+ "```"));
    ("fields", if is_last
               then TList [TDict [("title", TStr "Alert Id");
                                  ("value", TStr (alert_id alert))]]
               else TList []);
    ("footer", TStr footer);
    ("footer_icon", TStr (_footer_icon_from_service (source_service alert)));
    ("mrkdwn_in", TList [TStr "text"])
  ].

Definition character_limit : Z :=
  _SLACK_MAXIMUM_ATTACHMENT_CHARACTER_LENGTH self - _LENGTH_PADDING self.

(** The lines the loop consumes. *)
Definition record_document_lines (alert : Alert) : list string :=
  let record_document := json_dumps (record alert) in
  let record_document := cgi_escape record_document in
  split_nl record_document.

(** [new_publication['slack.attachments'].append(make_attachment(...))] *)
Definition attach (alert : Alert) (new_publication : val)
    (document : string) (is_first is_last : bool) (h : heap)
    : option heap :=
  target ← getitem h new_publication "slack.attachments";
  let '(h, a) := build (make_attachment alert document is_first is_last) h in
  append h target a.

Definition publish (alert : Alert) (publication : val) (h : heap)
    : option (heap * val) :=
  '(h, new_publication) ← deepcopy h publication;
  let '(h, empty) := alloc (OList []) h in
  attachments ← get_default h new_publication "slack.attachments" empty;
  h ← setitem h new_publication "slack.attachments" attachments;
  h ← chunker (attach alert new_publication) character_limit
        (record_document_lines alert) h;
  Some (h, new_publication).
End Methods.
End AttachFullRecord.

(** ** Well-formed stores and what [deepcopy] guarantees *)

(** A value that points into a store of [n] objects. *)
Definition val_in (n : nat) (v : val) : Prop :=
  match v with
  | VRef l => (l < n)%nat
  | _ => True
  end.

(** An object whose references stay below [n] and, for a dictionary,
    whose keys are distinct. *)
Definition wf_obj (n : nat) (o : obj) : Prop :=
  Forall (val_in n) (children o) /\
  match o with
  | ODict d => NoDup (map fst d)
  | OList _ => True
  end.

Definition wf_heap (h : heap) : Prop := Forall (wf_obj (length h)) h.

(** The objects a value leads to. *)
Inductive reaches (h : heap) : val -> loc -> Prop :=
  | reaches_here l : reaches h (VRef l) l
  | reaches_child l o v l' :
      h !! l = Some o -> In v (children o) -> reaches h v l' ->
      reaches h (VRef l) l'.

(** A value that shares no object with the first [n] objects of the
    store: whatever it leads to was allocated after them. *)
Definition independent (n : nat) (h : heap) (v : val) : Prop :=
  forall l, reaches h v l -> (n <= l)%nat.

(** The copy of a value under a memo. *)
Definition rename (m : memo) (v : val) : val :=
  match v with
  | VRef c => match m !! c with Some y => VRef y | None => v end
  | _ => v
  end.

Definition rename_obj (m : memo) (o : obj) : obj :=
  match o with
  | ODict d => ODict (map (fun kv : string * val => (kv.1, rename m kv.2)) d)
  | OList items => OList (map (rename m) items)
  end.

Definition in_memo (m : memo) (v : val) : Prop :=
  match v with
  | VRef c => is_Some (m !! c)
  | _ => True
  end.

(** A value that is an atom or lies in the part of the store from [n0]
    up to [n]. *)
Definition fresh_in (n0 n : nat) (v : val) : Prop :=
  match v with
  | VRef l => (n0 <= l < n)%nat
  | _ => True
  end.

(** The state of a copy of parts of [h0] in progress: the store extends
    [h0]; the memo sends objects of [h0] to distinct new objects; the new
    objects hold only atoms and new objects; and the copy of every object
    in the memo that is not [pending] is complete, equal to the original
    with its references renamed. *)
Record copying (h0 : heap) (pending : loc -> Prop) (h : heap) (m : memo)
    : Prop := {
  cp_prefix : h0 `prefix_of` h;
  cp_range : forall l y, m !! l = Some y ->
    (l < length h0 /\ length h0 <= y < length h)%nat;
  cp_inj : forall l1 l2 y, m !! l1 = Some y -> m !! l2 = Some y -> l1 = l2;
  cp_fresh : forall y o, (length h0 <= y)%nat -> h !! y = Some o ->
    Forall (fresh_in (length h0) (length h)) (children o);
  cp_done : forall l y, m !! l = Some y -> ~ pending l ->
    exists o, h0 !! l = Some o /\ h !! y = Some (rename_obj m o) /\
              Forall (in_memo m) (children o)
}.

(** A value that is an atom or an object allocated at or after [n0]. *)
Definition fresh_val (n0 : nat) (v : val) : Prop :=
  match v with
  | VRef l => (n0 <= l)%nat
  | _ => True
  end.

(** The objects allocated at or after [n0] hold only such values. *)
Definition closed_above (n0 : nat) (h : heap) : Prop :=
  forall y o, (n0 <= y)%nat -> h !! y = Some o ->
    Forall (fresh_val n0) (children o).

(** The items of a display, evaluated in order. *)
Fixpoint build_items (ts : list tree) (h : heap) : heap * list val :=
  match ts with
  | [] => (h, [])
  | t :: ts' =>
      let '(h1, v) := build t h in
      let '(h2, vs) := build_items ts' h1 in
      (h2, v :: vs)
  end.

Fixpoint build_entries (kts : list (string * tree)) (h : heap)
    : heap * list (string * val) :=
  match kts with
  | [] => (h, [])
  | (k, t) :: kts' =>
      let '(h1, v) := build t h in
      let '(h2, kvs) := build_entries kts' h1 in
      (h2, (k, v) :: kvs)
  end.

(** Nesting depth of the containers of a tree. *)
Fixpoint depth (t : tree) : nat :=
  match t with
  | TVal _ => 0
  | TList items => S (foldr Nat.max 0%nat (map depth items))
  | TDict items =>
      S (foldr Nat.max 0%nat (map (fun kt : string * tree => depth kt.2) items))
  end.

(** A tree without references at its leaves. *)
Fixpoint atomic (t : tree) : bool :=
  match t with
  | TVal (VRef _) => false
  | TVal _ => true
  | TList items => forallb atomic items
  | TDict items => forallb (fun kt : string * tree => atomic kt.2) items
  end.

(** The value [v] of store [h] shows as the tree [t]. *)
Definition shows (h : heap) (v : val) (t : tree) : Prop :=
  snapshot (length h) h v = Some t.

(** [v'] in [h'] has the content [v] has in [h]. *)
Definition same_content (h : heap) (v : val) (h' : heap) (v' : val) : Prop :=
  forall n, snapshot n h' v' = snapshot n h v.

(** What the evaluation of a display without references leaves in the
    store: the objects [ext] after [h], which refer only to each other,
    and a value [a] that shows as the tree in every store that holds
    these objects. *)
Definition built (h : heap) (ext : list obj) (a : val) (t : tree) : Prop :=
  (depth t <= length ext)%nat /\
  fresh_in (length h) (length h + length ext) a /\
  Forall (fun o => Forall (fresh_in (length h) (length h + length ext))
                     (children o)) ext /\
  (forall h2 : heap,
     (forall l o, (length h <= l)%nat -> (h ++ ext) !! l = Some o ->
                  h2 !! l = Some o) ->
     forall n, (depth t <= n)%nat -> snapshot n h2 a = Some t).

(** Calling [emit] on each chunk of a list, in order. *)
Fixpoint emit_all {St : Type} (emit : string -> bool -> bool -> St -> option St)
    (cs : list chunk) (s : St) : option St :=
  match cs with
  | [] => Some s
  | c :: cs' =>
      s' ← emit (document c) (is_first c) (is_last c) s;
      emit_all emit cs' s'
  end.

(** The attachments a publication holds: the list under
    ['slack.attachments'], nothing when the key is absent.  [None] when
    the publication is no dictionary or the value under the key no list:
    the publishers that append to it then raise. *)
Definition attachments_of (h : heap) (publication : val) : option (list val) :=
  match publication with
  | VRef p =>
      match h !! p with
      | Some (ODict d) =>
          match dict_get "slack.attachments" d with
          | None => Some []
          | Some (VRef la) =>
              match h !! la with
              | Some (OList xs) => Some xs
              | _ => None
              end
          | Some _ => None
          end
      | _ => None
      end
  | _ => None
  end.

(** The state of a publisher that appends to the attachment list [la] of
    its new publication [np], both allocated after the store [h0] it
    started from: [h0] is untouched, and the new objects hold no
    reference into it. *)
Record attaching (h0 : heap) (np la : loc) (h : heap) (items : list val)
    : Prop := {
  at_prefix : h0 `prefix_of` h;
  at_np : (length h0 <= np)%nat;
  at_la : (length h0 <= la)%nat;
  at_get : getitem h (VRef np) "slack.attachments" = Some (VRef la);
  at_list : h !! la = Some (OList items);
  at_closed : closed_above (length h0) h
}.

(** Every object of [h] other than [la] is the same in [h']. *)
Definition extends_keeping (la : loc) (h h' : heap) : Prop :=
  forall l o, l <> la -> h !! l = Some o -> h' !! l = Some o.

(** [a] shows as [t], now and after any change that keeps the objects
    other than [la]. *)
Definition stored (la : loc) (h : heap) (a : val) (t : tree) : Prop :=
  forall h', extends_keeping la h h' -> shows h' a t.

(** What a publisher that appends to the attachments has done when it
    returns [r] in [h'] for [publication] in [h]: the store [h] is a
    prefix of [h']; [r] leads to no object of [h]; and the attachment
    list of [r] holds the copies [deepcopy] made of the attachments of
    [publication], then values that show as [trees]. *)
Definition appends (h : heap) (publication : val) (h' : heap) (r : val)
    (trees : list tree) : Prop :=
  exists xs olds news h1 r1,
    attachments_of h publication = Some xs /\
    deepcopy h publication = Some (h1, r1) /\
    Forall2 (fun x x' => same_content h x h1 x') xs olds /\
    attachments_of h' r = Some (olds ++ news) /\
    Forall2 (shows h') news trees /\
    h `prefix_of` h' /\
    independent (length h) h' r.


Fixpoint entries_get (k : string) (items : list (string * tree)) : option tree :=
  match items with
  | [] => None
  | (k', t) :: rest => if String.eqb k' k then Some t else entries_get k rest
  end.

Definition tree_get (k : string) (t : tree) : option tree :=
  match t with
  | TDict items => entries_get k items
  | _ => None
  end.


(** ** An environment for the examples

    Models of the library functions behind [Externals], for text in
    ASCII. *)

Definition quote_char : ascii := "034"%char.
Definition backslash_char : ascii := "092"%char.

Definition hex_digit (upper : bool) (n : N) : ascii :=
  if (n <? 10)%N then ascii_of_N (48 + n)
  else ascii_of_N ((if upper then 55 else 87) + n).

(** [repr] of an integer in base ten. *)
Definition py_int_repr (z : Z) : string := NilZero.string_of_int (Z.to_int z).

(** The escape of one character by [json.encoder.encode_basestring_ascii]. *)
Definition json_escape_char (c : ascii) : string :=
  let n := N_of_ascii c in
  let esc (x : string) := String backslash_char x in
  if (n =? 34)%N then esc (String quote_char EmptyString)
  else if (n =? 92)%N then esc (String backslash_char EmptyString)
  else if (n =? 10)%N then esc "n"
  else if (n =? 13)%N then esc "r"
  else if (n =? 9)%N then esc "t"
  else if (n =? 8)%N then esc "b"
  else if (n =? 12)%N then esc "f"
  else if ((32 <=? n) && (n <=? 126))%N then String c EmptyString
  else esc ("u00" +:+ String (hex_digit false (n / 16))
                        (String (hex_digit false (n mod 16)) EmptyString)).

Fixpoint json_escape (s : string) : string :=
  match s with
  | EmptyString => EmptyString
  | String c s' => json_escape_char c +:+ json_escape s'
  end.

Definition json_string (s : string) : string :=
  String quote_char (json_escape s +:+ String quote_char EmptyString).

Definition json_atom (v : val) : string :=
  match v with
  | VNone => "null"
  | VBool true => "true"
  | VBool false => "false"
  | VInt z => py_int_repr z
  | VFloat z => py_int_repr z +:+ ".0"
  | VStr s => json_string s
  | VRef _ => "null"        (* no leaf of a snapshot is a reference *)
  end.

Fixpoint spaces (n : nat) : string :=
  match n with
  | O => EmptyString
  | S n' => String " "%char (spaces n')
  end.

(** [sorted(dct.items(), key=lambda kv: kv[0])] *)
Fixpoint insert_sorted (kv : string * string) (l : list (string * string))
    : list (string * string) :=
  match l with
  | [] => [kv]
  | kv' :: l' =>
      if String.ltb kv.1 kv'.1 then kv :: l else kv' :: insert_sorted kv l'
  end.

Definition sort_items (l : list (string * string)) : list (string * string) :=
  foldr insert_sorted [] l.

(** [json.dumps(x, indent=2, sort_keys=True, separators=(',', ': '))] at
    nesting [level]. *)
Fixpoint json_dumps_level (level : nat) (t : tree) : string :=
  let newline_indent := nl +:+ spaces (2 * S level) in
  match t with
  | TVal v => json_atom v
  | TList [] => "[]"
  | TList items =>
      "[" +:+ newline_indent +:+
      String.concat ("," +:+ newline_indent)
        (map (json_dumps_level (S level)) items) +:+
      nl +:+ spaces (2 * level) +:+ "]"
  | TDict [] => "{}"
  | TDict items =>
      "{" +:+ newline_indent +:+
      String.concat ("," +:+ newline_indent)
        (map (fun kv : string * string => json_string kv.1 +:+ ": " +:+ kv.2)
           (sort_items
              (map (fun kt : string * tree =>
                      (kt.1, json_dumps_level (S level) kt.2)) items))) +:+
      nl +:+ spaces (2 * level) +:+ "}"
  end.

Definition json_dumps_py (t : tree) : string := json_dumps_level 0 t.

(** [urllib.quote_plus] and [urllib.urlencode]. *)
Definition quote_plus_char (c : ascii) : string :=
  let n := N_of_ascii c in
  if (((48 <=? n) && (n <=? 57)) || ((65 <=? n) && (n <=? 90)) ||
      ((97 <=? n) && (n <=? 122)) || (n =? 95) || (n =? 46) || (n =? 45))%N
  then String c EmptyString
  else if (n =? 32)%N then "+"
  else String "%"%char (String (hex_digit true (n / 16))
                          (String (hex_digit true (n mod 16)) EmptyString)).

Fixpoint quote_plus (s : string) : string :=
  match s with
  | EmptyString => EmptyString
  | String c s' => quote_plus_char c +:+ quote_plus s'
  end.

Definition urlencode_py (query : list (string * string)) : string :=
  String.concat "&"
    (map (fun kv : string * string => quote_plus kv.1 +:+ "=" +:+ quote_plus kv.2)
       query).

(** [time.mktime(d.timetuple())] in a process whose time zone is UTC. *)
Definition mktime_utc (d : datetime) : Z :=
  let y := if (month d <=? 2)%Z then year d - 1 else year d in
  let era := y / 400 in
  let yoe := y - era * 400 in
  let mp := if (month d <=? 2)%Z then month d + 9 else month d - 3 in
  let doy := (153 * mp + 2) / 5 + day d - 1 in
  let doe := yoe * 365 + yoe / 4 - yoe / 100 + doy in
  let days := era * 146097 + doe - 719468 in
  days * 86400 + hour d * 3600 + minute d * 60 + second d.

(** The presentation of a description that names no author and no field. *)
Definition present_plain (rule_description : string) : presentation :=
  {| p_author := EmptyString;
     p_description := rule_description;
     p_fields := [] |}.

Definition example_externals : Externals := {|
  present := present_plain;
  json_dumps := json_dumps_py;
  urlencode := urlencode_py;
  mktime := mktime_utc
|}.

Definition example_alert : Alert := {|
  alert_id := "79192344-4a6d-4850-8d06-9c3fef1060a4";
  rule_name := "cloudtrail_root_login";
  rule_description := "Root <login> & more";
  created := Some (Datetime 2019 1 1 0 0 0 0);
  record := TDict [("b", TList [TVal (VInt 1); TStr "x<y"]); ("a", TDict [])];
  source_service := "s3";
  source_entity := "corp-prod.cloudtrail"
|}.

(** An alert whose raw record is the empty mapping. *)
Definition empty_record_alert : Alert := {|
  alert_id := "79192344-4a6d-4850-8d06-9c3fef1060a4";
  rule_name := "cloudtrail_root_login";
  rule_description := "Root <login> & more";
  created := None;
  record := TDict [];
  source_service := "s3";
  source_entity := "corp-prod.cloudtrail"
|}.

(** A store that holds the empty publication [{}] at location 0. *)
Definition empty_publication_store : heap := [ODict []].

(** A store that holds at location 1 a publication with an empty
    attachment list, the list at location 0. *)
Definition example_store : heap :=
  [OList []; ODict [("slack.attachments", VRef 0%nat)]].

(** A store that holds at location 0 a publication with the key
    ['slack.text']. *)
Definition text_publication_store : heap :=
  [ODict [("slack.text", VStr "earlier text")]].

(** ** The Kinesis streams module of the Terraform generator

    [stream_alert_cli/terraform/kinesis_streams.py].  The configuration
    and the cluster dictionary are objects of the store.  The cluster
    dictionary is a [defaultdict]: reading a key it does not hold calls
    its [default_factory] and stores the result under the key. *)

(** A chain of subscripts, [x[k1][k2]...]. *)
Fixpoint subscript (h : heap) (x : val) (path : list string) : option val :=
  match path with
  | [] => Some x
  | k :: rest => v ← getitem h x k; subscript h v rest
  end.

Section Kinesis.
(** [str(x)] for a value that is no string. *)
Variable str_other : heap -> val -> string.
(** The [default_factory] of the cluster dictionary; [None] when the
    dictionary has none, and a missing key is a KeyError. *)
Variable default_factory : option (heap -> heap * val).

(** What ['{}'.format(x)] puts in place of the braces. *)
Definition format_value (h : heap) (x : val) : string :=
  match x with
  | VStr s => s
  | _ => str_other h x
  end.

(** [x[k]] for a [defaultdict] [x]. *)
Definition defaultdict_getitem (h : heap) (x : val) (k : string)
    : option (heap * val) :=
  match x with
  | VRef l =>
      match h !! l with
      | Some (ODict d) =>
          match dict_get k d with
          | Some v => Some (h, v)
          | None =>
              factory ← default_factory;
              let '(h, v) := factory h in
              h ← setitem h x k v;
              Some (h, v)
          end
      | _ => None
      end
  | _ => None
  end.

Definition generate_kinesis_streams (cluster_name : string)
    (cluster_dict config : val) (h : heap) : option (heap * val) :=
  prefix ← subscript h config ["global"; "account"; "prefix"];
  kinesis_module ←
    subscript h config
      ["clusters"; cluster_name; "modules"; "kinesis"; "streams"];
  let '(h, empty) := alloc (OList []) h in
  shard_level_metrics ←
    get_default h kinesis_module "shard_level_metrics" empty;
  account_id ← subscript h config ["global"; "account"; "aws_account_id"];
  region ← subscript h config ["clusters"; cluster_name; "region"];
  prefix' ← subscript h config ["global"; "account"; "prefix"];
  let stream_name :=
    format_value h prefix +:+ "_" +:+ cluster_name +:+
    "_stream_alert_kinesis" in
  shards ← getitem h kinesis_module "shards";
  retention ← getitem h kinesis_module "retention";
  create_user ← get_default h kinesis_module "create_user" (VBool true);
  let '(h, empty') := alloc (OList []) h in
  trusted_accounts ← get_default h kinesis_module "trusted_accounts" empty';
  let '(h, module) :=
    alloc (ODict [
      ("source", VStr "modules/tf_stream_alert_kinesis_streams");
      ("account_id", account_id);
      ("region", region);
      ("cluster_name", VStr cluster_name);
      ("prefix", prefix');
      ("stream_name", VStr stream_name);
      ("shard_level_metrics", shard_level_metrics);
      ("shards", shards);
      ("retention", retention);
      ("create_user", create_user);
      ("trusted_accounts", trusted_accounts)
    ]) h in
  '(h, modules) ← defaultdict_getitem h cluster_dict "module";
  h ← setitem h modules ("kinesis_" +:+ cluster_name) module;
  Some (h, VBool true).
End Kinesis.

(** The entries of the module dictionary [generate_kinesis_streams]
    builds in store [h], given the values it read and the entries [kd]
    of the streams configuration: the two empty lists of the defaults are
    the objects at [length h] and [S (length h)]. *)
Definition kinesis_entries (str_other : heap -> val -> string) (h : heap)
    (cluster_name : string) (prefix account_id region shards retention : val)
    (kd : list (string * val)) : list (string * val) :=
  [("source", VStr "modules/tf_stream_alert_kinesis_streams");
   ("account_id", account_id);
   ("region", region);
   ("cluster_name", VStr cluster_name);
   ("prefix", prefix);
   ("stream_name",
    VStr (format_value str_other (h ++ [OList []]) prefix +:+ "_" +:+
          cluster_name +:+ "_stream_alert_kinesis"));
   ("shard_level_metrics",
    match dict_get "shard_level_metrics" kd with
    | Some v => v
    | None => VRef (length h)
    end);
   ("shards", shards);
   ("retention", retention);
   ("create_user",
    match dict_get "create_user" kd with
    | Some v => v
    | None => VBool true
    end);
   ("trusted_accounts",
    match dict_get "trusted_accounts" kd with
    | Some v => v
    | None => VRef (S (length h))
    end)].

(** A store in which [generate_kinesis_streams] finds what it reads: the
    account, the region and the streams configuration [kd] of the
    cluster, with its shards and its retention, and the dictionary
    [mdd] under the key ['module'] of the cluster dictionary. *)
Record kinesis_ready (h : heap) (config : val) (cluster_name : string)
    (cd md : loc) (kd mdd : list (string * val))
    (prefix account_id region shards retention : val) : Prop := {
  kr_prefix :
    subscript h config ["global"; "account"; "prefix"] = Some prefix;
  kr_account :
    subscript h config ["global"; "account"; "aws_account_id"]
    = Some account_id;
  kr_region :
    subscript h config ["clusters"; cluster_name; "region"] = Some region;
  kr_streams :
    exists km,
      subscript h config
        ["clusters"; cluster_name; "modules"; "kinesis"; "streams"]
      = Some (VRef km) /\ h !! km = Some (ODict kd);
  kr_shards : dict_get "shards" kd = Some shards;
  kr_retention : dict_get "retention" kd = Some retention;
  kr_module :
    exists cdd, h !! cd = Some (ODict cdd) /\
                dict_get "module" cdd = Some (VRef md);
  kr_modules : h !! md = Some (ODict mdd)
}.

(** A store with a configuration at location 7, for the cluster [prod],
    and a cluster dictionary at location 9 whose ['module'] is the empty
    dictionary at location 8. *)
Definition kinesis_store : heap :=
  [ODict [("prefix", VStr "acme"); ("aws_account_id", VStr "123456789012")];
   ODict [("account", VRef 0%nat)];
   ODict [("shards", VInt 1); ("retention", VInt 24)];
   ODict [("streams", VRef 2%nat)];
   ODict [("kinesis", VRef 3%nat)];
   ODict [("region", VStr "us-east-1"); ("modules", VRef 4%nat)];
   ODict [("prod", VRef 5%nat)];
   ODict [("global", VRef 1%nat); ("clusters", VRef 6%nat)];
   ODict [];
   ODict [("module", VRef 8%nat)]].

(** [str] of a number, a boolean or [None]; containers are left out. *)
Definition str_atom (h : heap) (v : val) : string :=
  match v with
  | VNone => "None"
  | VBool true => "True"
  | VBool false => "False"
  | VInt z => py_int_repr z
  | VFloat z => py_int_repr z +:+ ".0"
  | VStr s => s
  | VRef _ => "{...}"
  end.

(** ** Counting characters, and groups cut where the loop had to *)

(** How often the character [c] occurs in [s]. *)
Fixpoint count_char (c : ascii) (s : string) : Z :=
  match s with
  | EmptyString => 0
  | String a s' => (if Ascii.eqb a c then 1 else 0) + count_char c s'
  end.

(** Each group but the last is followed by a group whose first line, put
    behind it, would have counted more than [B] characters. *)
Fixpoint cut_when_full (B : Z) (gs : list (list string)) : Prop :=
  match gs with
  | [] => True
  | g :: rest =>
      match rest with
      | [] => True
      | [] :: _ => False
      | (line :: _) :: _ => B < len line + len (render g)
      end /\ cut_when_full B rest
  end.

(** The entries [d'] of the copy a publisher returns for a publication
    with the entries [d], in a store whose first [n] objects are those
    the publisher was given: the keys are the keys of [d] and
    ['slack.attachments']; under every other key an atom is the same
    atom and an object is an object made by the publisher. *)
Definition keeps_entries (n : nat) (d d' : list (string * val)) : Prop :=
  (forall k, In k (map fst d') <->
             k = "slack.attachments" \/ In k (map fst d)) /\
  forall k, k <> "slack.attachments" ->
    match dict_get k d with
    | None => dict_get k d' = None
    | Some (VRef _) =>
        exists l', dict_get k d' = Some (VRef l') /\ (n <= l')%nat
    | Some v => dict_get k d' = Some v
    end.

(** A store that holds at location 1 a publication with a text, an
    attachment list, the empty list at location 0, and a number. *)
Definition titled_publication_store : heap :=
  [OList [];
   ODict [("slack.text", VStr "earlier text");
          ("slack.attachments", VRef 0%nat);
          ("retries", VInt 3)]].

(** * Proofs *)

(** ** Strings *)

Lemma append_nil_l (s : string) : EmptyString +:+ s = s.
Proof. reflexivity. Qed.

Lemma append_cons (c : ascii) (s t : string) :
  String c s +:+ t = String c (s +:+ t).
Proof. reflexivity. Qed.

Lemma append_nil_r (s : string) : s +:+ EmptyString = s.
Proof.
  induction s as [|c s IH]; [reflexivity|].
  rewrite append_cons. f_equal. exact IH.
Qed.

Lemma append_assoc (a b c : string) : (a +:+ b) +:+ c = a +:+ (b +:+ c).
Proof.
  induction a as [|x a IH]; [reflexivity|].
  rewrite !append_cons. f_equal. exact IH.
Qed.

Lemma len_append (a b : string) : len (a +:+ b) = len a + len b.
Proof.
  unfold len. induction a as [|x a IH].
  - rewrite append_nil_l. simpl. lia.
  - rewrite append_cons. simpl String.length. rewrite !Nat2Z.inj_succ. lia.
Qed.

Lemma len_nonneg (s : string) : 0 <= len s.
Proof. unfold len. lia. Qed.

Lemma len_nl : len nl = 1.
Proof. reflexivity. Qed.

Lemma split_nl_nonempty (s : string) : split_nl s <> [].
Proof.
  induction s as [|c s IH]; simpl; [discriminate|].
  destruct (Ascii.eqb c nl_char); [discriminate|].
  destruct (split_nl s); discriminate.
Qed.

Lemma join_nl_cons2 (p q : string) (ps : list string) :
  join_nl (p :: q :: ps) = p +:+ nl +:+ join_nl (q :: ps).
Proof. reflexivity. Qed.

(** Joining the pieces of a split with newlines gives the string back. *)
Lemma join_split_nl (s : string) : join_nl (split_nl s) = s.
Proof.
  induction s as [|c s IH]; [reflexivity|].
  pose proof (split_nl_nonempty s) as Hne.
  simpl split_nl.
  destruct (Ascii.eqb_spec c nl_char) as [->|Hc];
    destruct (split_nl s) as [|p ps]; try congruence.
  - rewrite join_nl_cons2, IH. reflexivity.
  - destruct ps as [|q ps].
    + simpl in *. now rewrite IH.
    + rewrite join_nl_cons2 in *. rewrite append_cons. now rewrite IH.
Qed.

Lemma split_nl_pieces (s : string) :
  Forall (fun p => has_nl p = false) (split_nl s).
Proof.
  induction s as [|c s IH]; simpl.
  - repeat constructor.
  - destruct (Ascii.eqb_spec c nl_char) as [->|Hc].
    + constructor; [reflexivity | exact IH].
    + destruct (split_nl s) as [|p ps]; [repeat constructor|].
      * simpl. destruct (Ascii.eqb_spec c nl_char); [contradiction | reflexivity].
      * inversion IH; subst. constructor; [|assumption].
        simpl. destruct (Ascii.eqb_spec c nl_char); [contradiction | assumption].
Qed.

Lemma split_nl_append_nl (p s : string) :
  has_nl p = false ->
  split_nl (p +:+ nl +:+ s) = p :: split_nl s.
Proof.
  induction p as [|c p IHp]; intros Hp.
  - reflexivity.
  - simpl in Hp. apply orb_false_iff in Hp as [Hc Hp].
    rewrite append_cons. simpl. rewrite Hc, (IHp Hp). reflexivity.
Qed.

Lemma split_nl_no_nl (p : string) : has_nl p = false -> split_nl p = [p].
Proof.
  induction p as [|c p IHp]; intros Hp; [reflexivity|].
  simpl in Hp. apply orb_false_iff in Hp as [Hc Hp].
  simpl. rewrite Hc, (IHp Hp). reflexivity.
Qed.

(** Splitting a join of newline-free pieces gives the pieces back. *)
Lemma split_join_nl (ps : list string) :
  ps <> [] -> Forall (fun p => has_nl p = false) ps ->
  split_nl (join_nl ps) = ps.
Proof.
  induction ps as [|p ps IH]; [congruence|]. intros _ Hall.
  inversion Hall as [|? ? Hp Hps]; subst.
  destruct ps as [|q ps].
  - now apply split_nl_no_nl.
  - rewrite join_nl_cons2, split_nl_append_nl by assumption.
    f_equal. now apply IH.
Qed.

(** ** The loop, as a grouping of the lines *)

Lemma render_app (g1 g2 : list string) :
  render (g1 ++ g2) = render g1 +:+ render g2.
Proof.
  induction g1 as [|l g1 IH]; [reflexivity|].
  simpl. rewrite IH, !append_assoc. reflexivity.
Qed.

Lemma render_single (line : string) : render [line] = nl +:+ line.
Proof. simpl. now rewrite append_nil_r. Qed.

Lemma render_snoc (g : list string) (line : string) :
  render (g ++ [line]) = render g +:+ (nl +:+ line).
Proof. now rewrite render_app, render_single. Qed.

Lemma truthy_render (g : list string) : truthy (render g) = true <-> g <> [].
Proof. destruct g; simpl; split; congruence. Qed.

Lemma len_render_single (line : string) : len (render [line]) = len line + 1.
Proof. rewrite render_single, len_append, len_nl. lia. Qed.

Lemma len_render_snoc (g : list string) (line : string) :
  len (render (g ++ [line])) = len (render g) + 1 + len line.
Proof. rewrite render_snoc, !len_append, len_nl. lia. Qed.

Lemma len_render_In (g : list string) (line : string) :
  In line g -> len line < len (render g).
Proof.
  induction g as [|l g IH]; [contradiction|]. intros [->|Hin].
  - simpl. rewrite !len_append, len_nl. pose proof (len_nonneg (render g)). lia.
  - simpl. rewrite !len_append, len_nl. specialize (IH Hin).
    pose proof (len_nonneg l). lia.
Qed.

Lemma group_ok_single (B : Z) (line : string) : group_ok B [line].
Proof.
  split; [discriminate|]. split.
  - destruct (Z_lt_le_dec B (len line)) as [Hlt|Hle].
    + right. eauto.
    + left. rewrite len_render_single. lia.
  - intros l [<-|[]] _. reflexivity.
Qed.

Lemma group_ok_snoc (B : Z) (g : list string) (line : string) :
  g <> [] -> len line + len (render g) <= B -> group_ok B (g ++ [line]).
Proof.
  intros Hg Hfit. split; [destruct g; discriminate|]. split.
  - left. rewrite len_render_snoc. lia.
  - intros l Hin Hlong. exfalso. apply in_app_or in Hin as [Hin|[<-|[]]].
    + apply len_render_In in Hin. pose proof (len_nonneg line). lia.
    + pose proof (len_nonneg (render g)). lia.
Qed.

Lemma mark_snoc (gs : list (list string)) (g : list string) (first : bool) :
  mark (gs ++ [g]) first
  = mark_open gs first
    ++ [Chunk (render g) (first && match gs with [] => true | _ => false end) true].
Proof.
  revert first. induction gs as [|g0 gs IH]; intros first.
  - simpl. now rewrite andb_true_r.
  - destruct gs as [|g1 gs].
    + simpl. now rewrite andb_false_r.
    + specialize (IH false).
      change (mark ((g0 :: g1 :: gs) ++ [g]) first)
        with (Chunk (render g0) first false :: mark ((g1 :: gs) ++ [g]) false).
      rewrite IH. simpl. now rewrite andb_false_r.
Qed.

Lemma chunker_loop_flush (B : Z) (line : string) (rest : list string)
    (nd : string) (first : bool) (acc : list chunk) :
  truthy nd && (B <? len line + len nd) = true ->
  chunker_loop record_chunk B (line :: rest) nd first acc
  = chunker_loop record_chunk B rest (nl +:+ line) false
      (acc ++ [Chunk nd first false]).
Proof. intros H. simpl. rewrite H. reflexivity. Qed.

Lemma chunker_loop_keep (B : Z) (line : string) (rest : list string)
    (nd : string) (first : bool) (acc : list chunk) :
  truthy nd && (B <? len line + len nd) = false ->
  chunker_loop record_chunk B (line :: rest) nd first acc
  = chunker_loop record_chunk B rest (nd +:+ (nl +:+ line)) first acc.
Proof. intros H. simpl. rewrite H. reflexivity. Qed.

(** The loop groups the lines without reordering them: from an accumulator
    [render g] it flushes the groups [gs] and stops with [render g']. *)
Lemma chunker_loop_groups (B : Z) (lines : list string) :
  forall (g : list string) (first : bool) (acc : list chunk),
  (g = [] \/ group_ok B g) ->
  exists gs g',
    chunker_loop record_chunk B lines (render g) first acc
    = Some (acc ++ mark_open gs first, render g',
            first && match gs with [] => true | _ => false end) /\
    concat gs ++ g' = g ++ lines /\
    Forall (group_ok B) gs /\
    (g' = [] \/ group_ok B g') /\
    (g <> [] \/ lines <> [] -> g' <> []).
Proof.
  induction lines as [|line rest IH]; intros g first acc Hg.
  - exists [], g. simpl. rewrite andb_true_r, !app_nil_r.
    split_and!; auto. intros [H|H]; congruence.
  - destruct (truthy (render g) && (B <? len line + len (render g))) eqn:Hc.
    + rewrite (chunker_loop_flush _ _ _ _ _ _ Hc).
      apply andb_true_iff in Hc as [Hne Hover].
      apply truthy_render in Hne.
      destruct (IH [line] false (acc ++ [Chunk (render g) first false]))
        as (gs & g' & Hrun & Hcat & Hall & Hg' & Hlast).
      { right. apply group_ok_single. }
      exists (g :: gs), g'.
      rewrite <- render_single, Hrun, andb_false_r, <- app_assoc. simpl.
      split_and!.
      * reflexivity.
      * simpl in Hcat. rewrite <- app_assoc, Hcat. reflexivity.
      * constructor; [|assumption]. destruct Hg as [->|Hg]; [congruence | exact Hg].
      * assumption.
      * intros _. apply Hlast. left. discriminate.
    + rewrite (chunker_loop_keep _ _ _ _ _ _ Hc).
      destruct (IH (g ++ [line]) first acc)
        as (gs & g' & Hrun & Hcat & Hall & Hg' & Hlast).
      { right. destruct g as [|l0 g0].
        - apply group_ok_single.
        - apply andb_false_iff in Hc as [Hc|Hc].
          + simpl in Hc. discriminate.
          + apply Z.ltb_ge in Hc. apply group_ok_snoc; [discriminate | exact Hc]. }
      exists gs, g'. rewrite <- render_snoc, Hrun.
      split_and!.
      * reflexivity.
      * rewrite Hcat, <- app_assoc. reflexivity.
      * assumption.
      * assumption.
      * intros _. apply Hlast. left. destruct g; discriminate.
Qed.

(** The chunks of a list of lines are the marked renderings of a grouping
    of the lines. *)
Lemma chunks_of_lines_groups (B : Z) (lines : list string) :
  exists gs,
    chunks_of_lines B lines = Some (mark gs true) /\
    concat gs = lines /\
    Forall (group_ok B) gs /\
    (lines <> [] -> gs <> []).
Proof.
  destruct (chunker_loop_groups B lines [] true []) as
    (gs & g' & Hrun & Hcat & Hall & Hg' & Hlast); [now left|].
  unfold chunks_of_lines, chunker. simpl in Hrun. rewrite Hrun. simpl.
  destruct g' as [|l g'].
  - exists gs. simpl. rewrite app_nil_r in Hcat.
    destruct lines as [|l0 lines]; [|exfalso; apply Hlast; [right|]; congruence].
    assert (gs = []) as ->.
    { destruct gs as [|g0 gs]; [reflexivity|].
      inversion Hall as [|? ? [Hne _] _]; subst.
      simpl in Hcat. destruct g0; [congruence | discriminate]. }
    split_and!; auto.
  - exists (gs ++ [l :: g']).
    change (truthy (render (l :: g'))) with true. simpl.
    unfold record_chunk. rewrite mark_snoc. simpl app at 1.
    split_and!.
    + reflexivity.
    + rewrite concat_app. simpl. rewrite app_nil_r. exact Hcat.
    + apply Forall_app. split; [assumption|]. constructor; [|constructor].
      destruct Hg' as [?|?]; [discriminate | assumption].
    + intros _. destruct gs; discriminate.
Qed.

Lemma mark_cons2 (g g1 : list string) (gs : list (list string)) (first : bool) :
  mark (g :: g1 :: gs) first
  = Chunk (render g) first false :: mark (g1 :: gs) false.
Proof. reflexivity. Qed.

Lemma mark_length (gs : list (list string)) (first : bool) :
  length (mark gs first) = length gs.
Proof.
  revert first. induction gs as [|g gs IH]; intros first; [reflexivity|].
  destruct gs as [|g1 gs]; [reflexivity|].
  rewrite mark_cons2.
  change (S (length (mark (g1 :: gs) false)) = S (length (g1 :: gs))).
  f_equal. apply IH.
Qed.

Lemma mark_documents (gs : list (list string)) (first : bool) :
  map document (mark gs first) = map render gs.
Proof.
  revert first. induction gs as [|g gs IH]; intros first; [reflexivity|].
  destruct gs as [|g1 gs]; [reflexivity|].
  rewrite mark_cons2.
  change (render g :: map document (mark (g1 :: gs) false)
          = render g :: map render (g1 :: gs)).
  f_equal. apply IH.
Qed.

(** The marks of the chunk at each position. *)
Lemma mark_lookup (gs : list (list string)) (first : bool) (i : nat) (c : chunk) :
  mark gs first !! i = Some c ->
  is_first c = first && (i =? 0)%nat /\
  is_last c = (S i =? length gs)%nat.
Proof.
  revert first i. induction gs as [|g gs IH]; intros first i Hc; [discriminate|].
  destruct gs as [|g1 gs].
  - destruct i as [|i]; [|discriminate]. injection Hc as <-. simpl.
    now rewrite andb_true_r.
  - change (mark (g :: g1 :: gs) first)
      with (Chunk (render g) first false :: mark (g1 :: gs) false) in Hc.
    destruct i as [|i].
    + injection Hc as <-. simpl. now rewrite andb_true_r.
    + apply IH in Hc as [Hf Hl]. rewrite Hf, Hl. simpl.
      now rewrite andb_false_r.
Qed.

Lemma mark_first_count_false (gs : list (list string)) :
  length (List.filter is_first (mark gs false)) = 0%nat.
Proof.
  induction gs as [|g gs IH]; [reflexivity|].
  destruct gs as [|g1 gs]; [reflexivity|].
  rewrite mark_cons2. exact IH.
Qed.

Lemma mark_first_count (gs : list (list string)) :
  gs <> [] -> length (List.filter is_first (mark gs true)) = 1%nat.
Proof.
  destruct gs as [|g gs]; [congruence|]. intros _.
  destruct gs as [|g1 gs]; [reflexivity|].
  rewrite mark_cons2.
  change (S (length (List.filter is_first (mark (g1 :: gs) false))) = 1%nat).
  now rewrite mark_first_count_false.
Qed.

Lemma mark_last_count (gs : list (list string)) (first : bool) :
  gs <> [] -> length (List.filter is_last (mark gs first)) = 1%nat.
Proof.
  revert first. induction gs as [|g gs IH]; [congruence|]. intros first _.
  destruct gs as [|g1 gs]; [reflexivity|].
  rewrite mark_cons2.
  change (length (List.filter is_last (mark (g1 :: gs) false)) = 1%nat).
  apply IH. discriminate.
Qed.

Lemma append_render_join (g : list string) :
  forall l, l +:+ render g = join_nl (l :: g).
Proof.
  induction g as [|l2 g IH]; intros l.
  - apply append_nil_r.
  - rewrite join_nl_cons2, <- IH. reflexivity.
Qed.

Lemma strip_render (g : list string) :
  g <> [] -> strip_separator (render g) = join_nl g.
Proof.
  destruct g as [|l g]; [congruence|]. intros _.
  change (render (l :: g)) with (String nl_char (l +:+ render g)).
  simpl. apply append_render_join.
Qed.

Lemma join_nl_app (g1 g2 : list string) :
  g1 <> [] -> g2 <> [] ->
  join_nl (g1 ++ g2) = join_nl g1 +:+ nl +:+ join_nl g2.
Proof.
  intros H1 H2. induction g1 as [|l g1 IH]; [congruence|].
  destruct g1 as [|l1 g1].
  - destruct g2; [congruence | reflexivity].
  - change ((l :: l1 :: g1) ++ g2) with (l :: l1 :: (g1 ++ g2)).
    rewrite !join_nl_cons2.
    change (l1 :: g1 ++ g2) with ((l1 :: g1) ++ g2).
    rewrite IH by discriminate. now rewrite !append_assoc.
Qed.

Lemma join_nl_concat (gs : list (list string)) :
  Forall (fun g => g <> []) gs ->
  join_nl (map join_nl gs) = join_nl (concat gs).
Proof.
  induction gs as [|g gs IH]; [reflexivity|]. intros Hall.
  inversion Hall as [|? ? Hg Hgs]; subst. specialize (IH Hgs).
  destruct gs as [|g1 gs].
  - simpl. now rewrite app_nil_r.
  - change (map join_nl (g :: g1 :: gs))
      with (join_nl g :: join_nl g1 :: map join_nl gs).
    rewrite join_nl_cons2.
    change (join_nl g1 :: map join_nl gs) with (map join_nl (g1 :: gs)).
    rewrite IH.
    change (concat (g :: g1 :: gs)) with (g ++ concat (g1 :: gs)).
    rewrite join_nl_app; [reflexivity | assumption |].
    inversion Hgs; subst. destruct g1; [congruence | discriminate].
Qed.

(** ** [deepcopy] *)

Section DeepcopyFacts.
Local Open Scope nat_scope.

Lemma in_memo_weaken (m m' : memo) (v : val) :
  m ⊆ m' -> in_memo m v -> in_memo m' v.
Proof.
  intros Hsub. destruct v as [| | | | |c]; simpl; auto.
  intros [y Hy]. exists y. eapply lookup_weaken; eauto.
Qed.

Lemma rename_weaken (m m' : memo) (v : val) :
  m ⊆ m' -> in_memo m v -> rename m' v = rename m v.
Proof.
  intros Hsub. destruct v as [| | | | |c]; simpl; auto.
  intros [y Hy]. rewrite Hy. now rewrite (lookup_weaken _ _ _ _ Hy Hsub).
Qed.

Lemma rename_map_weaken (m m' : memo) (vs : list val) :
  m ⊆ m' -> Forall (in_memo m) vs -> map (rename m') vs = map (rename m) vs.
Proof.
  intros Hsub Hall. induction Hall as [|v vs Hv _ IH]; [reflexivity|].
  simpl. rewrite IH. f_equal. now apply rename_weaken.
Qed.

Lemma rename_obj_weaken (m m' : memo) (o : obj) :
  m ⊆ m' -> Forall (in_memo m) (children o) ->
  rename_obj m' o = rename_obj m o.
Proof.
  intros Hsub. destruct o as [d|items]; simpl; intros Hall.
  - f_equal. induction d as [|[k v] d IH]; [reflexivity|].
    inversion Hall; subst. simpl. rewrite IH by assumption.
    f_equal. f_equal. now apply rename_weaken.
  - f_equal. now apply rename_map_weaken.
Qed.

Lemma Forall_in_memo_weaken (m m' : memo) (vs : list val) :
  m ⊆ m' -> Forall (in_memo m) vs -> Forall (in_memo m') vs.
Proof.
  intros Hsub Hall. eapply Forall_impl; [exact Hall|].
  intros v. now apply in_memo_weaken.
Qed.

Lemma fresh_in_mono (n0 n n' : nat) (v : val) :
  n <= n' -> fresh_in n0 n v -> fresh_in n0 n' v.
Proof. destruct v; simpl; auto. lia. Qed.

(** A memo whose keys are below [n] has at most [n] entries. *)
Lemma memo_size_bound (m : memo) (n : nat) :
  (forall l y, m !! l = Some y -> l < n) -> size m <= n.
Proof.
  intros Hm. rewrite <- (size_dom (D := gset nat)).
  rewrite <- (size_set_seq (C := gset nat) 0 n).
  apply subseteq_size. intros l Hl.
  apply elem_of_dom in Hl as [y Hy]. apply elem_of_set_seq.
  specialize (Hm _ _ Hy). lia.
Qed.

Lemma prefix_insert (hb h : heap) (y : nat) (o : obj) :
  hb `prefix_of` h -> length hb <= y -> hb `prefix_of` <[y := o]> h.
Proof.
  intros [ext ->] Hy. exists (<[y - length hb := o]> ext).
  now rewrite insert_app_r_alt.
Qed.

Lemma rename_fresh (h0 h : heap) (P : loc -> Prop) (m : memo) (v : val) :
  copying h0 P h m -> in_memo m v ->
  fresh_in (length h0) (length h) (rename m v).
Proof.
  intros Hcp. destruct v as [| | | | |c]; simpl; auto.
  intros [y Hy]. rewrite Hy. simpl. apply (cp_range _ _ _ _ Hcp) in Hy. lia.
Qed.

(** Writing to the copy of a pending object keeps the state. *)
Lemma copying_insert (h0 h : heap) (P : loc -> Prop) (m : memo)
    (l y : loc) (o' : obj) :
  copying h0 P h m -> m !! l = Some y -> P l ->
  Forall (fresh_in (length h0) (length h)) (children o') ->
  copying h0 P (<[y := o']> h) m.
Proof.
  intros Hcp Hl HP Ho'. pose proof (cp_range _ _ _ _ Hcp _ _ Hl) as Hr.
  split.
  - apply prefix_insert; [apply Hcp | lia].
  - intros l1 y1 H1. rewrite length_insert. now apply (cp_range _ _ _ _ Hcp).
  - apply Hcp.
  - intros y1 o1 Hy1 Ho1. rewrite length_insert.
    destruct (decide (y = y1)) as [->|Hne].
    + rewrite list_lookup_insert_eq in Ho1 by lia. now injection Ho1 as <-.
    + rewrite list_lookup_insert_ne in Ho1 by assumption.
      now apply (cp_fresh _ _ _ _ Hcp y1).
  - intros l1 y1 H1 HnP.
    destruct (cp_done _ _ _ _ Hcp _ _ H1 HnP) as (o & Ho & Hy1 & Hin).
    exists o. split_and!; try assumption.
    rewrite list_lookup_insert_ne; [assumption|].
    intros ->. apply HnP. now rewrite (cp_inj _ _ _ _ Hcp _ _ _ H1 Hl).
Qed.

(** Allocating the empty copy of [l] and entering it in the memo. *)
Lemma copying_alloc (h0 h : heap) (P : loc -> Prop) (m : memo)
    (l : loc) (e : obj) :
  copying h0 P h m -> m !! l = None -> l < length h0 -> children e = [] ->
  copying h0 (fun l' => P l' \/ l' = l) (h ++ [e]) (<[l := length h]> m).
Proof.
  intros Hcp Hl Hlt He.
  pose proof (prefix_length _ _ (cp_prefix _ _ _ _ Hcp)) as Hlen.
  split.
  - apply prefix_app_r, Hcp.
  - intros l1 y1 H1. rewrite length_app. simpl.
    destruct (decide (l = l1)) as [->|Hne].
    + rewrite lookup_insert_eq in H1. injection H1 as <-. lia.
    + rewrite lookup_insert_ne in H1 by assumption.
      apply (cp_range _ _ _ _ Hcp) in H1. lia.
  - intros l1 l2 y1 H1 H2.
    destruct (decide (l1 = l)) as [E1|Hne1];
      destruct (decide (l2 = l)) as [E2|Hne2]; [congruence | | |].
    + subst l1. rewrite lookup_insert_eq in H1. injection H1 as <-.
      rewrite lookup_insert_ne in H2 by congruence.
      apply (cp_range _ _ _ _ Hcp) in H2. lia.
    + subst l2. rewrite lookup_insert_eq in H2. injection H2 as <-.
      rewrite lookup_insert_ne in H1 by congruence.
      apply (cp_range _ _ _ _ Hcp) in H1. lia.
    + rewrite lookup_insert_ne in H1, H2 by congruence.
      eapply (cp_inj _ _ _ _ Hcp); eauto.
  - intros y1 o1 Hy1 Ho1. rewrite length_app. simpl.
    apply lookup_app_Some in Ho1 as [Ho1|[Hge Ho1]].
    + eapply Forall_impl; [eapply (cp_fresh _ _ _ _ Hcp); eauto|].
      intros v. apply fresh_in_mono. lia.
    + destruct (y1 - length h) eqn:E; [|discriminate].
      injection Ho1 as <-. rewrite He. constructor.
  - intros l1 y1 H1 HnP.
    assert (l <> l1) as Hne by (intros ->; apply HnP; now right).
    rewrite lookup_insert_ne in H1 by assumption.
    destruct (cp_done _ _ _ _ Hcp _ _ H1) as (o & Ho & Hy1 & Hin).
    { intros HP. apply HnP. now left. }
    pose proof (insert_subseteq m l (length h) Hl) as Hsub.
    exists o. split_and!; [assumption| |].
    + rewrite (rename_obj_weaken m) by assumption.
      apply lookup_app_l_Some. assumption.
    + eapply Forall_in_memo_weaken; eauto.
Qed.

(** The copy of [l] is complete. *)
Lemma copying_finish (h0 h : heap) (P : loc -> Prop) (m : memo)
    (l y : loc) (o : obj) :
  copying h0 (fun l' => P l' \/ l' = l) h m ->
  m !! l = Some y -> h0 !! l = Some o ->
  h !! y = Some (rename_obj m o) -> Forall (in_memo m) (children o) ->
  copying h0 P h m.
Proof.
  intros Hcp Hl Ho Hy Hin. split; try apply Hcp.
  intros l1 y1 H1 HnP. destruct (decide (l1 = l)) as [->|Hne].
  - assert (y1 = y) as -> by congruence. eauto.
  - apply (cp_done _ _ _ _ Hcp _ _ H1). intros [HP | ->]; auto.
Qed.

Lemma dict_set_new (k : string) (v : val) (d : list (string * val)) :
  ~ In k (map fst d) -> dict_set k v d = d ++ [(k, v)].
Proof.
  induction d as [|[k' v'] d IH]; intros Hk; [reflexivity|].
  simpl in *. destruct (String.eqb_spec k' k) as [->|Hne].
  - exfalso. apply Hk. now left.
  - rewrite IH; [reflexivity|]. intros Hin. apply Hk. now right.
Qed.

Lemma append_list (h : heap) (y : loc) (items : list val) (v : val) :
  h !! y = Some (OList items) ->
  append h (VRef y) v = Some (<[y := OList (items ++ [v])]> h).
Proof. intros H. unfold append. now rewrite H. Qed.

Lemma setitem_dict (h : heap) (y : loc) (d : list (string * val))
    (k : string) (v : val) :
  h !! y = Some (ODict d) ->
  setitem h (VRef y) k v = Some (<[y := ODict (dict_set k v d)]> h).
Proof. intros H. unfold setitem. now rewrite H. Qed.

Local Arguments append : simpl never.
Local Arguments setitem : simpl never.

Lemma copy_list_items_cons rec (y : loc) (a a' : val) (rest : list val)
    (st : heap * memo) (h h' : heap) (m : memo) :
  rec a st = Some (a', (h, m)) -> append h (VRef y) a' = Some h' ->
  copy_list_items rec y (a :: rest) st = copy_list_items rec y rest (h', m).
Proof. intros H1 H2. simpl. rewrite H1. simpl. now rewrite H2. Qed.

Lemma copy_dict_items_cons rec (y : loc) (key : string) (value value' : val)
    (rest : list (string * val)) (st : heap * memo) (h h' : heap) (m : memo) :
  rec value st = Some (value', (h, m)) ->
  setitem h (VRef y) key value' = Some h' ->
  copy_dict_items rec y ((key, value) :: rest) st
  = copy_dict_items rec y rest (h', m).
Proof. intros H1 H2. simpl. rewrite H1. simpl. now rewrite H2. Qed.

Section Loops.
Variable h0 : heap.
Variable F : nat.
Variable rec : val -> heap * memo -> option (val * (heap * memo)).
Hypothesis Hrec : forall x P h m,
  copying h0 P h m -> val_in (length h0) x -> length h0 - size m < F ->
  exists h' m',
    rec x (h, m) = Some (rename m' x, (h', m')) /\
    copying h0 P h' m' /\ m ⊆ m' /\ h `prefix_of` h' /\ in_memo m' x.

Lemma copy_list_items_spec (P : loc -> Prop) (l y : loc) (hb : heap)
    (items : list val) :
  P l -> length hb <= y ->
  forall rest pre h m,
    items = pre ++ rest ->
    copying h0 P h m -> m !! l = Some y -> hb `prefix_of` h ->
    Forall (val_in (length h0)) rest -> Forall (in_memo m) pre ->
    h !! y = Some (OList (map (rename m) pre)) ->
    length h0 - size m < F ->
    exists h' m',
      copy_list_items rec y rest (h, m) = Some (h', m') /\
      copying h0 P h' m' /\ m ⊆ m' /\ hb `prefix_of` h' /\
      Forall (in_memo m') items /\
      h' !! y = Some (OList (map (rename m') items)).
Proof.
  intros HP Hy. induction rest as [|a rest IH];
    intros pre h m Hitems Hcp Hl Hhb Hrest Hpre Hobj Hsize.
  - rewrite app_nil_r in Hitems. subst pre. exists h, m. simpl.
    split_and!; auto.
  - inversion Hrest as [|? ? Ha Hrest']; subst.
    destruct (Hrec a P h m Hcp Ha Hsize)
      as (h1 & m1 & Hcall & Hcp1 & Hsub & Hpre1 & Hmemo).
    pose proof (prefix_lookup_Some _ _ _ _ Hobj Hpre1) as Hobj1.
    pose proof (lookup_weaken _ _ _ _ Hl Hsub) as Hl1.
    set (o2 := OList (map (rename m) pre ++ [rename m1 a])).
    assert (copying h0 P (<[y := o2]> h1) m1) as Hcp2.
    { eapply copying_insert; eauto. simpl. apply Forall_app. split.
      - apply (cp_fresh _ _ _ _ Hcp1 y (OList (map (rename m) pre)));
          [|exact Hobj1].
        apply (cp_range _ _ _ _ Hcp1) in Hl1. lia.
      - repeat constructor. eapply rename_fresh; eauto. }
    destruct (IH (pre ++ [a]) (<[y := o2]> h1) m1)
      as (h' & m' & Hloop & Hcp' & Hsub' & Hhb' & Hall & Hobj').
    + now rewrite <- app_assoc.
    + exact Hcp2.
    + exact Hl1.
    + apply prefix_insert; [|exact Hy]. now transitivity h.
    + exact Hrest'.
    + apply Forall_app. split; [|now repeat constructor].
      eapply Forall_in_memo_weaken; eauto.
    + rewrite list_lookup_insert_eq by (eapply lookup_lt_Some; eauto).
      unfold o2. rewrite map_app. simpl.
      now rewrite (rename_map_weaken m m1).
    + pose proof (map_subseteq_size _ _ Hsub). lia.
    + exists h', m'.
      rewrite (copy_list_items_cons _ _ _ _ _ _ _ _ _ Hcall
                 (append_list _ _ _ _ Hobj1)).
      fold o2. rewrite Hloop.
      split_and!; auto. now transitivity m1.
Qed.

Lemma copy_dict_items_spec (P : loc -> Prop) (l y : loc) (hb : heap)
    (items : list (string * val)) :
  P l -> length hb <= y -> NoDup (map fst items) ->
  forall rest pre h m,
    items = pre ++ rest ->
    copying h0 P h m -> m !! l = Some y -> hb `prefix_of` h ->
    Forall (val_in (length h0)) (map snd rest) ->
    Forall (in_memo m) (map snd pre) ->
    h !! y = Some (rename_obj m (ODict pre)) ->
    length h0 - size m < F ->
    exists h' m',
      copy_dict_items rec y rest (h, m) = Some (h', m') /\
      copying h0 P h' m' /\ m ⊆ m' /\ hb `prefix_of` h' /\
      Forall (in_memo m') (map snd items) /\
      h' !! y = Some (rename_obj m' (ODict items)).
Proof.
  intros HP Hy Hnodup. induction rest as [|[key value] rest IH];
    intros pre h m Hitems Hcp Hl Hhb Hrest Hpre Hobj Hsize.
  - rewrite app_nil_r in Hitems. subst pre. exists h, m. simpl.
    split_and!; auto.
  - simpl in Hrest. inversion Hrest as [|? ? Ha Hrest']; subst.
    destruct (Hrec value P h m Hcp Ha Hsize)
      as (h1 & m1 & Hcall & Hcp1 & Hsub & Hpre1 & Hmemo).
    pose proof (prefix_lookup_Some _ _ _ _ Hobj Hpre1) as Hobj1.
    pose proof (lookup_weaken _ _ _ _ Hl Hsub) as Hl1.
    set (d1 := map (fun kv : string * val => (kv.1, rename m kv.2)) pre).
    set (o2 := ODict (d1 ++ [(key, rename m1 value)])).
    assert (dict_set key (rename m1 value) d1 = d1 ++ [(key, rename m1 value)])
      as Hset.
    { apply dict_set_new. unfold d1. rewrite map_map. simpl.
      rewrite map_app in Hnodup. simpl in Hnodup.
      apply NoDup_app in Hnodup as (_ & Hdisj & _).
      intros Hin. apply (Hdisj key); [now apply list_elem_of_In|].
      apply list_elem_of_In. now left. }
    assert (copying h0 P (<[y := o2]> h1) m1) as Hcp2.
    { eapply copying_insert; eauto. simpl. rewrite map_app.
      apply Forall_app. split.
      - apply (cp_fresh _ _ _ _ Hcp1 y (ODict d1)); [|exact Hobj1].
        apply (cp_range _ _ _ _ Hcp1) in Hl1. lia.
      - repeat constructor. eapply rename_fresh; eauto. }
    destruct (IH (pre ++ [(key, value)]) (<[y := o2]> h1) m1)
      as (h' & m' & Hloop & Hcp' & Hsub' & Hhb' & Hall & Hobj').
    + now rewrite <- app_assoc.
    + exact Hcp2.
    + exact Hl1.
    + apply prefix_insert; [|exact Hy]. now transitivity h.
    + exact Hrest'.
    + rewrite map_app. apply Forall_app. split; [|now repeat constructor].
      eapply Forall_in_memo_weaken; eauto.
    + rewrite list_lookup_insert_eq by (eapply lookup_lt_Some; eauto).
      unfold o2, d1. simpl. rewrite map_app. simpl. do 3 f_equal.
      assert (rename_obj m1 (ODict pre) = rename_obj m (ODict pre)) as E
        by now apply rename_obj_weaken.
      simpl in E. now injection E as <-.
    + pose proof (map_subseteq_size _ _ Hsub). lia.
    + exists h', m'.
      rewrite (copy_dict_items_cons _ _ _ _ _ _ _ _ _ _ Hcall
                 (setitem_dict _ _ _ _ _ Hobj1)).
      fold d1. rewrite Hset. fold o2. rewrite Hloop.
      split_and!; auto. now transitivity m1.
Qed.
End Loops.

Lemma copying_start (h0 : heap) (P : loc -> Prop) : copying h0 P h0 ∅.
Proof.
  split.
  - reflexivity.
  - intros l y Hl. now rewrite lookup_empty in Hl.
  - intros l1 l2 y Hl. now rewrite lookup_empty in Hl.
  - intros y o Hy Ho. apply lookup_lt_Some in Ho. lia.
  - intros l y Hl. now rewrite lookup_empty in Hl.
Qed.

Lemma deepcopy_fuel_ref (fuel : nat) (l : loc) (h : heap) (m : memo) :
  deepcopy_fuel (S fuel) (VRef l) (h, m)
  = match m !! l with
    | Some y => Some (VRef y, (h, m))
    | None =>
        match h !! l with
        | Some (OList items) =>
            st' ← copy_list_items (deepcopy_fuel fuel) (length h) items
                   (h ++ [OList []], <[l := length h]> m);
            Some (VRef (length h), st')
        | Some (ODict items) =>
            st' ← copy_dict_items (deepcopy_fuel fuel) (length h) items
                   (h ++ [ODict []], <[l := length h]> m);
            Some (VRef (length h), st')
        | None => None
        end
    end.
Proof. reflexivity. Qed.

Lemma deepcopy_fuel_spec (h0 : heap) :
  wf_heap h0 ->
  forall fuel x P h m,
    copying h0 P h m -> val_in (length h0) x -> length h0 - size m < fuel ->
    exists h' m',
      deepcopy_fuel fuel x (h, m) = Some (rename m' x, (h', m')) /\
      copying h0 P h' m' /\ m ⊆ m' /\ h `prefix_of` h' /\ in_memo m' x.
Proof.
  intros Hwf. induction fuel as [|fuel IH]; intros x P h m Hcp Hx Hsize; [lia|].
  destruct x as [| | | | |l];
    try (exists h, m; simpl; split_and!; auto; reflexivity).
  rewrite deepcopy_fuel_ref. destruct (m !! l) as [y|] eqn:Hl.
  - exists h, m. simpl. rewrite Hl. split_and!; eauto.
  - simpl in Hx. destruct (lookup_lt_is_Some_2 h0 l Hx) as [o Ho].
    rewrite (prefix_lookup_Some _ _ _ _ Ho (cp_prefix _ _ _ _ Hcp)).
    destruct (Forall_lookup_1 _ _ _ _ Hwf Ho) as [Hchildren Hkeys].
    set (m1 := <[l := length h]> m).
    assert (m ⊆ m1) as Hsub by now apply insert_subseteq.
    assert (m1 !! l = Some (length h)) as Hl1 by apply lookup_insert_eq.
    assert (length h0 - size m1 < fuel) as Hsize1.
    { assert (size m1 <= length h0).
      { apply memo_size_bound. intros l' y'. unfold m1.
        destruct (decide (l = l')) as [<-|Hne]; [auto|].
        rewrite lookup_insert_ne by assumption.
        intros H'. now apply (cp_range _ _ _ _ Hcp) in H'. }
      unfold m1 in *. rewrite map_size_insert_None in * by assumption. lia. }
    destruct o as [items|items].
    + destruct (copy_dict_items_spec h0 fuel (deepcopy_fuel fuel) IH
                  (fun l' => P l' \/ l' = l) l (length h) h items
                  (or_intror eq_refl) (le_n _) Hkeys items []
                  (h ++ [ODict []]) m1)
        as (h' & m' & Hloop & Hcp' & Hsub' & Hpre' & Hall & Hobj');
        try assumption; try reflexivity.
      * now apply copying_alloc.
      * now apply prefix_app_r.
      * constructor.
      * now apply list_lookup_middle.
      * exists h', m'. rewrite Hloop. simpl.
        pose proof (lookup_weaken _ _ _ _ Hl1 Hsub') as Hl'.
        rewrite Hl'. split_and!; eauto.
        -- eapply copying_finish; eauto.
        -- now transitivity m1.
    + destruct (copy_list_items_spec h0 fuel (deepcopy_fuel fuel) IH
                  (fun l' => P l' \/ l' = l) l (length h) h items
                  (or_intror eq_refl) (le_n _) items []
                  (h ++ [OList []]) m1)
        as (h' & m' & Hloop & Hcp' & Hsub' & Hpre' & Hall & Hobj');
        try assumption; try reflexivity.
      * now apply copying_alloc.
      * now apply prefix_app_r.
      * constructor.
      * now apply list_lookup_middle.
      * exists h', m'. rewrite Hloop. simpl.
        pose proof (lookup_weaken _ _ _ _ Hl1 Hsub') as Hl'.
        rewrite Hl'. split_and!; eauto.
        -- eapply copying_finish; eauto.
        -- now transitivity m1.
Qed.

(** [deepcopy] returns; what it returns is the renaming of its argument
    under a memo that describes a complete copy. *)
Lemma deepcopy_spec (h : heap) (x : val) :
  wf_heap h -> val_in (length h) x ->
  exists h' m,
    deepcopy h x = Some (h', rename m x) /\
    copying h (fun _ => False) h' m /\ in_memo m x.
Proof.
  intros Hwf Hx.
  destruct (deepcopy_fuel_spec h Hwf (S (length h)) x (fun _ => False) h ∅)
    as (h' & m' & Hrun & Hcp & _ & _ & Hin); auto.
  - apply copying_start.
  - rewrite map_size_empty. lia.
  - exists h', m'. unfold deepcopy. rewrite Hrun. simpl. auto.
Qed.
End DeepcopyFacts.

(** ** Displays and snapshots *)

Section BuildFacts.
Local Open Scope nat_scope.

Lemma tree_induction (P : tree -> Prop) :
  (forall v, P (TVal v)) ->
  (forall items, Forall P items -> P (TList items)) ->
  (forall items, Forall (fun kt : string * tree => P kt.2) items ->
                 P (TDict items)) ->
  forall t, P t.
Proof.
  intros Hval Hlist Hdict. fix IH 1. intros [v|items|items].
  - apply Hval.
  - apply Hlist. induction items as [|t items IHitems]; constructor.
    + apply IH.
    + exact IHitems.
  - apply Hdict. induction items as [|[k t] items IHitems]; constructor.
    + apply IH.
    + exact IHitems.
Qed.

Lemma build_TList (items : list tree) (h : heap) :
  build (TList items) h
  = let '(h1, vs) := build_items items h in alloc (OList vs) h1.
Proof. reflexivity. Qed.

Lemma build_TDict (items : list (string * tree)) (h : heap) :
  build (TDict items) h
  = let '(h1, kvs) := build_entries items h in alloc (ODict kvs) h1.
Proof. reflexivity. Qed.

Lemma fresh_in_widen (a b a' b' : nat) (v : val) :
  a' <= a -> b <= b' -> fresh_in a b v -> fresh_in a' b' v.
Proof. destruct v; simpl; auto. lia. Qed.

Lemma Forall_fresh_in_widen (a b a' b' : nat) (vs : list val) :
  a' <= a -> b <= b' -> Forall (fresh_in a b) vs -> Forall (fresh_in a' b') vs.
Proof.
  intros Ha Hb Hall. eapply Forall_impl; [exact Hall|].
  intros v. now apply fresh_in_widen.
Qed.

Lemma objects_fresh_in_widen (a b a' b' : nat) (ext : list obj) :
  a' <= a -> b <= b' ->
  Forall (fun o => Forall (fresh_in a b) (children o)) ext ->
  Forall (fun o => Forall (fresh_in a' b') (children o)) ext.
Proof.
  intros Ha Hb Hall. eapply Forall_impl; [exact Hall|].
  intros o. now apply Forall_fresh_in_widen.
Qed.

Lemma snapshot_atom (n : nat) (h : heap) (v : val) :
  atomic (TVal v) = true -> snapshot n h v = Some (TVal v).
Proof. destruct v, n; simpl; congruence. Qed.

Lemma snapshot_ref (n : nat) (h : heap) (l : loc) :
  snapshot (S n) h (VRef l)
  = match h !! l with
    | Some (OList items) => TList <$> mapM (snapshot n h) items
    | Some (ODict items) =>
        TDict <$> mapM (fun kv : string * val =>
                          t ← snapshot n h kv.2; Some (kv.1, t)) items
    | None => None
    end.
Proof. reflexivity. Qed.

Lemma mapM_cons {A B} (f : A -> option B) (x : A) (l : list A) :
  mapM f (x :: l) = y ← f x; k ← mapM f l; Some (y :: k).
Proof. reflexivity. Qed.

Lemma build_items_cons (t : tree) (ts : list tree) (h : heap) :
  build_items (t :: ts) h
  = let '(h1, v) := build t h in
    let '(h2, vs) := build_items ts h1 in (h2, v :: vs).
Proof. reflexivity. Qed.

Lemma build_entries_cons (k : string) (t : tree)
    (kts : list (string * tree)) (h : heap) :
  build_entries ((k, t) :: kts) h
  = let '(h1, v) := build t h in
    let '(h2, kvs) := build_entries kts h1 in (h2, (k, v) :: kvs).
Proof. reflexivity. Qed.

(** The items of a display, given what each of them builds. *)
Lemma build_items_built (items : list tree) :
  Forall (fun t => atomic t = true ->
            forall h, exists ext a, build t h = (h ++ ext, a) /\ built h ext a t)
         items ->
  forallb atomic items = true ->
  forall h, exists ext vs,
    build_items items h = (h ++ ext, vs) /\
    foldr Nat.max 0 (map depth items) <= length ext /\
    Forall (fresh_in (length h) (length h + length ext)) vs /\
    Forall (fun o => Forall (fresh_in (length h) (length h + length ext))
                       (children o)) ext /\
    (forall h2 : heap,
       (forall l o, length h <= l -> (h ++ ext) !! l = Some o ->
                    h2 !! l = Some o) ->
       forall n, foldr Nat.max 0 (map depth items) <= n ->
                 mapM (snapshot n h2) vs = Some items).
Proof.
  induction 1 as [|t items Ht _ IH]; intros Hat h.
  - exists [], []. simpl. rewrite app_nil_r. split_and!; auto; lia.
  - simpl in Hat. apply andb_true_iff in Hat as [Hat1 Hat2].
    destruct (Ht Hat1 h) as (e1 & v & Hb1 & Hd1 & Hv & He1 & Hs1).
    destruct (IH Hat2 (h ++ e1)) as (e2 & vs & Hb2 & Hd2 & Hvs & He2 & Hs2).
    exists (e1 ++ e2), (v :: vs). rewrite build_items_cons, Hb1, Hb2.
    cbn [map foldr]. rewrite !length_app in *. split_and!.
    + now rewrite app_assoc.
    + lia.
    + constructor.
      * eapply fresh_in_widen; [| |exact Hv]; lia.
      * eapply Forall_fresh_in_widen; [| |exact Hvs]; lia.
    + apply Forall_app. split.
      * eapply objects_fresh_in_widen; [| |exact He1]; lia.
      * eapply objects_fresh_in_widen; [| |exact He2]; lia.
    + intros h2 Hagree n Hn. rewrite mapM_cons.
      rewrite (Hs1 h2); [|intros l o Hl Ho|lia].
      * simpl. rewrite (Hs2 h2); [reflexivity| |lia].
        intros l o Hl Ho. apply Hagree; [lia|].
        now rewrite app_assoc.
      * apply Hagree; [assumption|]. rewrite app_assoc.
        now apply lookup_app_l_Some.
Qed.

Lemma build_entries_built (items : list (string * tree)) :
  Forall (fun kt : string * tree => atomic kt.2 = true ->
            forall h, exists ext a,
              build kt.2 h = (h ++ ext, a) /\ built h ext a kt.2)
         items ->
  forallb (fun kt : string * tree => atomic kt.2) items = true ->
  forall h, exists ext kvs,
    build_entries items h = (h ++ ext, kvs) /\
    foldr Nat.max 0 (map (fun kt : string * tree => depth kt.2) items)
      <= length ext /\
    Forall (fresh_in (length h) (length h + length ext)) (map snd kvs) /\
    Forall (fun o => Forall (fresh_in (length h) (length h + length ext))
                       (children o)) ext /\
    (forall h2 : heap,
       (forall l o, length h <= l -> (h ++ ext) !! l = Some o ->
                    h2 !! l = Some o) ->
       forall n,
         foldr Nat.max 0 (map (fun kt : string * tree => depth kt.2) items)
           <= n ->
         mapM (fun kv : string * val =>
                 t ← snapshot n h2 kv.2; Some (kv.1, t)) kvs = Some items).
Proof.
  induction 1 as [|[k t] items Ht _ IH]; intros Hat h.
  - exists [], []. simpl. rewrite app_nil_r. split_and!; auto; lia.
  - simpl in Hat, Ht. apply andb_true_iff in Hat as [Hat1 Hat2].
    destruct (Ht Hat1 h) as (e1 & v & Hb1 & Hd1 & Hv & He1 & Hs1).
    destruct (IH Hat2 (h ++ e1)) as (e2 & kvs & Hb2 & Hd2 & Hvs & He2 & Hs2).
    exists (e1 ++ e2), ((k, v) :: kvs).
    rewrite build_entries_cons, Hb1, Hb2.
    cbn [map foldr snd]. rewrite !length_app in *. split_and!.
    + now rewrite app_assoc.
    + lia.
    + constructor.
      * eapply fresh_in_widen; [| |exact Hv]; lia.
      * eapply Forall_fresh_in_widen; [| |exact Hvs]; lia.
    + apply Forall_app. split.
      * eapply objects_fresh_in_widen; [| |exact He1]; lia.
      * eapply objects_fresh_in_widen; [| |exact He2]; lia.
    + intros h2 Hagree n Hn. rewrite mapM_cons. simpl.
      rewrite (Hs1 h2); [|intros l o Hl Ho|lia].
      * simpl. rewrite (Hs2 h2); [reflexivity| |lia].
        intros l o Hl Ho. apply Hagree; [lia|].
        now rewrite app_assoc.
      * apply Hagree; [assumption|]. rewrite app_assoc.
        now apply lookup_app_l_Some.
Qed.

(** A display without references builds new objects that refer only to
    each other, and its value shows as the display. *)
Lemma build_atomic (t : tree) :
  atomic t = true ->
  forall h, exists ext a, build t h = (h ++ ext, a) /\ built h ext a t.
Proof.
  induction t as [v|items IH|items IH] using tree_induction; intros Hat h.
  - exists [], v. rewrite app_nil_r. split; [reflexivity|].
    split_and!; simpl.
    + lia.
    + destruct v; simpl in *; auto. discriminate.
    + constructor.
    + intros h2 _ n _. now apply snapshot_atom.
  - simpl in Hat.
    destruct (build_items_built items IH Hat h)
      as (ext & vs & Hb & Hd & Hvs & Hext & Hs).
    exists (ext ++ [OList vs]), (VRef (length (h ++ ext))).
    rewrite build_TList, Hb. unfold alloc. rewrite app_assoc.
    split; [reflexivity|]. unfold built. rewrite !length_app. cbn [length].
    split_and!.
    + cbn [depth]. lia.
    + simpl. lia.
    + apply Forall_app. split.
      * eapply objects_fresh_in_widen; [| |exact Hext]; lia.
      * repeat constructor. simpl.
        eapply Forall_fresh_in_widen; [| |exact Hvs]; lia.
    + intros h2 Hagree n Hn. simpl in Hn.
      destruct n as [|n]; [lia|]. rewrite snapshot_ref.
      rewrite (Hagree (length h + length ext) (OList vs)).
      * rewrite (Hs h2); [reflexivity| |lia].
        intros l o Hl Ho. apply Hagree; [assumption|].
        rewrite app_assoc. now apply lookup_app_l_Some.
      * lia.
      * rewrite app_assoc, <- length_app. now apply list_lookup_middle.
  - simpl in Hat.
    destruct (build_entries_built items IH Hat h)
      as (ext & kvs & Hb & Hd & Hvs & Hext & Hs).
    exists (ext ++ [ODict kvs]), (VRef (length (h ++ ext))).
    rewrite build_TDict, Hb. unfold alloc. rewrite app_assoc.
    split; [reflexivity|]. unfold built. rewrite !length_app. cbn [length].
    split_and!.
    + cbn [depth]. lia.
    + simpl. lia.
    + apply Forall_app. split.
      * eapply objects_fresh_in_widen; [| |exact Hext]; lia.
      * repeat constructor. simpl.
        eapply Forall_fresh_in_widen; [| |exact Hvs]; lia.
    + intros h2 Hagree n Hn. simpl in Hn.
      destruct n as [|n]; [lia|]. rewrite snapshot_ref.
      rewrite (Hagree (length h + length ext) (ODict kvs)).
      * rewrite (Hs h2); [reflexivity| |lia].
        intros l o Hl Ho. apply Hagree; [assumption|].
        rewrite app_assoc. now apply lookup_app_l_Some.
      * lia.
      * rewrite app_assoc, <- length_app. now apply list_lookup_middle.
Qed.
End BuildFacts.

(** ** The loop calls [emit] on the recorded chunks *)

Lemma emit_all_app {St : Type} (emit : string -> bool -> bool -> St -> option St)
    (cs1 cs2 : list chunk) (s : St) :
  emit_all emit (cs1 ++ cs2) s = s' ← emit_all emit cs1 s; emit_all emit cs2 s'.
Proof.
  revert s. induction cs1 as [|c cs1 IH]; intros s; [reflexivity|].
  simpl. destruct (emit _ _ _ s) as [s1|]; simpl; [apply IH | reflexivity].
Qed.

Lemma chunker_loop_emits {St : Type}
    (emit : string -> bool -> bool -> St -> option St) (B : Z)
    (lines : list string) :
  forall (nd : string) (first : bool) (s : St) (acc : list chunk),
  exists cs nd' first',
    chunker_loop record_chunk B lines nd first acc = Some (acc ++ cs, nd', first') /\
    chunker_loop emit B lines nd first s
    = s' ← emit_all emit cs s; Some (s', nd', first').
Proof.
  induction lines as [|line rest IH]; intros nd first s acc.
  - exists [], nd, first. simpl. now rewrite app_nil_r.
  - destruct (truthy nd && (B <? len line + len nd)%Z) eqn:Hc.
    + rewrite (chunker_loop_flush _ _ _ _ _ _ Hc).
      simpl chunker_loop at 2. rewrite Hc.
      destruct (emit nd first false s) as [s1|] eqn:Hemit.
      * destruct (IH (nl +:+ line) false s1 (acc ++ [Chunk nd first false]))
          as (cs & nd' & first' & Hpure & Hgen).
        exists (Chunk nd first false :: cs), nd', first'. split.
        -- rewrite Hpure, <- app_assoc. reflexivity.
        -- simpl. rewrite Hemit. simpl. exact Hgen.
      * destruct (IH (nl +:+ line) false s (acc ++ [Chunk nd first false]))
          as (cs & nd' & first' & Hpure & _).
        exists (Chunk nd first false :: cs), nd', first'. split.
        -- rewrite Hpure, <- app_assoc. reflexivity.
        -- simpl. rewrite Hemit. reflexivity.
    + rewrite (chunker_loop_keep _ _ _ _ _ _ Hc).
      simpl chunker_loop at 2. rewrite Hc. simpl.
      apply IH.
Qed.

(** The loop of the publisher makes the calls the recorder lists. *)
Lemma chunker_emits {St : Type}
    (emit : string -> bool -> bool -> St -> option St) (B : Z)
    (lines : list string) (s : St) (cs : list chunk) :
  chunks_of_lines B lines = Some cs ->
  chunker emit B lines s = emit_all emit cs s.
Proof.
  unfold chunks_of_lines, chunker.
  destruct (chunker_loop_emits emit B lines EmptyString true s [])
    as (cs0 & nd' & first' & Hpure & Hgen).
  rewrite Hpure, Hgen. simpl. intros Hcs.
  destruct (truthy nd') eqn:Ht.
  - unfold record_chunk in Hcs. injection Hcs as <-.
    rewrite emit_all_app.
    destruct (emit_all emit cs0 s) as [s1|]; simpl; [|reflexivity].
    rewrite Ht. now destruct (emit nd' first' true s1).
  - injection Hcs as <-.
    destruct (emit_all emit cs0 s) as [s1|]; simpl; [|reflexivity].
    now rewrite Ht.
Qed.

(** ** What a publisher leaves in the store *)

Section StoreFacts.
Local Open Scope nat_scope.

Lemma fresh_in_val (n0 n : nat) (v : val) : fresh_in n0 n v -> fresh_val n0 v.
Proof. destruct v; simpl; auto. lia. Qed.

Lemma copying_closed_above (h0 h : heap) (P : loc -> Prop) (m : memo) :
  copying h0 P h m -> closed_above (length h0) h.
Proof.
  intros Hcp y o Hy Ho. eapply Forall_impl.
  - eapply (cp_fresh _ _ _ _ Hcp); eauto.
  - intros v. apply fresh_in_val.
Qed.

Lemma closed_above_insert (n0 : nat) (h : heap) (y : loc) (o : obj) :
  closed_above n0 h -> Forall (fresh_val n0) (children o) ->
  closed_above n0 (<[y := o]> h).
Proof.
  intros Hc Ho y' o' Hy' Ho'. destruct (decide (y = y')) as [->|Hne].
  - apply list_lookup_insert_Some in Ho' as [(_ & <- & _)|[? _]];
      [assumption | congruence].
  - rewrite list_lookup_insert_ne in Ho' by assumption. eapply Hc; eauto.
Qed.

Lemma closed_above_app (n0 : nat) (h ext : heap) :
  closed_above n0 h ->
  Forall (fun o => Forall (fresh_val n0) (children o)) ext ->
  closed_above n0 (h ++ ext).
Proof.
  intros Hc Hext y o Hy Ho. apply lookup_app_Some in Ho as [Ho|[_ Ho]].
  - eapply Hc; eauto.
  - eapply Forall_lookup_1 in Hext; eauto.
Qed.

(** From a new value only new objects are reached. *)
Lemma reaches_fresh (n0 : nat) (h : heap) (v : val) (l : loc) :
  closed_above n0 h -> reaches h v l -> fresh_val n0 v -> n0 <= l.
Proof.
  intros Hc. induction 1 as [l|l o v l' Ho Hin _ IH]; intros Hv.
  - exact Hv.
  - apply IH. simpl in Hv. specialize (Hc _ _ Hv Ho).
    rewrite Forall_forall in Hc. apply Hc. now apply list_elem_of_In.
Qed.

Lemma closed_above_independent (n0 : nat) (h : heap) (v : val) :
  closed_above n0 h -> fresh_val n0 v -> independent n0 h v.
Proof. intros Hc Hv l Hl. eapply reaches_fresh; eauto. Qed.

Lemma mapM_ext_map {A B C} (f : B -> option C) (f' : A -> option C)
    (g : A -> B) (l : list A) :
  Forall (fun x => f (g x) = f' x) l -> mapM f (map g l) = mapM f' l.
Proof.
  induction 1 as [|x l Hx _ IH]; [reflexivity|].
  simpl map. rewrite !mapM_cons, Hx, IH. reflexivity.
Qed.

(** The copy of a value has the content of the value. *)
Lemma copy_same_content (h h' : heap) (m : memo) :
  copying h (fun _ => False) h' m ->
  forall x, in_memo m x -> same_content h x h' (rename m x).
Proof.
  intros Hcp x Hx n. revert x Hx.
  induction n as [|n IH]; intros x Hx.
  - destruct x as [| | | | |c]; try reflexivity.
    simpl in *. destruct Hx as [y Hy]. now rewrite Hy.
  - destruct x as [| | | | |c]; try reflexivity.
    simpl in Hx. destruct Hx as [y Hy]. simpl rename. rewrite Hy.
    destruct (cp_done _ _ _ _ Hcp _ _ Hy (fun H => H))
      as (o & Ho & Hy' & Hin).
    rewrite !snapshot_ref, Ho, Hy'.
    destruct o as [d|items]; simpl rename_obj; simpl in Hin.
    + f_equal.
      apply (mapM_ext_map _ _ (fun kv : string * val => (kv.1, rename m kv.2))).
      apply (proj1 (List.Forall_map _ _ _)) in Hin.
      eapply Forall_impl; [exact Hin|].
      intros [k v] Hv. simpl in *. now rewrite IH.
    + f_equal. apply mapM_ext_map.
      eapply Forall_impl; [exact Hin|]. intros v Hv. now apply IH.
Qed.

Lemma dict_get_rename (f : val -> val) (k : string) (d : list (string * val)) :
  dict_get k (map (fun kv : string * val => (kv.1, f kv.2)) d)
  = f <$> dict_get k d.
Proof.
  induction d as [|[k' v] d IH]; [reflexivity|]. simpl.
  destruct (String.eqb k' k); [reflexivity | exact IH].
Qed.

Lemma dict_get_set_eq (k : string) (v : val) (d : list (string * val)) :
  dict_get k (dict_set k v d) = Some v.
Proof.
  induction d as [|[k' v'] d IH]; simpl.
  - now rewrite String.eqb_refl.
  - destruct (String.eqb k' k) eqn:E; simpl.
    + now rewrite String.eqb_refl.
    + now rewrite E.
Qed.

Lemma dict_set_children (P : val -> Prop) (k : string) (v : val)
    (d : list (string * val)) :
  Forall P (map snd d) -> P v -> Forall P (map snd (dict_set k v d)).
Proof.
  intros Hd Hv. induction d as [|[k' v'] d IH]; simpl.
  - now repeat constructor.
  - inversion Hd; subst. destruct (String.eqb k' k); simpl.
    + now constructor.
    + constructor; auto.
Qed.

Lemma dict_get_In (k : string) (v : val) (d : list (string * val)) :
  dict_get k d = Some v -> In v (map snd d).
Proof.
  induction d as [|[k' v'] d IH]; [discriminate|]. simpl.
  destruct (String.eqb k' k).
  - intros [= ->]. now left.
  - intros H. right. now apply IH.
Qed.

Lemma getitem_dict (h : heap) (l : loc) (d : list (string * val)) (k : string) :
  h !! l = Some (ODict d) -> getitem h (VRef l) k = dict_get k d.
Proof. intros H. unfold getitem. now rewrite H. Qed.

Lemma getitem_is_dict (h : heap) (l : loc) (k : string) (v : val) :
  getitem h (VRef l) k = Some v -> exists d, h !! l = Some (ODict d).
Proof.
  unfold getitem. destruct (h !! l) as [[d|items]|]; try discriminate. eauto.
Qed.

Lemma get_default_dict (h : heap) (l : loc) (d : list (string * val))
    (k : string) (e : val) :
  h !! l = Some (ODict d) ->
  get_default h (VRef l) k e
  = Some (match dict_get k d with Some v => v | None => e end).
Proof. intros H. unfold get_default. now rewrite H. Qed.

(** The first statements of [AttachRuleInfo.publish] and
    [AttachFullRecord.publish]: the copy of the publication, with the
    copy of its attachment list, or an empty list, under
    ['slack.attachments']. *)
Lemma prepare_spec (h : heap) (publication : val) (xs : list val) :
  wf_heap h -> attachments_of h publication = Some xs ->
  exists h1 m np la h3,
    deepcopy h publication = Some (h1, VRef np) /\
    copying h (fun _ => False) h1 m /\
    Forall (in_memo m) xs /\
    get_default (h1 ++ [OList []]) (VRef np) "slack.attachments"
      (VRef (length h1)) = Some (VRef la) /\
    setitem (h1 ++ [OList []]) (VRef np) "slack.attachments" (VRef la)
      = Some h3 /\
    attaching h np la h3 (map (rename m) xs).
Proof.
  intros Hwf Hatt. unfold attachments_of in Hatt.
  destruct publication as [| | | | |pl]; try discriminate.
  destruct (h !! pl) as [[d|?]|] eqn:Hpl; try discriminate.
  destruct (deepcopy_spec h (VRef pl) Hwf) as (h1 & m & Hdc & Hcp & [np Hnp]).
  { simpl. eapply lookup_lt_Some; eauto. }
  simpl in Hdc. rewrite Hnp in Hdc.
  destruct (cp_done _ _ _ _ Hcp _ _ Hnp (fun H => H)) as (o & Ho & Hnp1 & Hin).
  assert (o = ODict d) as -> by congruence. simpl in Hnp1, Hin.
  set (d' := map (fun kv : string * val => (kv.1, rename m kv.2)) d) in *.
  pose proof (cp_range _ _ _ _ Hcp _ _ Hnp) as Hr.
  pose proof (lookup_app_l_Some _ [OList []] _ _ Hnp1) as Hnp2.
  assert (Forall (fresh_val (length h)) (map snd d')) as Hd'.
  { eapply Forall_impl; [apply (cp_fresh _ _ _ _ Hcp np (ODict d')); [lia|done]|].
    intros v. apply fresh_in_val. }
  assert (forall la, length h <= la ->
            closed_above (length h)
              (<[np := ODict (dict_set "slack.attachments" (VRef la) d')]>
                 (h1 ++ [OList []]))) as Hclosed.
  { intros la Hla. apply closed_above_insert.
    - apply closed_above_app; [eapply copying_closed_above; eauto|].
      repeat constructor.
    - simpl. now apply dict_set_children. }
  assert (forall la,
            h `prefix_of` <[np := ODict (dict_set "slack.attachments" (VRef la) d')]>
                            (h1 ++ [OList []])) as Hprefix.
  { intros la. apply prefix_insert; [|lia].
    apply prefix_app_r, Hcp. }
  assert (forall la,
            getitem (<[np := ODict (dict_set "slack.attachments" (VRef la) d')]>
                       (h1 ++ [OList []])) (VRef np) "slack.attachments"
            = Some (VRef la)) as Hget.
  { intros la. erewrite getitem_dict; [apply dict_get_set_eq|].
    apply list_lookup_insert_eq. rewrite length_app. simpl. lia. }
  destruct (dict_get "slack.attachments" d) as [v|] eqn:Hv.
  - destruct v as [| | | | |la0]; try discriminate.
    destruct (h !! la0) as [[?|xs0]|] eqn:Hla0; try discriminate.
    injection Hatt as ->.
    assert (in_memo m (VRef la0)) as [la Hla].
    { rewrite Forall_forall in Hin. apply Hin, list_elem_of_In.
      eapply dict_get_In; eauto. }
    destruct (cp_done _ _ _ _ Hcp _ _ Hla (fun H => H))
      as (o & Ho' & Hla1 & Hxs).
    assert (o = OList xs) as -> by congruence. simpl in Hla1, Hxs.
    pose proof (cp_range _ _ _ _ Hcp _ _ Hla) as Hrla.
    exists h1, m, np, la,
      (<[np := ODict (dict_set "slack.attachments" (VRef la) d')]>
         (h1 ++ [OList []])).
    split_and!; auto.
    + erewrite get_default_dict by eassumption.
      unfold d'. rewrite dict_get_rename, Hv. simpl. now rewrite Hla.
    + now apply setitem_dict.
    + split; auto; try lia.
      * rewrite list_lookup_insert_ne.
        -- now apply lookup_app_l_Some.
        -- intros ->. rewrite Hnp1 in Hla1. discriminate.
      * apply Hclosed. lia.
  - injection Hatt as <-.
    exists h1, m, np, (length h1),
      (<[np := ODict (dict_set "slack.attachments" (VRef (length h1)) d')]>
         (h1 ++ [OList []])).
    split_and!; auto.
    + erewrite get_default_dict by eassumption.
      unfold d'. now rewrite dict_get_rename, Hv.
    + now apply setitem_dict.
    + split; auto; try lia.
      * rewrite list_lookup_insert_ne by lia. now apply list_lookup_middle.
      * apply Hclosed. lia.
Qed.

Lemma extends_keeping_refl (la : loc) (h : heap) : extends_keeping la h h.
Proof. intros l o _ H. exact H. Qed.

Lemma extends_keeping_trans (la : loc) (h1 h2 h3 : heap) :
  extends_keeping la h1 h2 -> extends_keeping la h2 h3 ->
  extends_keeping la h1 h3.
Proof. intros H12 H23 l o Hl Ho. apply H23, H12; assumption. Qed.

Lemma stored_keeping (la : loc) (h h' : heap) (a : val) (t : tree) :
  stored la h a t -> extends_keeping la h h' -> stored la h' a t.
Proof.
  intros Hst Hk hf Hf. apply Hst. eapply extends_keeping_trans; eauto.
Qed.

Lemma stored_shows (la : loc) (h : heap) (a : val) (t : tree) :
  stored la h a t -> shows h a t.
Proof. intros Hst. apply Hst, extends_keeping_refl. Qed.

(** Building a display without references and appending it to the
    attachment list. *)
Lemma attach_tree (h0 : heap) (np la : loc) (h : heap) (items : list val)
    (t : tree) :
  attaching h0 np la h items -> atomic t = true ->
  exists h1 a h',
    build t h = (h1, a) /\
    append h1 (VRef la) a = Some h' /\
    attaching h0 np la h' (items ++ [a]) /\
    extends_keeping la h h' /\
    stored la h' a t.
Proof.
  intros Hat Ht.
  destruct (build_atomic t Ht h) as (ext & a & Hb & Hdepth & Ha & Hext & Hsnap).
  pose proof (at_list _ _ _ _ _ Hat) as Hla.
  pose proof (lookup_lt_Some _ _ _ Hla) as Hlt.
  pose proof (prefix_length _ _ (at_prefix _ _ _ _ _ Hat)) as Hlen.
  pose proof (at_la _ _ _ _ _ Hat) as Hla0.
  destruct (getitem_is_dict _ _ _ _ (at_get _ _ _ _ _ Hat)) as [d Hd].
  assert (np <> la) as Hne by (intros ->; congruence).
  exists (h ++ ext), a, (<[la := OList (items ++ [a])]> (h ++ ext)).
  split_and!.
  - exact Hb.
  - apply append_list. now apply lookup_app_l_Some.
  - split.
    + apply prefix_insert; [|exact Hla0]. apply prefix_app_r, Hat.
    + apply Hat.
    + exact Hla0.
    + erewrite getitem_dict.
      * erewrite <- getitem_dict; [apply Hat | exact Hd].
      * rewrite list_lookup_insert_ne by auto. now apply lookup_app_l_Some.
    + apply list_lookup_insert_eq. rewrite length_app. lia.
    + apply closed_above_insert.
      * apply closed_above_app; [apply Hat|].
        eapply Forall_impl; [exact Hext|]. intros o Ho.
        eapply Forall_impl; [exact Ho|]. intros v Hv.
        apply fresh_in_val in Hv. destruct v; simpl in *; auto. lia.
      * simpl. apply Forall_app. split.
        -- apply (at_closed _ _ _ _ _ Hat la (OList items)); assumption.
        -- repeat constructor. apply fresh_in_val in Ha.
           destruct a; simpl in *; auto. lia.
  - intros l o Hl Ho. rewrite list_lookup_insert_ne by auto.
    now apply lookup_app_l_Some.
  - intros hf Hf. unfold shows.
    assert (forall l o, length h <= l -> (h ++ ext) !! l = Some o ->
                        hf !! l = Some o) as Hagree.
    { intros l o Hl Ho. apply Hf; [lia|].
      rewrite list_lookup_insert_ne by lia. exact Ho. }
    apply Hsnap; [exact Hagree|].
    destruct ext as [|o ext'] using rev_ind; [simpl in Hdepth; lia|].
    rewrite length_app in Hdepth. simpl in Hdepth.
    assert (hf !! (length h + length ext') = Some o) as Hlast.
    { apply Hagree; [lia|]. rewrite app_assoc, <- length_app.
      apply list_lookup_middle. reflexivity. }
    apply lookup_lt_Some in Hlast. lia.
Qed.

Lemma make_attachment_atomic (alert : Alert) (doc : string) (f l : bool) :
  atomic (AttachFullRecord.make_attachment alert doc f l) = true.
Proof. destruct f, l; reflexivity. Qed.

Lemma rule_fields_atomic (p : presentation) : atomic (rule_fields p) = true.
Proof.
  unfold rule_fields. simpl. induction (map fst (p_fields p)); simpl; auto.
Qed.

Lemma attach_unfold (alert : Alert) (np target a : val) (doc : string)
    (f l : bool) (h h1 : heap) :
  getitem h np "slack.attachments" = Some target ->
  build (AttachFullRecord.make_attachment alert doc f l) h = (h1, a) ->
  AttachFullRecord.attach alert np doc f l h = append h1 target a.
Proof.
  intros Hget Hb. unfold AttachFullRecord.attach. rewrite Hget.
  cbn [mbind option_bind]. now rewrite Hb.
Qed.

Lemma emit_all_cons {St : Type}
    (emit : string -> bool -> bool -> St -> option St) (c : chunk)
    (cs : list chunk) (s s' : St) :
  emit (document c) (is_first c) (is_last c) s = Some s' ->
  emit_all emit (c :: cs) s = emit_all emit cs s'.
Proof. intros H. simpl. now rewrite H. Qed.

(** The calls of the loop of [AttachFullRecord.publish], one attachment
    for each chunk. *)
Lemma emit_all_attach (alert : Alert) (h0 : heap) (np la : loc)
    (cs : list chunk) :
  forall (h : heap) (items : list val),
  attaching h0 np la h items ->
  exists h' news,
    emit_all (AttachFullRecord.attach alert (VRef np)) cs h = Some h' /\
    attaching h0 np la h' (items ++ news) /\
    extends_keeping la h h' /\
    Forall2 (fun a c =>
               stored la h' a
                 (AttachFullRecord.make_attachment alert
                    (document c) (is_first c) (is_last c))) news cs.
Proof.
  induction cs as [|c cs IH]; intros h items Hat.
  - exists h, []. rewrite app_nil_r. split_and!; auto.
    apply extends_keeping_refl.
  - destruct (attach_tree _ _ _ _ _ _ Hat
                (make_attachment_atomic alert (document c) (is_first c)
                   (is_last c)))
      as (h1 & a & h2 & Hb & Happ & Hat2 & Hk & Hst).
    destruct (IH h2 (items ++ [a]) Hat2) as (h' & news & Hrun & Hat' & Hk' & Hall).
    exists h', (a :: news). split_and!.
    + erewrite emit_all_cons; [exact Hrun|].
      erewrite attach_unfold; [exact Happ | apply Hat | exact Hb].
    + now rewrite <- app_assoc in Hat'.
    + eapply extends_keeping_trans; eauto.
    + constructor; [|exact Hall]. eapply stored_keeping; eauto.
Qed.
End StoreFacts.

(** ** The publishers *)

Section PublisherFacts.
Context `{Externals}.
Local Open Scope nat_scope.

Lemma build_TVal (v : val) (h : heap) : build (TVal v) h = (h, v).
Proof. reflexivity. Qed.

Lemma summary_attachment_atomic (self : Summary.cls) (alert : Alert) :
  atomic (Summary.attachment self alert) = true.
Proof.
  unfold Summary.attachment. cbn [atomic forallb snd].
  rewrite rule_fields_atomic. now destruct (created alert).
Qed.

Lemma rule_info_attachment_atomic (alert : Alert) :
  atomic (AttachRuleInfo.attachment alert) = true.
Proof.
  unfold AttachRuleInfo.attachment. cbn [atomic forallb snd].
  now rewrite rule_fields_atomic.
Qed.

Lemma publication_attachment_atomic (block : string) :
  atomic (AttachPublication.attachment block) = true.
Proof. reflexivity. Qed.

Lemma same_content_copies (h h1 : heap) (m : memo) (xs : list val) :
  copying h (fun _ => False) h1 m -> Forall (in_memo m) xs ->
  Forall2 (fun x x' => same_content h x h1 x') xs (map (rename m) xs).
Proof.
  intros Hcp. induction 1 as [|x xs Hx _ IH]; simpl; constructor; auto.
  now apply copy_same_content.
Qed.

Lemma attaching_independent (h0 : heap) (np la : loc) (h : heap)
    (items : list val) :
  attaching h0 np la h items -> independent (length h0) h (VRef np).
Proof.
  intros Hat. apply closed_above_independent; [apply Hat|].
  simpl. apply Hat.
Qed.

(** [Summary.publish]: a new dictionary of three keys, in a store that
    extends the one it was given. *)
Lemma summary_publish_spec (self : Summary.cls) (alert : Alert)
    (publication : val) (h : heap) :
  exists h' np la a,
    Summary.publish self alert publication h = (h', VRef np) /\
    h `prefix_of` h' /\ length h <= la /\ length h <= np /\
    h' !! np = Some (ODict [("slack.text", VStr "Rule triggered");
                            ("slack.attachments", VRef la);
                            ("_previous_publication", publication)]) /\
    h' !! la = Some (OList [a]) /\
    shows h' a (Summary.attachment self alert).
Proof.
  destruct (build_atomic _ (summary_attachment_atomic self alert) h)
    as (ext & a & Hb & Hdepth & Ha & Hext & Hsnap).
  set (d := [("slack.text", VStr "Rule triggered");
             ("slack.attachments", VRef (length (h ++ ext)));
             ("_previous_publication", publication)]).
  exists ((h ++ ext) ++ [OList [a]] ++ [ODict d]),
    (S (length (h ++ ext))), (length (h ++ ext)), a.
  split_and!.
  - unfold Summary.publish. rewrite build_TDict.
    rewrite build_entries_cons, build_TVal. cbv beta iota.
    rewrite build_entries_cons, build_TList, build_items_cons, Hb.
    cbv beta iota. cbn [build_items]. cbv beta iota. unfold alloc.
    rewrite build_entries_cons, build_TVal. cbv beta iota.
    cbn [build_entries]. cbv beta iota.
    unfold d. rewrite !length_app. simpl length. rewrite <- !app_assoc.
    replace (length h + length ext + 1) with (S (length h + length ext))
      by lia.
    reflexivity.
  - rewrite <- app_assoc. now apply prefix_app_r.
  - rewrite length_app. lia.
  - rewrite length_app. lia.
  - rewrite lookup_app_r by lia.
    replace (S (length (h ++ ext)) - length (h ++ ext)) with 1 by lia.
    reflexivity.
  - rewrite lookup_app_r by lia. rewrite Nat.sub_diag. reflexivity.
  - unfold shows. apply Hsnap.
    + intros l o Hl Ho. now apply lookup_app_l_Some.
    + rewrite !length_app. lia.
Qed.


(** [AttachFullRecord.publish] returns a copy of the publication whose
    attachment list holds the copies of the attachments, then one
    attachment for each chunk of the record. *)
Lemma full_record_publish_spec (self : AttachFullRecord.cls) (alert : Alert)
    (h : heap) (publication : val) (xs : list val) (cs : list chunk) :
  wf_heap h -> attachments_of h publication = Some xs ->
  chunks_of_lines (AttachFullRecord.character_limit self)
    (AttachFullRecord.record_document_lines alert) = Some cs ->
  exists h1 np la h' olds news,
    deepcopy h publication = Some (h1, VRef np) /\
    Forall2 (fun x x' => same_content h x h1 x') xs olds /\
    AttachFullRecord.publish self alert publication h = Some (h', VRef np) /\
    attaching h np la h' (olds ++ news) /\
    Forall2 (fun a c =>
               shows h' a
                 (AttachFullRecord.make_attachment alert
                    (document c) (is_first c) (is_last c))) news cs.
Proof.
  intros Hwf Hxs Hcs.
  destruct (prepare_spec h publication xs Hwf Hxs)
    as (h1 & m & np & la & h3 & Hdc & Hcp & Hin & Hget & Hset & Hat).
  destruct (emit_all_attach alert h np la cs h3 _ Hat)
    as (h' & news & Hrun & Hat' & _ & Hall).
  exists h1, np, la, h', (map (rename m) xs), news. split_and!; auto.
  - now apply same_content_copies.
  - unfold AttachFullRecord.publish. rewrite Hdc.
    cbn [mbind option_bind]. unfold alloc. cbv beta iota.
    rewrite Hget. cbn [mbind option_bind]. rewrite Hset.
    cbn [mbind option_bind]. rewrite (chunker_emits _ _ _ _ _ Hcs), Hrun.
    reflexivity.
  - eapply Forall2_impl; [exact Hall|]. intros a c Hst.
    now apply stored_shows with la.
Qed.

Lemma contains_dict (h : heap) (l : loc) (d : list (string * val)) (k : string) :
  h !! l = Some (ODict d) ->
  contains h k (VRef l)
  = Some (match dict_get k d with Some _ => true | None => false end).
Proof. intros Hl. unfold contains. now rewrite Hl. Qed.

(** [AttachPublication.publish] without one of the two keys. *)
Lemma attach_publication_noop (alert : Alert) (h : heap) (p : loc)
    (d : list (string * val)) :
  h !! p = Some (ODict d) ->
  dict_get "_previous_publication" d = None \/
  dict_get "slack.attachments" d = None ->
  AttachPublication.publish alert (VRef p) h = Some (h, VRef p).
Proof.
  intros Hp Hmiss. unfold AttachPublication.publish.
  rewrite !(contains_dict _ _ _ _ Hp).
  destruct (dict_get "_previous_publication" d) as [prev|]; [|reflexivity].
  destruct Hmiss as [Hmiss|Hmiss]; [discriminate|].
  rewrite Hmiss. reflexivity.
Qed.

(** [AttachPublication.publish] with both keys, up to the call of
    [json.dumps]. *)
Lemma attach_publication_unfold (alert : Alert) (h h1 : heap) (p : loc)
    (d : list (string * val)) (prev v np : val) :
  h !! p = Some (ODict d) ->
  dict_get "_previous_publication" d = Some prev ->
  dict_get "slack.attachments" d = Some v ->
  deepcopy h (VRef p) = Some (h1, np) -> h `prefix_of` h1 ->
  AttachPublication.publish alert (VRef p) h
  = dumped ← snapshot (length h1) h1 prev;
    target ← getitem h1 np "slack.attachments";
    let '(h2, a) :=
      build (AttachPublication.attachment
               ("```" +:+ nl +:+ json_dumps dumped +:+ nl +:+ "```")) h1 in
    h3 ← append h2 target a;
    Some (h3, np).
Proof.
  intros Hp Hprev Hv Hdc Hpre. unfold AttachPublication.publish.
  rewrite !(contains_dict _ _ _ _ Hp), Hprev, Hv.
  cbn [mbind option_bind negb]. rewrite Hdc. cbn [mbind option_bind].
  rewrite (getitem_dict h1 p d) by (eapply prefix_lookup_Some; eauto).
  rewrite Hprev. reflexivity.
Qed.

(** The copy of a publication that holds an attachment list. *)
Lemma copied_attaching (h : heap) (p la0 : loc) (d : list (string * val))
    (xs : list val) :
  wf_heap h -> h !! p = Some (ODict d) ->
  dict_get "slack.attachments" d = Some (VRef la0) ->
  h !! la0 = Some (OList xs) ->
  exists h1 m np la,
    deepcopy h (VRef p) = Some (h1, VRef np) /\
    copying h (fun _ => False) h1 m /\ Forall (in_memo m) xs /\
    attaching h np la h1 (map (rename m) xs).
Proof.
  intros Hwf Hp Hv Hla0.
  destruct (deepcopy_spec h (VRef p) Hwf) as (h1 & m & Hdc & Hcp & [np Hnp]).
  { simpl. eapply lookup_lt_Some; eauto. }
  simpl in Hdc. rewrite Hnp in Hdc.
  destruct (cp_done _ _ _ _ Hcp _ _ Hnp (fun H => H)) as (o & Ho & Hnp1 & Hin).
  assert (o = ODict d) as -> by congruence. simpl in Hnp1, Hin.
  assert (in_memo m (VRef la0)) as [la Hla].
  { rewrite Forall_forall in Hin. apply Hin, list_elem_of_In.
    eapply dict_get_In; eauto. }
  destruct (cp_done _ _ _ _ Hcp _ _ Hla (fun H => H)) as (o & Ho' & Hla1 & Hxs).
  assert (o = OList xs) as -> by congruence. simpl in Hla1, Hxs.
  pose proof (cp_range _ _ _ _ Hcp _ _ Hnp) as Hr.
  pose proof (cp_range _ _ _ _ Hcp _ _ Hla) as Hrla.
  exists h1, m, np, la. split_and!; auto.
  split; try lia; auto.
  - apply Hcp.
  - erewrite getitem_dict by eassumption.
    rewrite dict_get_rename, Hv. simpl. now rewrite Hla.
  - eapply copying_closed_above; eauto.
Qed.

End PublisherFacts.

(** ** What the publishers append *)

Section AppendFacts.
Context `{Externals}.
Local Open Scope nat_scope.


Lemma attaching_attachments_of (h0 : heap) (np la : loc) (h : heap)
    (items : list val) :
  attaching h0 np la h items -> attachments_of h (VRef np) = Some items.
Proof.
  intros Hat. pose proof (at_get _ _ _ _ _ Hat) as Hget.
  unfold getitem in Hget. unfold attachments_of.
  destruct (h !! np) as [[d|?]|]; try discriminate.
  rewrite Hget, (at_list _ _ _ _ _ Hat). reflexivity.
Qed.

Lemma appends_intro (h h1 h' : heap) (publication r1 : val) (np la : loc)
    (xs olds news : list val) (trees : list tree) :
  attachments_of h publication = Some xs ->
  deepcopy h publication = Some (h1, r1) ->
  Forall2 (fun x x' => same_content h x h1 x') xs olds ->
  attaching h np la h' (olds ++ news) ->
  Forall2 (shows h') news trees ->
  appends h publication h' (VRef np) trees.
Proof.
  intros Hxs Hdc Holds Hat Hnews.
  exists xs, olds, news, h1, r1. split_and!; auto.
  - eapply attaching_attachments_of; eauto.
  - apply Hat.
  - eapply attaching_independent; eauto.
Qed.


Lemma full_record_publish_appends (self : AttachFullRecord.cls)
    (alert : Alert) (h : heap) (publication : val) (xs : list val)
    (cs : list chunk) :
  wf_heap h -> attachments_of h publication = Some xs ->
  chunks_of_lines (AttachFullRecord.character_limit self)
    (AttachFullRecord.record_document_lines alert) = Some cs ->
  exists h' r,
    AttachFullRecord.publish self alert publication h = Some (h', r) /\
    appends h publication h' r
      (map (fun c => AttachFullRecord.make_attachment alert
                       (document c) (is_first c) (is_last c)) cs).
Proof.
  intros Hwf Hxs Hcs.
  destruct (full_record_publish_spec self alert h publication xs cs Hwf Hxs Hcs)
    as (h1 & np & la & h' & olds & news & Hdc & Holds & Hrun & Hat & Hshow).
  exists h', (VRef np). split; [exact Hrun|].
  eapply appends_intro; eauto.
  apply Forall2_fmap_r. exact Hshow.
Qed.


End AppendFacts.

(** ** The chunks of a document

    The chunks are those the recorder lists; by [chunker_emits] and
    [full_record_publish_appends] they are, in order, the arguments of
    the calls of [make_attachment] whose results
    [AttachFullRecord.publish] appends. *)

Lemma render_concat (gs : list (list string)) :
  foldr String.append EmptyString (map render gs) = render (concat gs).
Proof.
  induction gs as [|g gs IH]; [reflexivity|].
  simpl. now rewrite IH, render_app.
Qed.

Lemma render_join (g : list string) :
  g <> [] -> render g = nl +:+ join_nl g.
Proof.
  destruct g as [|l g]; [congruence|]. intros _.
  simpl render. now rewrite append_render_join.
Qed.

Lemma groups_nonempty (B : Z) (gs : list (list string)) :
  Forall (group_ok B) gs -> Forall (fun g => g <> []) gs.
Proof. intros Hall. eapply Forall_impl; [exact Hall|]. now intros g [Hg _]. Qed.

Lemma concat_pieces (P : string -> Prop) (gs : list (list string)) :
  Forall P (concat gs) -> Forall (Forall P) gs.
Proof.
  induction gs as [|g gs IH]; intros Hall; [constructor|].
  simpl in Hall. apply Forall_app in Hall as [Hg Hgs]. constructor; auto.
Qed.

(** C1. For every document and every budget, the bodies of the chunks the
    loop of [AttachFullRecord.publish] produces, concatenated, are the
    document behind one leading newline; stripped of their leading
    separator and joined with newlines again they are the document; and
    the lines of the chunks, in order, are the lines of the document: no
    line is reordered, dropped or cut. *)
Theorem chunker_reconstructs_document (B : Z) (D : string) :
  exists cs,
    chunks_of_document B D = Some cs /\
    foldr String.append EmptyString (map document cs) = nl +:+ D /\
    join_nl (map (fun c => strip_separator (document c)) cs) = D /\
    concat (map chunk_lines cs) = split_nl D.
Proof.
  destruct (chunks_of_lines_groups B (split_nl D))
    as (gs & Hcs & Hcat & Hall & _).
  pose proof (groups_nonempty B gs Hall) as Hne.
  exists (mark gs true). split; [exact Hcs|].
  assert (map (fun c => strip_separator (document c)) (mark gs true)
          = map join_nl gs) as Hstrip.
  { rewrite <- (map_map document strip_separator), mark_documents, map_map.
    apply map_ext_in. intros g Hg. apply strip_render.
    rewrite List.Forall_forall in Hne. now apply Hne. }
  split_and!.
  - rewrite mark_documents, render_concat, Hcat.
    rewrite render_join by apply split_nl_nonempty.
    now rewrite join_split_nl.
  - rewrite Hstrip, join_nl_concat by assumption.
    rewrite Hcat. apply join_split_nl.
  - unfold chunk_lines.
    rewrite <- (map_map (fun c => strip_separator (document c)) split_nl), Hstrip.
    rewrite map_map, <- Hcat. f_equal.
    rewrite <- (map_id gs) at 2. apply map_ext_in. intros g Hg.
    apply split_join_nl.
    + rewrite List.Forall_forall in Hne. now apply Hne.
    + pose proof (split_nl_pieces D) as Hp. rewrite <- Hcat in Hp.
      apply concat_pieces in Hp. rewrite List.Forall_forall in Hp.
      now apply Hp.
Qed.

(** C2, as the code has it: under budget 10 the document of the two lines
    [abcd] and [efghi] is one chunk of 11 characters, though neither
    line is longer than the budget. *)
Lemma chunk_body_over_budget :
  exists c,
    chunks_of_document 10 ("abcd" +:+ nl +:+ "efghi") = Some [c] /\
    ~ (len (document c) <= 10) /\
    Forall (fun line => len line <= 10) (split_nl ("abcd" +:+ nl +:+ "efghi")).
Proof.
  exists (Chunk (nl +:+ "abcd" +:+ nl +:+ "efghi") true true).
  split; [reflexivity|]. split.
  - vm_compute. intros Hle. apply Hle. reflexivity.
  - repeat constructor; vm_compute; discriminate.
Qed.

(** C2, amended. For every document and every budget [B], the body of
    every chunk is at most [B + 1] characters long, the separator in
    front of its first line being the one character the loop does not
    count, unless the chunk is a single line longer than [B]; and a line
    longer than [B] is the only line of its chunk, whole. *)
Theorem chunk_bodies_near_budget (B : Z) (D : string) :
  exists cs,
    chunks_of_document B D = Some cs /\
    Forall (fun c =>
              (len (document c) <= B + 1 \/
               exists line, In line (split_nl D) /\
                            document c = nl +:+ line /\ B < len line) /\
              (forall line, In line (chunk_lines c) -> B < len line ->
                            document c = nl +:+ line)) cs.
Proof.
  destruct (chunks_of_lines_groups B (split_nl D))
    as (gs & Hcs & Hcat & Hall & _).
  exists (mark gs true). split; [exact Hcs|].
  pose proof (split_nl_pieces D) as Hp. rewrite <- Hcat in Hp.
  apply concat_pieces in Hp.
  rewrite List.Forall_forall in *. intros c Hc.
  apply (in_map document) in Hc. rewrite mark_documents in Hc.
  apply in_map_iff in Hc as (g & Hbody & Hg).
  unfold chunk_lines. rewrite <- Hbody. clear Hbody c.
  destruct (Hall g Hg) as (Hne & Hsize & Halone). split.
  - destruct Hsize as [Hle|(line & -> & Hlong)]; [now left|]. right.
    exists line. rewrite render_single. split_and!; auto.
    rewrite <- Hcat. apply in_concat. exists [line]. split; [exact Hg|now left].
  - rewrite strip_render by assumption.
    rewrite split_join_nl by (try assumption; now apply Hp).
    intros line Hin Hlong. rewrite (Halone line Hin Hlong).
    apply render_single.
Qed.

(** C3. For every document and every budget the loop emits at least one
    chunk; exactly one chunk is marked first and exactly one is marked
    last; the chunk at position [i] is marked first if and only if it is
    the head and last if and only if it is the end, so a single chunk
    carries both marks and a middle chunk neither. *)
Theorem chunker_marks_first_and_last (B : Z) (D : string) :
  exists cs,
    chunks_of_document B D = Some cs /\
    cs <> [] /\
    length (List.filter is_first cs) = 1%nat /\
    length (List.filter is_last cs) = 1%nat /\
    forall (i : nat) (c : chunk), cs !! i = Some c ->
      is_first c = (i =? 0)%nat /\ is_last c = (S i =? length cs)%nat.
Proof.
  destruct (chunks_of_lines_groups B (split_nl D))
    as (gs & Hcs & Hcat & Hall & Hne).
  specialize (Hne (split_nl_nonempty D)).
  exists (mark gs true). split; [exact Hcs|]. split_and!.
  - intros Hnil. apply (f_equal length) in Hnil.
    rewrite mark_length in Hnil. destruct gs; [congruence | discriminate].
  - now apply mark_first_count.
  - now apply mark_last_count.
  - intros i c Hc. rewrite mark_length.
    apply mark_lookup in Hc as [Hf Hl]. now rewrite Hf, Hl.
Qed.

(** C5. Under budget 10 the lines [short] and
    [a line that is too long for one chunk alone] give two chunks: the
    first is the newline and [short], marked first and not last; the
    second is the long line alone behind its newline, longer than the
    budget, marked last and not first. *)
Theorem chunker_example_budget_10 :
  chunks_of_lines 10 ["short"; "a line that is too long for one chunk alone"]
  = Some [Chunk (nl +:+ "short") true false;
          Chunk (nl +:+ "a line that is too long for one chunk alone")
            false true] /\
  10 < len (nl +:+ "a line that is too long for one chunk alone").
Proof. split; reflexivity. Qed.

(** ** The publishers and their publications *)

Lemma chunks_exist (B : Z) (lines : list string) :
  exists cs, chunks_of_lines B lines = Some cs.
Proof. destruct (chunks_of_lines_groups B lines) as (gs & Hcs & _). eauto. Qed.

Lemma example_store_wf : wf_heap example_store.
Proof.
  repeat constructor; simpl; try lia. apply not_elem_of_nil.
Qed.

Lemma empty_publication_store_wf : wf_heap empty_publication_store.
Proof. repeat constructor. Qed.

(** C6. For every alert and every publication without the key
    ['_previous_publication'] or without the key ['slack.attachments'],
    [AttachPublication.publish] returns the publication it was given, the
    same object in the same store: nothing is raised, nothing appended. *)
Theorem attach_publication_returns_input `{Externals} (alert : Alert)
    (h : heap) (p : loc) (d : list (string * val)) :
  h !! p = Some (ODict d) ->
  dict_get "_previous_publication" d = None \/
  dict_get "slack.attachments" d = None ->
  AttachPublication.publish alert (VRef p) h = Some (h, VRef p).
Proof. apply attach_publication_noop. Qed.

(** The theorem at the example store, whose publication has no previous
    publication. *)
Lemma attach_publication_returns_input_witness :
  (example_store !! 1%nat = Some (ODict [("slack.attachments", VRef 0%nat)])) /\
  (dict_get "_previous_publication" [("slack.attachments", VRef 0%nat)] = None \/
   dict_get "slack.attachments" [("slack.attachments", VRef 0%nat)] = None) /\
  AttachPublication.publish (H := example_externals) example_alert
    (VRef 1%nat) example_store = Some (example_store, VRef 1%nat).
Proof.
  split; [reflexivity|]. split; [left; reflexivity|].
  apply (attach_publication_returns_input (H := example_externals)
           example_alert example_store 1%nat
           [("slack.attachments", VRef 0%nat)]).
  - reflexivity.
  - left. reflexivity.
Defined.





(** C10, as the code has it: a key of the input publication that is one
    of the three keys of the summary is a key of the result as well. *)
Lemma summary_keeps_its_own_keys :
  let '(h', r) :=
    Summary.publish (H := example_externals) Summary.base example_alert
      (VRef 0%nat) text_publication_store in
  getitem text_publication_store (VRef 0%nat) "slack.text"
  = Some (VStr "earlier text") /\
  getitem h' r "slack.text" = Some (VStr "Rule triggered").
Proof.
  set (res := Summary.publish _ _ _ _). vm_compute in res. subst res.
  cbv beta iota zeta. split; reflexivity.
Qed.

(** C10, amended. For every alert and every publication, the dictionary
    [Summary.publish] returns is new and has exactly the keys
    ['slack.text'], ['slack.attachments'] and ['_previous_publication'].
    The first two hold the text and the one attachment of the summary,
    whatever the input holds under them; the third holds the input
    publication, untouched, so every key of the input survives there; a
    key of the input other than these three is no key of the result. *)
Theorem summary_replaces_publication `{Externals} (self : Summary.cls)
    (alert : Alert) (publication : val) (h : heap) :
  exists h' np d la a,
    Summary.publish self alert publication h = (h', VRef np) /\
    h `prefix_of` h' /\ (length h <= np)%nat /\
    h' !! np = Some (ODict d) /\
    map fst d = ["slack.text"; "slack.attachments"; "_previous_publication"] /\
    dict_get "slack.text" d = Some (VStr "Rule triggered") /\
    dict_get "slack.attachments" d = Some (VRef la) /\
    h' !! la = Some (OList [a]) /\
    shows h' a (Summary.attachment self alert) /\
    dict_get "_previous_publication" d = Some publication /\
    (forall k, ~ In k ["slack.text"; "slack.attachments";
                       "_previous_publication"] ->
               dict_get k d = None).
Proof.
  destruct (summary_publish_spec self alert publication h)
    as (h' & np & la & a & Hrun & Hpre & _ & Hnp & Hd & Hla & Hshow).
  eexists h', np, _, la, a. split_and!; eauto.
  intros k Hk. cbn [dict_get].
  destruct (String.eqb_spec "slack.text" k) as [<-|_];
    [exfalso; apply Hk; simpl; tauto|].
  destruct (String.eqb_spec "slack.attachments" k) as [<-|_];
    [exfalso; apply Hk; simpl; tauto|].
  destruct (String.eqb_spec "_previous_publication" k) as [<-|_];
    [exfalso; apply Hk; simpl; tauto|].
  reflexivity.
Qed.









Lemma lookup_map_Some {A B} (f : A -> B) (l : list A) (i : nat) (y : B) :
  map f l !! i = Some y -> exists x, l !! i = Some x /\ y = f x.
Proof.
  revert i. induction l as [|x l IH]; intros i Hy; [discriminate|].
  destruct i as [|i]; simpl in Hy.
  - injection Hy as <-. eauto.
  - apply IH in Hy as (x' & Hx' & ->). eauto.
Qed.

(** C9. For every alert and every publication that holds an attachment
    list or none, [AttachFullRecord.publish] appends at least one
    attachment; the source entity as author and the title [Record] are
    on the first of them and on no other; the footer and the field with
    the alert id are on the last of them and on no other; every other
    author, title and footer is the empty string and every other list of
    fields is empty. *)
Theorem full_record_metadata_placement `{Externals}
    (self : AttachFullRecord.cls) (alert : Alert) (h : heap)
    (publication : val) (xs : list val) :
  wf_heap h -> attachments_of h publication = Some xs ->
  exists h' r trees,
    AttachFullRecord.publish self alert publication h = Some (h', r) /\
    appends h publication h' r trees /\
    trees <> [] /\
    forall (i : nat) (t : tree), trees !! i = Some t ->
      tree_get "author" t
      = Some (TStr (if (i =? 0)%nat then source_entity alert
                    else EmptyString)) /\
      tree_get "title" t
      = Some (TStr (if (i =? 0)%nat then "Record" else EmptyString)) /\
      tree_get "footer" t
      = Some (TStr (if (S i =? length trees)%nat
                    then "via <" +:+
                         AttachFullRecord._source_service_url
                           (source_service alert) +:+
                         "|" +:+ source_service alert +:+ ">"
                    else EmptyString)) /\
      tree_get "fields" t
      = Some (if (S i =? length trees)%nat
              then TList [TDict [("title", TStr "Alert Id");
                                 ("value", TStr (alert_id alert))]]
              else TList []).
Proof.
  intros Hwf Hxs.
  destruct (chunks_of_lines_groups (AttachFullRecord.character_limit self)
              (AttachFullRecord.record_document_lines alert))
    as (gs & Hcs & _ & _ & Hne).
  specialize (Hne (split_nl_nonempty _)).
  destruct (full_record_publish_appends self alert h publication xs _
              Hwf Hxs Hcs) as (h' & r & Hrun & Happ).
  eexists h', r, _. split_and!; [exact Hrun | exact Happ | |].
  - intros Hnil. apply (f_equal length) in Hnil.
    rewrite length_map, mark_length in Hnil.
    destruct gs; [congruence | discriminate].
  - intros i t Ht. rewrite length_map, mark_length.
    apply lookup_map_Some in Ht as (c & Hc & ->).
    apply mark_lookup in Hc as [Hf Hl]. rewrite andb_true_l in Hf.
    rewrite Hf, Hl.
    destruct (i =? 0)%nat, (S i =? length gs)%nat; split_and!; reflexivity.
Qed.

(** The theorem at the example store and the example alert. *)
Lemma full_record_metadata_placement_witness :
  wf_heap example_store /\
  attachments_of example_store (VRef 1%nat) = Some [] /\
  exists h' r trees,
    AttachFullRecord.publish (H := example_externals) AttachFullRecord.base
      example_alert (VRef 1%nat) example_store = Some (h', r) /\
    appends example_store (VRef 1%nat) h' r trees /\
    trees <> [] /\
    forall (i : nat) (t : tree), trees !! i = Some t ->
      tree_get "author" t
      = Some (TStr (if (i =? 0)%nat then source_entity example_alert
                    else EmptyString)) /\
      tree_get "title" t
      = Some (TStr (if (i =? 0)%nat then "Record" else EmptyString)) /\
      tree_get "footer" t
      = Some (TStr (if (S i =? length trees)%nat
                    then "via <" +:+
                         AttachFullRecord._source_service_url
                           (source_service example_alert) +:+
                         "|" +:+ source_service example_alert +:+ ">"
                    else EmptyString)) /\
      tree_get "fields" t
      = Some (if (S i =? length trees)%nat
              then TList [TDict [("title", TStr "Alert Id");
                                 ("value", TStr (alert_id example_alert))]]
              else TList []).
Proof.
  split; [exact example_store_wf|]. split; [reflexivity|].
  exact (full_record_metadata_placement (H := example_externals)
           AttachFullRecord.base example_alert example_store (VRef 1%nat) []
           example_store_wf eq_refl).
Defined.

(** C4, as the code has it: the empty document is one empty line and
    gives one chunk, and for the raw record [{}] and the publication [{}]
    [AttachFullRecord.publish] returns a publication with one
    attachment, where the input had none. *)
Lemma empty_record_gives_one_attachment :
  chunks_of_document 3990 EmptyString = Some [Chunk nl true true] /\
  json_dumps (Externals := example_externals) (record empty_record_alert)
  = "{}" /\
  attachments_of empty_publication_store (VRef 0%nat) = Some [] /\
  exists h' r a,
    AttachFullRecord.publish (H := example_externals) AttachFullRecord.base
      empty_record_alert (VRef 0%nat) empty_publication_store = Some (h', r) /\
    attachments_of h' r = Some [a] /\
    shows h' a
      (AttachFullRecord.make_attachment empty_record_alert (nl +:+ "{}")
         true true).
Proof.
  split; [reflexivity|]. split; [reflexivity|]. split; [reflexivity|].
  eexists _, _, _. split; [vm_compute; reflexivity|].
  split; vm_compute; reflexivity.
Qed.

(** C4, amended. An empty list of lines gives zero chunks, but no
    document splits into an empty list of lines: a document always gives
    at least one chunk, and the empty document gives the one chunk of
    its one empty line.  When the raw record of the alert serializes to
    [{}], [AttachFullRecord.publish] appends exactly one attachment to
    those of the publication, the chunk of the line [{}], marked first
    and last. *)
Theorem empty_record_appends_one_attachment `{Externals}
    (self : AttachFullRecord.cls) (alert : Alert) (h : heap)
    (publication : val) (xs : list val) :
  wf_heap h -> attachments_of h publication = Some xs ->
  json_dumps (record alert) = "{}" ->
  (forall B, chunks_of_lines B [] = Some []) /\
  (forall B D, exists c cs, chunks_of_document B D = Some (c :: cs)) /\
  (forall B, chunks_of_document B EmptyString = Some [Chunk nl true true]) /\
  exists h' r,
    AttachFullRecord.publish self alert publication h = Some (h', r) /\
    appends h publication h' r
      [AttachFullRecord.make_attachment alert (nl +:+ "{}") true true].
Proof.
  intros Hwf Hxs Hdump. split_and!.
  - reflexivity.
  - intros B D.
    destruct (chunks_of_lines_groups B (split_nl D)) as (gs & Hcs & _ & _ & Hne).
    specialize (Hne (split_nl_nonempty D)).
    destruct gs as [|g gs]; [congruence|].
    unfold chunks_of_document. rewrite Hcs.
    destruct gs as [|g1 gs]; [simpl; eauto|].
    rewrite mark_cons2. eauto.
  - reflexivity.
  - apply (full_record_publish_appends self alert h publication xs
             [Chunk (nl +:+ "{}") true true] Hwf Hxs).
    unfold AttachFullRecord.record_document_lines. rewrite Hdump.
    reflexivity.
Qed.

(** The theorem at the empty publication and the alert of the empty
    record. *)
Lemma empty_record_appends_one_attachment_witness :
  wf_heap empty_publication_store /\
  attachments_of empty_publication_store (VRef 0%nat) = Some [] /\
  json_dumps (Externals := example_externals) (record empty_record_alert)
  = "{}" /\
  exists h' r,
    AttachFullRecord.publish (H := example_externals) AttachFullRecord.base
      empty_record_alert (VRef 0%nat) empty_publication_store = Some (h', r) /\
    appends empty_publication_store (VRef 0%nat) h' r
      [AttachFullRecord.make_attachment empty_record_alert (nl +:+ "{}")
         true true].
Proof.
  split; [exact empty_publication_store_wf|]. split; [reflexivity|].
  split; [reflexivity|].
  exact (proj2 (proj2 (proj2
    (empty_record_appends_one_attachment (H := example_externals)
       AttachFullRecord.base empty_record_alert empty_publication_store
       (VRef 0%nat) [] empty_publication_store_wf eq_refl eq_refl)))).
Defined.

(** ** The Kinesis streams module *)

Section KinesisFacts.
Local Open Scope nat_scope.
Variable str_other : heap -> val -> string.
Variable default_factory : option (heap -> heap * val).

Lemma getitem_app (h ext : heap) (x : val) (k : string) (v : val) :
  getitem h x k = Some v -> getitem (h ++ ext) x k = Some v.
Proof.
  destruct x as [| | | | |l]; try discriminate. unfold getitem.
  destruct (h !! l) as [o|] eqn:Hl; [|discriminate].
  now rewrite (lookup_app_l_Some _ ext _ _ Hl).
Qed.

Lemma subscript_app (h ext : heap) (path : list string) :
  forall x v, subscript h x path = Some v ->
              subscript (h ++ ext) x path = Some v.
Proof.
  induction path as [|k path IH]; intros x v Hv; [exact Hv|].
  simpl in *. destruct (getitem h x k) as [w|] eqn:Hw; [|discriminate].
  rewrite (getitem_app _ ext _ _ _ Hw). simpl in *. now apply IH.
Qed.

(** A run up to the lookup of ['module'] in the cluster dictionary. *)
Lemma generate_kinesis_streams_unfold (cluster_name : string)
    (cluster_dict config : val)
    (h : heap) (prefix account_id region shards retention : val)
    (km : loc) (kd : list (string * val)) :
  subscript h config ["global"; "account"; "prefix"] = Some prefix ->
  subscript h config ["global"; "account"; "aws_account_id"] = Some account_id ->
  subscript h config ["clusters"; cluster_name; "region"] = Some region ->
  subscript h config
    ["clusters"; cluster_name; "modules"; "kinesis"; "streams"]
  = Some (VRef km) ->
  h !! km = Some (ODict kd) ->
  dict_get "shards" kd = Some shards ->
  dict_get "retention" kd = Some retention ->
  generate_kinesis_streams str_other default_factory cluster_name
    cluster_dict config h
  = '(h2, modules) ←
      defaultdict_getitem default_factory
        (h ++ [OList []; OList [];
               ODict (kinesis_entries str_other h cluster_name prefix
                        account_id region shards retention kd)])
        cluster_dict "module";
    h3 ← setitem h2 modules ("kinesis_" +:+ cluster_name)
           (VRef (S (S (length h))));
    Some (h3, VBool true).
Proof.
  intros Hprefix Haccount Hregion Hkm Hkd Hshards Hretention.
  unfold generate_kinesis_streams.
  rewrite Hprefix, Hkm. cbn [mbind option_bind]. unfold alloc.
  cbv beta iota.
  pose proof (lookup_app_l_Some _ [OList []] _ _ Hkd) as Hkd1.
  rewrite (get_default_dict _ _ _ _ _ Hkd1). cbn [mbind option_bind].
  rewrite (subscript_app _ [OList []] _ _ _ Haccount).
  rewrite (subscript_app _ [OList []] _ _ _ Hregion).
  rewrite (subscript_app _ [OList []] _ _ _ Hprefix).
  cbn [mbind option_bind].
  rewrite !(getitem_dict _ _ _ _ Hkd1), Hshards, Hretention.
  cbn [mbind option_bind].
  rewrite (get_default_dict _ _ _ _ _ Hkd1). cbn [mbind option_bind].
  pose proof (lookup_app_l_Some _ [OList []] _ _ Hkd1) as Hkd2.
  rewrite (get_default_dict _ _ _ _ _ Hkd2). cbn [mbind option_bind].
  unfold kinesis_entries. rewrite !length_app. cbn [length].
  rewrite <- !app_assoc. cbn [app].
  replace (length h + 1 + 1) with (S (S (length h))) by lia.
  replace (length h + 1) with (S (length h)) by lia.
  reflexivity.
Qed.

Lemma generate_kinesis_streams_run (cluster_name : string) (config : val)
    (h : heap) (prefix account_id region shards retention : val)
    (km cd md : loc) (kd cdd mdd : list (string * val)) :
  subscript h config ["global"; "account"; "prefix"] = Some prefix ->
  subscript h config ["global"; "account"; "aws_account_id"] = Some account_id ->
  subscript h config ["clusters"; cluster_name; "region"] = Some region ->
  subscript h config
    ["clusters"; cluster_name; "modules"; "kinesis"; "streams"]
  = Some (VRef km) ->
  h !! km = Some (ODict kd) ->
  dict_get "shards" kd = Some shards ->
  dict_get "retention" kd = Some retention ->
  h !! cd = Some (ODict cdd) ->
  dict_get "module" cdd = Some (VRef md) ->
  h !! md = Some (ODict mdd) ->
  generate_kinesis_streams str_other default_factory cluster_name
    (VRef cd) config h
  = Some (<[md := ODict (dict_set ("kinesis_" +:+ cluster_name)
                           (VRef (S (S (length h)))) mdd)]>
            (h ++ [OList []; OList [];
                   ODict (kinesis_entries str_other h cluster_name prefix
                            account_id region shards retention kd)]),
          VBool true).
Proof.
  intros Hprefix Haccount Hregion Hkm Hkd Hshards Hretention Hcd Hmodule Hmd.
  rewrite (generate_kinesis_streams_unfold cluster_name (VRef cd) config h
             prefix account_id region shards retention km kd) by assumption.
  unfold defaultdict_getitem.
  rewrite (lookup_app_l_Some _ _ _ _ Hcd), Hmodule. cbn [mbind option_bind].
  rewrite (setitem_dict _ _ _ _ _ (lookup_app_l_Some _ _ _ _ Hmd)).
  reflexivity.
Qed.

Lemma dict_get_set_ne (k k' : string) (v : val) (d : list (string * val)) :
  k <> k' -> dict_get k (dict_set k' v d) = dict_get k d.
Proof.
  intros Hne. induction d as [|[k0 v0] d IH]; simpl.
  - destruct (String.eqb_spec k' k); congruence.
  - destruct (String.eqb_spec k0 k') as [->|Hk0]; simpl.
    + destruct (String.eqb_spec k' k); congruence.
    + destruct (String.eqb_spec k0 k); [reflexivity | exact IH].
Qed.

Lemma dict_set_keys (k : string) (v : val) (d : list (string * val)) :
  map fst (dict_set k v d)
  = if existsb (String.eqb k) (map fst d) then map fst d
    else map fst d ++ [k].
Proof.
  induction d as [|[k0 v0] d IH]; [reflexivity|]. simpl.
  rewrite (String.eqb_sym k k0).
  destruct (String.eqb_spec k0 k) as [->|Hne]; simpl; [reflexivity|].
  rewrite IH. now destruct (existsb (String.eqb k) (map fst d)).
Qed.

(** The keys after an assignment, as a set: the key assigned and the keys
    the dictionary had. *)
Lemma dict_set_keys_In (k k' : string) (v : val) (d : list (string * val)) :
  In k' (map fst (dict_set k v d)) <-> k' = k \/ In k' (map fst d).
Proof.
  rewrite dict_set_keys.
  destruct (existsb (String.eqb k) (map fst d)) eqn:E.
  - apply existsb_exists in E as (x & Hin & Hx).
    apply String.eqb_eq in Hx. subst x.
    split; [now right | now intros [->|?]].
  - rewrite in_app_iff. simpl. split.
    + intros [?|[->|[]]]; [now right | now left].
    + intros [->|?]; [right; now left | now left].
Qed.

(** What a run does to the store, from a store that is ready. *)
Lemma generate_kinesis_streams_ready (cluster_name : string) (config : val)
    (h : heap) (cd md : loc) (kd mdd : list (string * val))
    (prefix account_id region shards retention : val) :
  kinesis_ready h config cluster_name cd md kd mdd prefix account_id region
    shards retention ->
  generate_kinesis_streams str_other default_factory cluster_name
    (VRef cd) config h
  = Some (<[md := ODict (dict_set ("kinesis_" +:+ cluster_name)
                           (VRef (S (S (length h)))) mdd)]>
            (h ++ [OList []; OList [];
                   ODict (kinesis_entries str_other h cluster_name prefix
                            account_id region shards retention kd)]),
          VBool true) /\
  md < length h.
Proof.
  intros [Hp Ha Hr (km & Hkm & Hkd) Hs Hre (cdd & Hcd & Hmod) Hmd]. split.
  - eapply generate_kinesis_streams_run; eauto.
  - eapply lookup_lt_Some; eauto.
Qed.

(** The call returns [True] and puts under the key of the cluster, in the
    dictionary under ['module'], a new dictionary whose keys are the
    eleven of the module; the account id, the region, the prefix, the
    shards and the retention are the values of the configuration. *)
Theorem generate_kinesis_streams_adds_module (cluster_name : string)
    (config : val) (h : heap) (cd md : loc) (kd mdd : list (string * val))
    (prefix account_id region shards retention : val) :
  kinesis_ready h config cluster_name cd md kd mdd prefix account_id region
    shards retention ->
  exists h' m entries,
    generate_kinesis_streams str_other default_factory cluster_name
      (VRef cd) config h = Some (h', VBool true) /\
    getitem h' (VRef md) ("kinesis_" +:+ cluster_name) = Some (VRef m) /\
    length h <= m /\
    h' !! m = Some (ODict entries) /\
    (forall k,
       In k (map fst entries) <->
       In k ["source"; "account_id"; "region"; "cluster_name"; "prefix";
             "stream_name"; "shard_level_metrics"; "shards"; "retention";
             "create_user"; "trusted_accounts"]) /\
    dict_get "source" entries
    = Some (VStr "modules/tf_stream_alert_kinesis_streams") /\
    dict_get "account_id" entries = Some account_id /\
    dict_get "region" entries = Some region /\
    dict_get "cluster_name" entries = Some (VStr cluster_name) /\
    dict_get "prefix" entries = Some prefix /\
    dict_get "shards" entries = Some shards /\
    dict_get "retention" entries = Some retention /\
    (forall s, prefix = VStr s ->
       dict_get "stream_name" entries
       = Some (VStr (s +:+ "_" +:+ cluster_name +:+ "_stream_alert_kinesis"))).
Proof.
  intros Hready.
  destruct (generate_kinesis_streams_ready _ _ _ _ _ _ _ _ _ _ _ _ Hready)
    as [Hrun Hlt].
  pose proof (kr_modules _ _ _ _ _ _ _ _ _ _ _ _ Hready) as Hmd.
  eexists _, (S (S (length h))), _. split; [exact Hrun|]. split_and!.
  - erewrite getitem_dict; [apply dict_get_set_eq|].
    apply list_lookup_insert_eq. rewrite length_app. lia.
  - lia.
  - rewrite list_lookup_insert_ne by lia.
    rewrite lookup_app_r by lia.
    replace (S (S (length h)) - length h) with 2 by lia. reflexivity.
  - intros k. reflexivity.
  - reflexivity.
  - reflexivity.
  - reflexivity.
  - reflexivity.
  - reflexivity.
  - reflexivity.
  - reflexivity.
  - intros s ->. reflexivity.
Qed.

(** The three optional keys: the value of the streams configuration
    when it has the key; otherwise a new empty list for the shard level
    metrics, [True] for [create_user] and another new empty list for the
    trusted accounts. *)
Theorem generate_kinesis_streams_defaults (cluster_name : string)
    (config : val) (h : heap) (cd md : loc) (kd mdd : list (string * val))
    (prefix account_id region shards retention : val) :
  kinesis_ready h config cluster_name cd md kd mdd prefix account_id region
    shards retention ->
  exists h' m entries,
    generate_kinesis_streams str_other default_factory cluster_name
      (VRef cd) config h = Some (h', VBool true) /\
    getitem h' (VRef md) ("kinesis_" +:+ cluster_name) = Some (VRef m) /\
    h' !! m = Some (ODict entries) /\
    (forall k v,
       In k ["shard_level_metrics"; "create_user"; "trusted_accounts"] ->
       dict_get k kd = Some v -> dict_get k entries = Some v) /\
    (dict_get "create_user" kd = None ->
     dict_get "create_user" entries = Some (VBool true)) /\
    (dict_get "shard_level_metrics" kd = None ->
     exists l, dict_get "shard_level_metrics" entries = Some (VRef l) /\
               length h <= l /\ h' !! l = Some (OList [])) /\
    (dict_get "trusted_accounts" kd = None ->
     exists l, dict_get "trusted_accounts" entries = Some (VRef l) /\
               length h <= l /\ h' !! l = Some (OList [])) /\
    (dict_get "shard_level_metrics" kd = None ->
     dict_get "trusted_accounts" kd = None ->
     dict_get "shard_level_metrics" entries
     <> dict_get "trusted_accounts" entries).
Proof.
  intros Hready.
  destruct (generate_kinesis_streams_ready _ _ _ _ _ _ _ _ _ _ _ _ Hready)
    as [Hrun Hlt].
  eexists _, (S (S (length h))), _. split; [exact Hrun|]. split_and!.
  - erewrite getitem_dict; [apply dict_get_set_eq|].
    apply list_lookup_insert_eq. rewrite length_app. lia.
  - rewrite list_lookup_insert_ne by lia.
    rewrite lookup_app_r by lia.
    replace (S (S (length h)) - length h) with 2 by lia. reflexivity.
  - intros k v [<-|[<-|[<-|[]]]] Hk; cbn [kinesis_entries dict_get];
      simpl String.eqb; cbv iota; now rewrite Hk.
  - intros Hk. cbn [kinesis_entries dict_get]. simpl String.eqb. cbv iota.
    now rewrite Hk.
  - intros Hk. exists (length h). cbn [kinesis_entries dict_get].
    simpl String.eqb. cbv iota. rewrite Hk. split_and!; [reflexivity|lia|].
    rewrite list_lookup_insert_ne by lia.
    rewrite lookup_app_r by lia. rewrite Nat.sub_diag. reflexivity.
  - intros Hk. exists (S (length h)). cbn [kinesis_entries dict_get].
    simpl String.eqb. cbv iota. rewrite Hk. split_and!; [reflexivity|lia|].
    rewrite list_lookup_insert_ne by lia.
    rewrite lookup_app_r by lia.
    replace (S (length h) - length h) with 1 by lia. reflexivity.
  - intros Hk1 Hk2. cbn [kinesis_entries dict_get].
    simpl String.eqb. cbv iota. rewrite Hk1, Hk2. intros [= E]. lia.
Qed.

(** The call changes one object of the store, the dictionary under
    ['module']: every other object, the configuration among them, is as
    it was; in that dictionary every other key keeps its value, and its
    keys are those it had and the key of the cluster. *)
Theorem generate_kinesis_streams_frame (cluster_name : string)
    (config : val) (h : heap) (cd md : loc) (kd mdd : list (string * val))
    (prefix account_id region shards retention : val) :
  kinesis_ready h config cluster_name cd md kd mdd prefix account_id region
    shards retention ->
  exists h' mdd',
    generate_kinesis_streams str_other default_factory cluster_name
      (VRef cd) config h = Some (h', VBool true) /\
    (forall l o, l <> md -> h !! l = Some o -> h' !! l = Some o) /\
    h' !! md = Some (ODict mdd') /\
    (forall k, k <> "kinesis_" +:+ cluster_name ->
               dict_get k mdd' = dict_get k mdd) /\
    (forall k, In k (map fst mdd') <->
               k = "kinesis_" +:+ cluster_name \/ In k (map fst mdd)).
Proof.
  intros Hready.
  destruct (generate_kinesis_streams_ready _ _ _ _ _ _ _ _ _ _ _ _ Hready)
    as [Hrun Hlt].
  eexists _, _. split; [exact Hrun|]. split_and!.
  - intros l o Hl Ho. rewrite list_lookup_insert_ne by auto.
    now apply lookup_app_l_Some.
  - apply list_lookup_insert_eq. rewrite length_app. lia.
  - intros k Hk. now apply dict_get_set_ne.
  - intros k. apply dict_set_keys_In.
Qed.

(** A missing key is an error: the call raises when the configuration
    has no streams module for the cluster, and when the streams module
    has no ['shards'] or no ['retention'], whatever else is there. *)
Theorem generate_kinesis_streams_missing_key (cluster_name : string)
    (cluster_dict config : val) (h : heap) :
  (subscript h config
     ["clusters"; cluster_name; "modules"; "kinesis"; "streams"] = None ->
   generate_kinesis_streams str_other default_factory cluster_name
     cluster_dict config h = None) /\
  (forall km kd,
     subscript h config
       ["clusters"; cluster_name; "modules"; "kinesis"; "streams"]
     = Some (VRef km) ->
     h !! km = Some (ODict kd) ->
     dict_get "shards" kd = None \/ dict_get "retention" kd = None ->
     generate_kinesis_streams str_other default_factory cluster_name
       cluster_dict config h = None).
Proof.
  split.
  - intros Hnone. unfold generate_kinesis_streams. rewrite Hnone.
    now destruct (subscript h config ["global"; "account"; "prefix"]).
  - intros km kd Hkm Hkd Hmiss. unfold generate_kinesis_streams.
    rewrite Hkm.
    destruct (subscript h config ["global"; "account"; "prefix"]);
      [|reflexivity].
    cbn [mbind option_bind]. unfold alloc. cbv beta iota.
    pose proof (lookup_app_l_Some _ [OList []] _ _ Hkd) as Hkd1.
    rewrite !(get_default_dict _ _ _ _ _ Hkd1). cbn [mbind option_bind].
    destruct (subscript (h ++ [OList []]) config
                ["global"; "account"; "aws_account_id"]); [|reflexivity].
    cbn [mbind option_bind].
    destruct (subscript (h ++ [OList []]) config
                ["clusters"; cluster_name; "region"]); [|reflexivity].
    cbn [mbind option_bind].
    destruct (subscript (h ++ [OList []]) config
                ["global"; "account"; "prefix"]); [|reflexivity].
    cbn [mbind option_bind].
    rewrite !(getitem_dict _ _ _ _ Hkd1).
    destruct Hmiss as [-> | ->]; [reflexivity|].
    now destruct (dict_get "shards" kd).
Qed.
End KinesisFacts.

(** What the [default_factory] is for: when the cluster dictionary has
    no ['module'], a factory that makes an empty dictionary gives it one,
    which then holds the module of the cluster and nothing else; without
    a factory the call raises. *)
Theorem generate_kinesis_streams_without_module
    (str_other : heap -> val -> string) (cluster_name : string)
    (config : val) (h : heap) (cd km : loc) (cdd kd : list (string * val))
    (prefix account_id region shards retention : val) :
  subscript h config ["global"; "account"; "prefix"] = Some prefix ->
  subscript h config ["global"; "account"; "aws_account_id"] = Some account_id ->
  subscript h config ["clusters"; cluster_name; "region"] = Some region ->
  subscript h config
    ["clusters"; cluster_name; "modules"; "kinesis"; "streams"]
  = Some (VRef km) ->
  h !! km = Some (ODict kd) ->
  dict_get "shards" kd = Some shards ->
  dict_get "retention" kd = Some retention ->
  h !! cd = Some (ODict cdd) ->
  dict_get "module" cdd = None ->
  generate_kinesis_streams str_other None cluster_name (VRef cd) config h
  = None /\
  exists h' md m entries,
    generate_kinesis_streams str_other (Some (alloc (ODict [])))
      cluster_name (VRef cd) config h = Some (h', VBool true) /\
    getitem h' (VRef cd) "module" = Some (VRef md) /\
    (length h <= md)%nat /\
    h' !! md = Some (ODict [("kinesis_" +:+ cluster_name, VRef m)]) /\
    h' !! m = Some (ODict entries) /\
    map fst entries
    = ["source"; "account_id"; "region"; "cluster_name"; "prefix";
       "stream_name"; "shard_level_metrics"; "shards"; "retention";
       "create_user"; "trusted_accounts"].
Proof.
  intros Hprefix Haccount Hregion Hkm Hkd Hshards Hretention Hcd Hmodule.
  pose proof (lookup_lt_Some _ _ _ Hcd) as Hlt.
  split.
  - rewrite (generate_kinesis_streams_unfold str_other None cluster_name
               (VRef cd) config h prefix account_id region shards retention
               km kd) by assumption.
    unfold defaultdict_getitem.
    now rewrite (lookup_app_l_Some _ _ _ _ Hcd), Hmodule.
  - rewrite (generate_kinesis_streams_unfold str_other _ cluster_name
               (VRef cd) config h prefix account_id region shards retention
               km kd) by assumption.
    unfold defaultdict_getitem.
    rewrite (lookup_app_l_Some _ _ _ _ Hcd), Hmodule.
    cbn [mbind option_bind]. unfold alloc. cbv beta iota.
    set (entries := kinesis_entries _ _ _ _ _ _ _ _ _).
    set (h1 := h ++ [OList []; OList []; ODict entries]).
    assert (length h1 = S (S (S (length h)))) as Hlen1
      by (unfold h1; rewrite length_app; simpl; lia).
    assert ((h1 ++ [ODict []]) !! cd = Some (ODict cdd)) as Hcd1.
    { apply lookup_app_l_Some. unfold h1. now apply lookup_app_l_Some. }
    rewrite (setitem_dict _ _ _ _ _ Hcd1). cbn [mbind option_bind].
    set (h2 := <[cd := _]> (h1 ++ [ODict []])).
    assert (h2 !! length h1 = Some (ODict [])) as Hmd.
    { unfold h2. rewrite list_lookup_insert_ne by lia.
      now apply list_lookup_middle. }
    rewrite (setitem_dict _ _ _ _ _ Hmd). cbn [mbind option_bind].
    exists (<[length h1 := ODict (dict_set ("kinesis_" +:+ cluster_name)
                                    (VRef (S (S (length h)))) [])]> h2),
      (length h1), (S (S (length h))), entries.
    assert (length h2 = S (length h1)) as Hlen2
      by (unfold h2; rewrite length_insert, length_app; simpl; lia).
    split_and!.
    + reflexivity.
    + erewrite getitem_dict; [apply dict_get_set_eq|].
      rewrite list_lookup_insert_ne by lia. unfold h2.
      apply list_lookup_insert_eq. rewrite length_app. lia.
    + lia.
    + apply list_lookup_insert_eq. lia.
    + rewrite list_lookup_insert_ne by lia. unfold h2.
      rewrite list_lookup_insert_ne by lia.
      apply lookup_app_l_Some. unfold h1.
      rewrite lookup_app_r by lia.
      replace (S (S (length h)) - length h)%nat with 2%nat by lia.
      reflexivity.
    + reflexivity.
Qed.

Lemma kinesis_store_ready :
  kinesis_ready kinesis_store (VRef 7%nat) "prod" 9%nat 8%nat
    [("shards", VInt 1); ("retention", VInt 24)] []
    (VStr "acme") (VStr "123456789012") (VStr "us-east-1")
    (VInt 1) (VInt 24).
Proof.
  constructor; try reflexivity.
  - exists 2%nat. split; reflexivity.
  - eexists. split; reflexivity.
Qed.

(** The theorem at the example configuration, for the cluster [prod]. *)
Lemma generate_kinesis_streams_adds_module_witness :
  exists h' m entries,
    generate_kinesis_streams str_atom None "prod" (VRef 9%nat) (VRef 7%nat)
      kinesis_store = Some (h', VBool true) /\
    getitem h' (VRef 8%nat) "kinesis_prod" = Some (VRef m) /\
    h' !! m = Some (ODict entries) /\
    dict_get "stream_name" entries
    = Some (VStr "acme_prod_stream_alert_kinesis").
Proof.
  destruct (generate_kinesis_streams_adds_module str_atom None "prod"
              (VRef 7%nat) kinesis_store 9%nat 8%nat _ _ _ _ _ _ _
              kinesis_store_ready)
    as (h' & m & entries & Hrun & Hget & _ & Hm & _ & _ & _ & _ & _ & _ & _
        & _ & Hname).
  exists h', m, entries. split_and!; [exact Hrun|exact Hget|exact Hm|].
  exact (Hname "acme" eq_refl).
Defined.

(** The theorem at the example configuration, which has none of the
    three optional keys. *)
Lemma generate_kinesis_streams_defaults_witness :
  exists h' m entries,
    generate_kinesis_streams str_atom None "prod" (VRef 9%nat) (VRef 7%nat)
      kinesis_store = Some (h', VBool true) /\
    getitem h' (VRef 8%nat) "kinesis_prod" = Some (VRef m) /\
    h' !! m = Some (ODict entries) /\
    dict_get "create_user" entries = Some (VBool true) /\
    dict_get "shard_level_metrics" entries
    <> dict_get "trusted_accounts" entries.
Proof.
  destruct (generate_kinesis_streams_defaults str_atom None "prod"
              (VRef 7%nat) kinesis_store 9%nat 8%nat _ _ _ _ _ _ _
              kinesis_store_ready)
    as (h' & m & entries & Hrun & Hget & Hm & _ & Hcreate & _ & _ & Hne).
  exists h', m, entries.
  split_and!; [exact Hrun|exact Hget|exact Hm|exact (Hcreate eq_refl)|].
  exact (Hne eq_refl eq_refl).
Defined.

(** The theorem at the example configuration: the configuration at
    location 7 is as it was. *)
Lemma generate_kinesis_streams_frame_witness :
  exists h',
    generate_kinesis_streams str_atom None "prod" (VRef 9%nat) (VRef 7%nat)
      kinesis_store = Some (h', VBool true) /\
    h' !! 7%nat = kinesis_store !! 7%nat.
Proof.
  destruct (generate_kinesis_streams_frame str_atom None "prod"
              (VRef 7%nat) kinesis_store 9%nat 8%nat _ _ _ _ _ _ _
              kinesis_store_ready)
    as (h' & mdd' & Hrun & Hframe & _).
  exists h'. split; [exact Hrun|].
  apply (Hframe 7%nat); [discriminate | reflexivity].
Defined.

(** The theorem at the example configuration: it has no cluster [dev],
    and without its [retention] the call for [prod] raises. *)
Lemma generate_kinesis_streams_missing_key_witness :
  generate_kinesis_streams str_atom None "dev" (VRef 9%nat) (VRef 7%nat)
    kinesis_store = None /\
  generate_kinesis_streams str_atom None "prod" (VRef 9%nat) (VRef 7%nat)
    (<[2%nat := ODict [("shards", VInt 1)]]> kinesis_store) = None.
Proof.
  split.
  - apply (proj1 (generate_kinesis_streams_missing_key str_atom None "dev"
                    (VRef 9%nat) (VRef 7%nat) kinesis_store)).
    reflexivity.
  - apply (proj2 (generate_kinesis_streams_missing_key str_atom None "prod"
                    (VRef 9%nat) (VRef 7%nat)
                    (<[2%nat := ODict [("shards", VInt 1)]]> kinesis_store))
             2%nat [("shards", VInt 1)]).
    + reflexivity.
    + reflexivity.
    + right. reflexivity.
Defined.

(** The theorem at the example configuration, with an empty cluster
    dictionary. *)
Lemma generate_kinesis_streams_without_module_witness :
  generate_kinesis_streams str_atom None "prod" (VRef 9%nat) (VRef 7%nat)
    (<[9%nat := ODict []]> kinesis_store) = None /\
  exists h' md,
    generate_kinesis_streams str_atom (Some (alloc (ODict []))) "prod"
      (VRef 9%nat) (VRef 7%nat) (<[9%nat := ODict []]> kinesis_store)
    = Some (h', VBool true) /\
    getitem h' (VRef 9%nat) "module" = Some (VRef md).
Proof.
  set (h := <[9%nat := ODict []]> kinesis_store).
  destruct (generate_kinesis_streams_without_module str_atom "prod"
              (VRef 7%nat) h 9%nat 2%nat
              [] [("shards", VInt 1); ("retention", VInt 24)]
              (VStr "acme") (VStr "123456789012") (VStr "us-east-1")
              (VInt 1) (VInt 24)
              ltac:(reflexivity) ltac:(reflexivity) ltac:(reflexivity)
              ltac:(reflexivity) ltac:(reflexivity) ltac:(reflexivity)
              ltac:(reflexivity) ltac:(reflexivity) ltac:(reflexivity))
    as [Hnone (h' & md & m & entries & Hrun & Hget & _)].
  split; [exact Hnone|]. exists h', md. split; [exact Hrun | exact Hget].
Defined.

(** ** Escaping and the lines of a document *)

Lemma split_nl_prepend (b t : string) :
  has_nl b = false ->
  split_nl (b +:+ t)
  = match split_nl t with
    | [] => [b]
    | p :: ps => (b +:+ p) :: ps
    end.
Proof.
  induction b as [|c b IH]; intros Hb.
  - rewrite append_nil_l. pose proof (split_nl_nonempty t).
    destruct (split_nl t); [congruence | reflexivity].
  - simpl in Hb. apply orb_false_iff in Hb as [Hc Hb].
    rewrite append_cons. simpl split_nl. rewrite Hc, (IH Hb).
    now destruct (split_nl t).
Qed.

(** Replacing a character other than the newline by a text without a
    newline replaces it in each line. *)
Lemma split_nl_replace_char (c : ascii) (by_ s : string) :
  Ascii.eqb c nl_char = false -> has_nl by_ = false ->
  split_nl (replace_char c by_ s) = map (replace_char c by_) (split_nl s).
Proof.
  intros Hc Hby. induction s as [|a s IH]; [reflexivity|].
  pose proof (split_nl_nonempty s) as Hne.
  simpl replace_char. simpl split_nl.
  destruct (Ascii.eqb_spec a c) as [->|Hac].
  - rewrite Hc, (split_nl_prepend _ _ Hby), IH.
    destruct (split_nl s) as [|p ps]; [congruence|].
    simpl. now rewrite Ascii.eqb_refl.
  - simpl split_nl. destruct (Ascii.eqb a nl_char) eqn:Ha.
    + simpl. now rewrite IH.
    + rewrite IH. destruct (split_nl s) as [|p ps]; [congruence|].
      simpl. destruct (Ascii.eqb_spec a c); [contradiction | reflexivity].
Qed.

Lemma split_nl_cgi_escape (s : string) :
  split_nl (cgi_escape s) = map cgi_escape (split_nl s).
Proof.
  unfold cgi_escape.
  rewrite !split_nl_replace_char by reflexivity.
  now rewrite !map_map.
Qed.

Lemma count_char_append (c : ascii) (a b : string) :
  count_char c (a +:+ b) = count_char c a + count_char c b.
Proof.
  induction a as [|x a IH]; [reflexivity|].
  rewrite append_cons. simpl. rewrite IH. lia.
Qed.

Lemma count_char_nonneg (c : ascii) (s : string) : 0 <= count_char c s.
Proof.
  induction s as [|a s IH]; simpl; [lia|].
  destruct (Ascii.eqb a c); lia.
Qed.

Lemma len_cons (a : ascii) (s : string) : len (String a s) = 1 + len s.
Proof. unfold len. simpl String.length. lia. Qed.

Lemma len_replace_char (c : ascii) (by_ s : string) :
  len (replace_char c by_ s) = len s + (len by_ - 1) * count_char c s.
Proof.
  induction s as [|a s IH]; [simpl; unfold len; simpl; lia|].
  simpl replace_char. simpl count_char.
  destruct (Ascii.eqb a c).
  - rewrite len_append, len_cons, IH. lia.
  - rewrite !len_cons, IH. lia.
Qed.

Lemma count_char_replace_char (c' c : ascii) (by_ s : string) :
  count_char c' (replace_char c by_ s)
  = (if Ascii.eqb c c' then 0 else count_char c' s)
    + count_char c' by_ * count_char c s.
Proof.
  induction s as [|a s IH].
  - simpl. destruct (Ascii.eqb c c'); lia.
  - simpl replace_char. simpl count_char.
    destruct (Ascii.eqb_spec a c) as [->|Hac].
    + rewrite count_char_append, IH.
      destruct (Ascii.eqb c c'); lia.
    + simpl count_char. rewrite IH.
      destruct (Ascii.eqb_spec c c') as [<-|Hcc].
      * destruct (Ascii.eqb_spec a c); [contradiction|]. lia.
      * lia.
Qed.

Lemma count_char_angle_escaped (s : string) :
  count_char "<" (cgi_escape s) = 0 /\ count_char ">" (cgi_escape s) = 0.
Proof.
  unfold cgi_escape. rewrite !count_char_replace_char. simpl. lia.
Qed.

Lemma count_char_render (c : ascii) (g : list string) :
  Ascii.eqb nl_char c = false ->
  Forall (fun line => count_char c line = 0) g ->
  count_char c (render g) = 0.
Proof.
  intros Hc. induction 1 as [|line g Hline _ IH]; [reflexivity|].
  simpl render. rewrite !count_char_append, Hline, IH.
  change (count_char c nl) with ((if Ascii.eqb nl_char c then 1 else 0) + 0).
  rewrite Hc. reflexivity.
Qed.

(** ** Where the loop cuts *)

Lemma chunker_loop_fits (B : Z) (lines : list string) :
  forall (g : list string) (first : bool) (acc : list chunk),
  len (render (g ++ lines)) <= B + 1 ->
  chunker_loop record_chunk B lines (render g) first acc
  = Some (acc, render (g ++ lines), first).
Proof.
  induction lines as [|line rest IH]; intros g first acc Hfit.
  - now rewrite app_nil_r.
  - rewrite chunker_loop_keep.
    + rewrite <- render_snoc, IH; rewrite <- app_assoc; [reflexivity|].
      exact Hfit.
    + apply andb_false_iff. right. apply Z.ltb_ge.
      rewrite render_app in Hfit. simpl render in Hfit.
      rewrite !len_append, len_nl in Hfit.
      pose proof (len_nonneg (render rest)). lia.
Qed.

Lemma lookup_map {A B} (f : A -> B) (l : list A) (i : nat) (x : A) :
  l !! i = Some x -> map f l !! i = Some (f x).
Proof.
  revert i. induction l as [|y l IH]; intros i Hx; [discriminate|].
  destruct i as [|i]; simpl in *; [congruence | auto].
Qed.

Lemma cut_when_full_lookup (B : Z) (gs : list (list string)) :
  cut_when_full B gs ->
  forall (i : nat) (g g1 : list string),
  gs !! i = Some g -> gs !! S i = Some g1 ->
  exists line tail, g1 = line :: tail /\ B < len line + len (render g).
Proof.
  induction gs as [|g0 gs IH]; intros Hcut i g g1 Hg Hg1; [discriminate|].
  destruct Hcut as [Hhead Hrest]. destruct i as [|i].
  - simpl in Hg, Hg1. injection Hg as <-.
    destruct gs as [|g2 gs]; [discriminate|]. simpl in Hg1.
    injection Hg1 as <-. destruct g2 as [|line tail]; [contradiction|].
    eauto.
  - apply (IH Hrest i); assumption.
Qed.

(** The loop as a grouping once more, with what made it cut: the group
    it starts from is the beginning of the first group, and each group
    ends where the next line was too much. *)
Lemma chunker_loop_cuts (B : Z) (lines : list string) :
  forall (g : list string) (first : bool) (acc : list chunk),
  exists gs g' tail,
    chunker_loop record_chunk B lines (render g) first acc
    = Some (acc ++ mark_open gs first, render g',
            first && match gs with [] => true | _ => false end) /\
    concat gs ++ g' = g ++ lines /\
    Forall (fun g => g <> []) gs /\
    (g <> [] \/ lines <> [] -> g' <> []) /\
    head (gs ++ [g']) = Some (g ++ tail) /\
    cut_when_full B (gs ++ [g']).
Proof.
  induction lines as [|line rest IH]; intros g first acc.
  - exists [], g, []. simpl. rewrite andb_true_r, !app_nil_r.
    split_and!; auto. intros [H|H]; congruence.
  - destruct (truthy (render g) && (B <? len line + len (render g))) eqn:Hc.
    + rewrite (chunker_loop_flush _ _ _ _ _ _ Hc).
      apply andb_true_iff in Hc as [Hne Hover].
      apply truthy_render in Hne. apply Z.ltb_lt in Hover.
      destruct (IH [line] false (acc ++ [Chunk (render g) first false]))
        as (gs & g' & tail & Hrun & Hcat & Hall & Hlast & Hhead & Hcut).
      exists (g :: gs), g', [].
      rewrite <- render_single, Hrun, andb_false_r, <- app_assoc. simpl.
      split_and!.
      * reflexivity.
      * simpl in Hcat. rewrite <- app_assoc, Hcat. reflexivity.
      * constructor; assumption.
      * intros _. apply Hlast. left. discriminate.
      * now rewrite app_nil_r.
      * destruct (gs ++ [g']) as [|g1 gs1]; [discriminate|].
        simpl in Hhead. injection Hhead as ->.
        exact Hover.
      * exact Hcut.
    + rewrite (chunker_loop_keep _ _ _ _ _ _ Hc).
      destruct (IH (g ++ [line]) first acc)
        as (gs & g' & tail & Hrun & Hcat & Hall & Hlast & Hhead & Hcut).
      exists gs, g', (line :: tail). rewrite <- render_snoc, Hrun.
      split_and!.
      * reflexivity.
      * rewrite Hcat, <- app_assoc. reflexivity.
      * assumption.
      * intros _. apply Hlast. left. destruct g; discriminate.
      * rewrite Hhead, <- app_assoc. reflexivity.
      * assumption.
Qed.

Lemma chunks_of_lines_cuts (B : Z) (lines : list string) :
  exists gs,
    chunks_of_lines B lines = Some (mark gs true) /\
    concat gs = lines /\
    Forall (fun g => g <> []) gs /\
    cut_when_full B gs.
Proof.
  destruct (chunker_loop_cuts B lines [] true [])
    as (gs & g' & tail & Hrun & Hcat & Hall & Hlast & _ & Hcut).
  unfold chunks_of_lines, chunker. simpl in Hrun. rewrite Hrun. simpl.
  destruct g' as [|l g'].
  - destruct lines as [|l0 lines]; [|exfalso; apply Hlast; [right|]; congruence].
    rewrite app_nil_r in Hcat.
    assert (gs = []) as ->.
    { destruct gs as [|g0 gs]; [reflexivity|].
      inversion Hall as [|? ? Hne _]; subst.
      simpl in Hcat. destruct g0; [congruence | discriminate]. }
    exists []. split_and!; simpl; auto.
  - exists (gs ++ [l :: g']).
    change (truthy (render (l :: g'))) with true. simpl.
    unfold record_chunk. rewrite mark_snoc. simpl app at 1.
    split_and!.
    + reflexivity.
    + rewrite concat_app. simpl. rewrite app_nil_r. exact Hcat.
    + apply Forall_app. split; [assumption|]. repeat constructor. discriminate.
    + exact Hcut.
Qed.

(** The loop cuts only where it has to: the first line of every chunk
    but the first is a line that, counted with the chunk before it, went
    over the budget.  No chunk ends while the next line still goes with
    it. *)
Theorem chunker_cuts_only_when_full (B : Z) (D : string) :
  exists cs,
    chunks_of_document B D = Some cs /\
    forall (i : nat) (c c' : chunk),
      cs !! i = Some c -> cs !! S i = Some c' ->
      exists line,
        head (chunk_lines c') = Some line /\
        B < len line + len (document c).
Proof.
  destruct (chunks_of_lines_cuts B (split_nl D))
    as (gs & Hcs & Hcat & Hne & Hcut).
  exists (mark gs true). split; [exact Hcs|]. intros i c c' Hc Hc'.
  apply (lookup_map document) in Hc, Hc'. rewrite mark_documents in Hc, Hc'.
  apply lookup_map_Some in Hc as (g & Hg & Hdoc).
  apply lookup_map_Some in Hc' as (g1 & Hg1 & Hdoc1).
  destruct (cut_when_full_lookup B gs Hcut i g g1 Hg Hg1)
    as (line & tail & -> & Hover).
  exists line. unfold chunk_lines. rewrite Hdoc, Hdoc1. split; [|exact Hover].
  rewrite strip_render by discriminate.
  rewrite split_join_nl; [reflexivity | discriminate |].
  pose proof (split_nl_pieces D) as Hp. rewrite <- Hcat in Hp.
  apply concat_pieces in Hp. rewrite List.Forall_forall in Hp.
  apply Hp. apply list_elem_of_In. eapply list_elem_of_lookup_2. exact Hg1.
Qed.

(** One chunk, and when: a document gives a single chunk exactly when it
    is no longer than the budget or is a single line; the chunk then is
    the whole document behind its newline, marked first and last. *)
Theorem chunker_single_chunk (B : Z) (D : string) :
  ((exists c, chunks_of_document B D = Some [c]) ->
   len D <= B \/ has_nl D = false) /\
  (len D <= B \/ has_nl D = false ->
   chunks_of_document B D = Some [Chunk (nl +:+ D) true true]).
Proof.
  split.
  - intros [c Hc].
    destruct (chunks_of_lines_groups B (split_nl D))
      as (gs & Hcs & Hcat & Hall & _).
    unfold chunks_of_document in Hc. rewrite Hcs in Hc.
    injection Hc as Hc. pose proof (f_equal length Hc) as Hlen.
    rewrite mark_length in Hlen.
    destruct gs as [|g [|g1 gs]]; try discriminate.
    simpl in Hcat. rewrite app_nil_r in Hcat. subst g.
    inversion Hall as [|? ? (Hne & Hsize & _) _]; subst.
    destruct Hsize as [Hle|(line & Hline & Hlong)].
    + left. rewrite render_join, join_split_nl in Hle by assumption.
      rewrite len_append, len_nl in Hle. lia.
    + right. pose proof (split_nl_pieces D) as Hp. rewrite Hline in Hp.
      inversion Hp as [|? ? Hnl _]; subst.
      rewrite <- (join_split_nl D), Hline. exact Hnl.
  - intros Hfit.
    assert (render (split_nl D) = nl +:+ D) as Hrender.
    { rewrite render_join by apply split_nl_nonempty.
      now rewrite join_split_nl. }
    unfold chunks_of_document, chunks_of_lines, chunker.
    assert (chunker_loop record_chunk B (split_nl D) EmptyString true []
            = Some ([], nl +:+ D, true)) as ->.
    { destruct Hfit as [Hle|Hnl].
      - rewrite <- Hrender.
        apply (chunker_loop_fits B (split_nl D) [] true []).
        simpl app. rewrite Hrender, len_append, len_nl. lia.
      - rewrite (split_nl_no_nl D Hnl). reflexivity. }
    reflexivity.
Qed.

(** The theorem for the document of the one line [abc] under budget 1,
    and for a document of two lines under budget 10. *)
Lemma chunker_single_chunk_witness :
  (len "abc" <= 1 \/ has_nl "abc" = false) /\
  chunks_of_document 1 "abc" = Some [Chunk (nl +:+ "abc") true true] /\
  chunks_of_document 10 ("ab" +:+ nl +:+ "cd")
  = Some [Chunk (nl +:+ ("ab" +:+ nl +:+ "cd")) true true].
Proof.
  split; [right; reflexivity|]. split.
  - apply (proj2 (chunker_single_chunk 1 "abc")). right. reflexivity.
  - apply (proj2 (chunker_single_chunk 10 ("ab" +:+ nl +:+ "cd"))).
    left. vm_compute. discriminate.
Defined.

(** ** The texts of the attachments *)

Lemma chunks_of_document_fits (B : Z) (D : string) :
  len D <= B ->
  chunks_of_document B D = Some [Chunk (nl +:+ D) true true].
Proof.
  intros Hle.
  assert (render (split_nl D) = nl +:+ D) as Hrender.
  { rewrite render_join by apply split_nl_nonempty.
    now rewrite join_split_nl. }
  unfold chunks_of_document, chunks_of_lines, chunker.
  assert (chunker_loop record_chunk B (split_nl D) EmptyString true []
          = Some ([], nl +:+ D, true)) as ->.
  { rewrite <- Hrender.
    apply (chunker_loop_fits B (split_nl D) [] true []).
    simpl app. rewrite Hrender, len_append, len_nl. lia. }
  reflexivity.
Qed.

Lemma record_document_lines_escaped `{Externals} (alert : Alert) :
  AttachFullRecord.record_document_lines alert
  = map cgi_escape (split_nl (json_dumps (record alert))).
Proof. apply split_nl_cgi_escape. Qed.

Lemma len_fenced (doc : string) :
  len ("```" +:+ nl +:+ doc +:+ nl +:+ "```") = len doc + 8.
Proof.
  rewrite !len_append, len_nl.
  change (len "```") with 3. lia.
Qed.

Lemma make_attachment_text (alert : Alert) (doc : string) (f l : bool) :
  tree_get "text" (AttachFullRecord.make_attachment alert doc f l)
  = Some (TStr ("```" +:+ nl +:+ doc +:+ nl +:+ "```")).
Proof. reflexivity. Qed.

Lemma mark_In_document (gs : list (list string)) (first : bool) (c : chunk) :
  In c (mark gs first) -> exists g, In g gs /\ document c = render g.
Proof.
  intros Hc. apply (in_map document) in Hc. rewrite mark_documents in Hc.
  apply in_map_iff in Hc as (g & Hg & Hin). eauto.
Qed.

(** The lines [AttachFullRecord.publish] cuts into attachments are the
    lines of the serialized record, each of them escaped: escaping
    before splitting neither adds nor removes a line. *)
Theorem record_lines_are_escaped_lines `{Externals} (alert : Alert) :
  AttachFullRecord.record_document_lines alert
  = map cgi_escape (split_nl (json_dumps (record alert))) /\
  length (AttachFullRecord.record_document_lines alert)
  = length (split_nl (json_dumps (record alert))) /\
  Forall (fun line => has_nl line = false)
    (AttachFullRecord.record_document_lines alert).
Proof.
  split_and!.
  - apply record_document_lines_escaped.
  - now rewrite record_document_lines_escaped, length_map.
  - apply split_nl_pieces.
Qed.

(** What escaping adds: four characters for each ampersand and three for
    each angle bracket, so the escaped document is never shorter, and
    the budget of the loop is spent on the text as Slack receives it. *)
Theorem cgi_escape_length (s : string) :
  len (cgi_escape s)
  = len s + 4 * count_char "&" s + 3 * count_char "<" s
    + 3 * count_char ">" s /\
  len s <= len (cgi_escape s).
Proof.
  assert (len (cgi_escape s)
          = len s + 4 * count_char "&" s + 3 * count_char "<" s
            + 3 * count_char ">" s) as Heq.
  { unfold cgi_escape.
    rewrite !len_replace_char, !count_char_replace_char.
    change (len "&amp;") with 5. change (len "&lt;") with 4.
    change (len "&gt;") with 4. simpl. lia. }
  split; [exact Heq|]. rewrite Heq.
  pose proof (count_char_nonneg "&" s).
  pose proof (count_char_nonneg "<" s).
  pose proof (count_char_nonneg ">" s). lia.
Qed.

(** The values that are escaped hold no angle bracket: the value under
    ['text'] of the attachment of the summary and of the attachment of
    [AttachPublication], and the document of every chunk of
    [AttachFullRecord], whatever the budget.  The other values of the
    attachments are not escaped and are not part of the statement: the
    fallback, the title, the author and the alert id are written as
    they are, and the footer is a link, angle brackets included. *)
Theorem texts_hold_no_angle_bracket `{Externals} (summary : Summary.cls)
    (alert : Alert) (publication_block : string) :
  (forall t text,
     In t [Summary.attachment summary alert;
           AttachPublication.attachment publication_block] ->
     tree_get "text" t = Some (TStr text) ->
     count_char "<" text = 0 /\ count_char ">" text = 0) /\
  (forall B cs c,
     chunks_of_lines B (AttachFullRecord.record_document_lines alert)
     = Some cs ->
     In c cs ->
     count_char "<" (document c) = 0 /\ count_char ">" (document c) = 0).
Proof.
  split.
  - intros t text [<-|[<-|[]]] [= <-]; apply count_char_angle_escaped.
  - intros B cs c Hcs Hc.
    destruct (chunks_of_lines_groups B
                (AttachFullRecord.record_document_lines alert))
      as (gs & Hcs' & Hcat & _).
    rewrite Hcs' in Hcs. injection Hcs as <-.
    apply mark_In_document in Hc as (g & Hg & ->).
    assert (Forall (fun line => count_char "<" line = 0 /\
                                count_char ">" line = 0) g) as Hall.
    { apply List.Forall_forall. intros line Hline.
      assert (In line (AttachFullRecord.record_document_lines alert)) as Hin.
      { rewrite <- Hcat. apply in_concat. eauto. }
      rewrite record_document_lines_escaped in Hin.
      apply in_map_iff in Hin as (raw & <- & _).
      apply count_char_angle_escaped. }
    split; apply count_char_render; try reflexivity;
      (eapply Forall_impl; [exact Hall|]); now intros line [? ?].
Qed.

(** The texts of the attachments [AttachFullRecord.publish] appends, in
    order and without their fences, are together the escaped record
    behind one newline: the record is attached whole. *)
Theorem full_record_texts_hold_the_record `{Externals}
    (self : AttachFullRecord.cls) (alert : Alert) (h : heap)
    (publication : val) (xs : list val) :
  wf_heap h -> attachments_of h publication = Some xs ->
  exists h' r trees docs,
    AttachFullRecord.publish self alert publication h = Some (h', r) /\
    appends h publication h' r trees /\
    Forall2 (fun t doc =>
               tree_get "text" t
               = Some (TStr ("```" +:+ nl +:+ doc +:+ nl +:+ "```")))
      trees docs /\
    foldr String.append EmptyString docs
    = nl +:+ cgi_escape (json_dumps (record alert)).
Proof.
  intros Hwf Hxs.
  destruct (chunks_of_lines_groups (AttachFullRecord.character_limit self)
              (AttachFullRecord.record_document_lines alert))
    as (gs & Hcs & Hcat & _).
  destruct (full_record_publish_appends self alert h publication xs _
              Hwf Hxs Hcs) as (h' & r & Hrun & Happ).
  eexists h', r, _, (map document (mark gs true)).
  split_and!; [exact Hrun | exact Happ | |].
  - apply Forall2_fmap. apply Forall_Forall2_diag.
    apply List.Forall_forall. intros c _. apply make_attachment_text.
  - rewrite mark_documents, render_concat, Hcat.
    unfold AttachFullRecord.record_document_lines.
    rewrite render_join by apply split_nl_nonempty.
    now rewrite join_split_nl.
Qed.

(** With a padding of nine characters or more, the text of every
    attachment [AttachFullRecord.publish] appends is within the maximum
    length, the fences and the separator counted, unless it is a single
    line that alone is longer than the limit. *)
Theorem full_record_texts_within_maximum `{Externals}
    (self : AttachFullRecord.cls) (alert : Alert) (h : heap)
    (publication : val) (xs : list val) :
  wf_heap h -> attachments_of h publication = Some xs ->
  9 <= AttachFullRecord._LENGTH_PADDING self ->
  exists h' r trees,
    AttachFullRecord.publish self alert publication h = Some (h', r) /\
    appends h publication h' r trees /\
    Forall (fun t =>
              exists text,
                tree_get "text" t = Some (TStr text) /\
                (len text
                 <= AttachFullRecord._SLACK_MAXIMUM_ATTACHMENT_CHARACTER_LENGTH
                      self \/
                 exists line,
                   In line (AttachFullRecord.record_document_lines alert) /\
                   AttachFullRecord.character_limit self < len line /\
                   text = "```" +:+ nl +:+ (nl +:+ line) +:+ nl +:+ "```"))
      trees.
Proof.
  intros Hwf Hxs Hpad.
  destruct (chunks_of_lines_groups (AttachFullRecord.character_limit self)
              (AttachFullRecord.record_document_lines alert))
    as (gs & Hcs & Hcat & Hall & _).
  destruct (full_record_publish_appends self alert h publication xs _
              Hwf Hxs Hcs) as (h' & r & Hrun & Happ).
  eexists h', r, _. split_and!; [exact Hrun | exact Happ |].
  apply List.Forall_map. apply List.Forall_forall. intros c Hc.
  apply mark_In_document in Hc as (g & Hg & Hdoc).
  eexists. split; [apply make_attachment_text|]. rewrite Hdoc.
  rewrite List.Forall_forall in Hall.
  destruct (Hall g Hg) as (_ & [Hle|(line & -> & Hlong)] & _).
  - left. rewrite len_fenced.
    unfold AttachFullRecord.character_limit in Hle. lia.
  - right. exists line. rewrite render_single. split_and!; auto.
    rewrite <- Hcat. apply in_concat. exists [line]. split; [exact Hg|now left].
Qed.

(** The theorem at the example store and the example alert, with the
    attributes of the class. *)
Lemma full_record_texts_within_maximum_witness :
  exists h' r trees,
    AttachFullRecord.publish (H := example_externals) AttachFullRecord.base
      example_alert (VRef 1%nat) example_store = Some (h', r) /\
    appends example_store (VRef 1%nat) h' r trees /\
    Forall (fun t =>
              exists text,
                tree_get "text" t = Some (TStr text) /\
                (len text <= 4000 \/
                 exists line,
                   In line (AttachFullRecord.record_document_lines
                              (H := example_externals) example_alert) /\
                   AttachFullRecord.character_limit AttachFullRecord.base
                   < len line /\
                   text = "```" +:+ nl +:+ (nl +:+ line) +:+ nl +:+ "```"))
      trees.
Proof.
  apply (full_record_texts_within_maximum (H := example_externals)
           AttachFullRecord.base example_alert example_store (VRef 1%nat) []
           example_store_wf eq_refl).
  vm_compute. discriminate.
Defined.

(** The theorem at the example store and the example alert. *)
Lemma full_record_texts_hold_the_record_witness :
  exists h' r trees docs,
    AttachFullRecord.publish (H := example_externals) AttachFullRecord.base
      example_alert (VRef 1%nat) example_store = Some (h', r) /\
    appends example_store (VRef 1%nat) h' r trees /\
    Forall2 (fun t doc =>
               tree_get "text" t
               = Some (TStr ("```" +:+ nl +:+ doc +:+ nl +:+ "```")))
      trees docs /\
    foldr String.append EmptyString docs
    = nl +:+ cgi_escape (json_dumps (Externals := example_externals)
                           (record example_alert)).
Proof.
  exact (full_record_texts_hold_the_record (H := example_externals)
           AttachFullRecord.base example_alert example_store (VRef 1%nat) []
           example_store_wf eq_refl).
Defined.

(** A record whose escaped serialization is within the limit is attached
    as one attachment, marked first and last, that holds it whole. *)
Theorem full_record_single_attachment `{Externals}
    (self : AttachFullRecord.cls) (alert : Alert) (h : heap)
    (publication : val) (xs : list val) :
  wf_heap h -> attachments_of h publication = Some xs ->
  len (cgi_escape (json_dumps (record alert)))
  <= AttachFullRecord.character_limit self ->
  exists h' r,
    AttachFullRecord.publish self alert publication h = Some (h', r) /\
    appends h publication h' r
      [AttachFullRecord.make_attachment alert
         (nl +:+ cgi_escape (json_dumps (record alert))) true true].
Proof.
  intros Hwf Hxs Hfit.
  apply (full_record_publish_appends self alert h publication xs
           [Chunk (nl +:+ cgi_escape (json_dumps (record alert))) true true]
           Hwf Hxs).
  now apply chunks_of_document_fits.
Qed.

(** The theorem at the example store and the example alert, whose record
    is far shorter than the limit of 3990 characters. *)
Lemma full_record_single_attachment_witness :
  exists h' r,
    AttachFullRecord.publish (H := example_externals) AttachFullRecord.base
      example_alert (VRef 1%nat) example_store = Some (h', r) /\
    appends example_store (VRef 1%nat) h' r
      [AttachFullRecord.make_attachment example_alert
         (nl +:+ cgi_escape (json_dumps (Externals := example_externals)
                               (record example_alert))) true true].
Proof.
  apply (full_record_single_attachment (H := example_externals)
           AttachFullRecord.base example_alert example_store (VRef 1%nat) []
           example_store_wf eq_refl).
  vm_compute. discriminate.
Defined.

(** ** The other entries of a publication *)

Section EntryFacts.
Context `{Externals}.
Local Open Scope nat_scope.

(** The entries of a complete copy of a dictionary. *)
Lemma copied_entries (h h1 : heap) (m : memo) (p np : loc)
    (d : list (string * val)) :
  copying h (fun _ => False) h1 m -> m !! p = Some np ->
  h !! p = Some (ODict d) ->
  h1 !! np
  = Some (ODict (map (fun kv : string * val => (kv.1, rename m kv.2)) d)) /\
  forall k,
    match dict_get k d with
    | None =>
        dict_get k (map (fun kv : string * val => (kv.1, rename m kv.2)) d)
        = None
    | Some (VRef _) =>
        exists l',
          dict_get k (map (fun kv : string * val => (kv.1, rename m kv.2)) d)
          = Some (VRef l') /\ length h <= l'
    | Some v =>
        dict_get k (map (fun kv : string * val => (kv.1, rename m kv.2)) d)
        = Some v
    end.
Proof.
  intros Hcp Hnp Hp.
  destruct (cp_done _ _ _ _ Hcp _ _ Hnp (fun F => F)) as (o & Ho & Hnp1 & Hin).
  assert (o = ODict d) as -> by congruence. simpl in Hnp1, Hin.
  split; [exact Hnp1|]. intros k. rewrite dict_get_rename.
  destruct (dict_get k d) as [v|] eqn:Hk; [|reflexivity].
  destruct v as [| | | | |l]; try reflexivity.
  assert (in_memo m (VRef l)) as [y Hy].
  { rewrite Forall_forall in Hin. apply Hin, list_elem_of_In.
    eapply dict_get_In; eauto. }
  exists y. simpl. rewrite Hy. split; [reflexivity|].
  apply (cp_range _ _ _ _ Hcp _ _ Hy).
Qed.

Lemma dict_get_key (k : string) (v : val) (d : list (string * val)) :
  dict_get k d = Some v -> existsb (String.eqb k) (map fst d) = true.
Proof.
  induction d as [|[k0 v0] d IH]; [discriminate|].
  cbn [dict_get map existsb fst]. rewrite (String.eqb_sym k k0).
  destruct (String.eqb k0 k); [reflexivity | exact IH].
Qed.

Lemma map_fst_rename (m : memo) (d : list (string * val)) :
  map fst (map (fun kv : string * val => (kv.1, rename m kv.2)) d)
  = map fst d.
Proof. rewrite map_map. now apply map_ext. Qed.

(** The first statements of [AttachRuleInfo.publish] and
    [AttachFullRecord.publish], with the entries of the new
    publication. *)
Lemma prepare_entries (h : heap) (p : loc) (d : list (string * val))
    (xs : list val) :
  wf_heap h -> h !! p = Some (ODict d) ->
  attachments_of h (VRef p) = Some xs ->
  exists h1 np la h3 items d',
    deepcopy h (VRef p) = Some (h1, VRef np) /\
    get_default (h1 ++ [OList []]) (VRef np) "slack.attachments"
      (VRef (length h1)) = Some (VRef la) /\
    setitem (h1 ++ [OList []]) (VRef np) "slack.attachments" (VRef la)
      = Some h3 /\
    attaching h np la h3 items /\
    h3 !! np = Some (ODict d') /\
    keeps_entries (length h) d d'.
Proof.
  intros Hwf Hp Hxs.
  destruct (prepare_spec h (VRef p) xs Hwf Hxs)
    as (h1 & m0 & np & la & h3 & Hdc & _ & _ & Hget & Hset & Hat).
  destruct (deepcopy_spec h (VRef p) Hwf) as (h1' & m & Hdc' & Hcp & [np' Hnp]).
  { simpl. eapply lookup_lt_Some; eauto. }
  simpl in Hdc'. rewrite Hnp in Hdc'. rewrite Hdc in Hdc'.
  injection Hdc' as <- <-.
  destruct (copied_entries h h1 m p np d Hcp Hnp Hp) as [Hnp1 Hkeep].
  set (d1 := map (fun kv : string * val => (kv.1, rename m kv.2)) d) in *.
  pose proof (lookup_app_l_Some _ [OList []] _ _ Hnp1) as Hnp2.
  rewrite (setitem_dict _ _ _ _ _ Hnp2) in Hset. injection Hset as <-.
  eexists h1, np, la, _, _, (dict_set "slack.attachments" (VRef la) d1).
  split_and!; [exact Hdc | exact Hget | | exact Hat | |].
  - now apply setitem_dict.
  - apply list_lookup_insert_eq. eapply lookup_lt_Some; eauto.
  - split.
    + intros k. rewrite dict_set_keys_In. unfold d1.
      now rewrite map_fst_rename.
    + intros k Hk. rewrite dict_get_set_ne by exact Hk. apply Hkeep.
Qed.

Lemma attaching_distinct (h0 : heap) (np la : loc) (h : heap)
    (items : list val) :
  attaching h0 np la h items -> np <> la.
Proof.
  intros Hat ->.
  destruct (getitem_is_dict _ _ _ _ (at_get _ _ _ _ _ Hat)) as [d Hd].
  rewrite (at_list _ _ _ _ _ Hat) in Hd. discriminate.
Qed.

Lemma rule_info_publish_entries (alert : Alert) (h : heap) (p : loc)
    (d : list (string * val)) (xs : list val) :
  wf_heap h -> h !! p = Some (ODict d) ->
  attachments_of h (VRef p) = Some xs ->
  exists h' np d',
    AttachRuleInfo.publish alert (VRef p) h = Some (h', VRef np) /\
    h' !! np = Some (ODict d') /\
    keeps_entries (length h) d d'.
Proof.
  intros Hwf Hp Hxs.
  destruct (prepare_entries h p d xs Hwf Hp Hxs)
    as (h1 & np & la & h3 & items & d' & Hdc & Hget & Hset & Hat & Hnp & Hkeep).
  destruct (attach_tree _ _ _ _ _ _ Hat (rule_info_attachment_atomic alert))
    as (h4 & a & h' & Hb & Happ & _ & Hk & _).
  exists h', np, d'. split_and!; auto.
  - unfold AttachRuleInfo.publish. rewrite Hdc.
    cbn [mbind option_bind]. unfold alloc. cbv beta iota.
    rewrite Hget. cbn [mbind option_bind]. rewrite Hset.
    cbn [mbind option_bind]. rewrite (at_get _ _ _ _ _ Hat).
    cbn [mbind option_bind]. rewrite Hb. cbv beta iota. rewrite Happ.
    reflexivity.
  - apply Hk; [|exact Hnp]. eapply attaching_distinct; eauto.
Qed.

Lemma full_record_publish_entries (self : AttachFullRecord.cls)
    (alert : Alert) (h : heap) (p : loc) (d : list (string * val))
    (xs : list val) :
  wf_heap h -> h !! p = Some (ODict d) ->
  attachments_of h (VRef p) = Some xs ->
  exists h' np d',
    AttachFullRecord.publish self alert (VRef p) h = Some (h', VRef np) /\
    h' !! np = Some (ODict d') /\
    keeps_entries (length h) d d'.
Proof.
  intros Hwf Hp Hxs.
  destruct (prepare_entries h p d xs Hwf Hp Hxs)
    as (h1 & np & la & h3 & items & d' & Hdc & Hget & Hset & Hat & Hnp & Hkeep).
  destruct (chunks_exist (AttachFullRecord.character_limit self)
              (AttachFullRecord.record_document_lines alert)) as [cs Hcs].
  destruct (emit_all_attach alert h np la cs h3 _ Hat)
    as (h' & news & Hrun & _ & Hk & _).
  exists h', np, d'. split_and!; auto.
  - unfold AttachFullRecord.publish. rewrite Hdc.
    cbn [mbind option_bind]. unfold alloc. cbv beta iota.
    rewrite Hget. cbn [mbind option_bind]. rewrite Hset.
    cbn [mbind option_bind]. rewrite (chunker_emits _ _ _ _ _ Hcs), Hrun.
    reflexivity.
  - apply Hk; [|exact Hnp]. eapply attaching_distinct; eauto.
Qed.

Lemma attach_publication_entries (alert : Alert) (h h' : heap) (p : loc)
    (d : list (string * val)) (xs : list val) (r : val) :
  wf_heap h -> h !! p = Some (ODict d) ->
  attachments_of h (VRef p) = Some xs ->
  AttachPublication.publish alert (VRef p) h = Some (h', r) ->
  (h' = h /\ r = VRef p) \/
  exists np d',
    r = VRef np /\ length h <= np /\
    h' !! np = Some (ODict d') /\
    keeps_entries (length h) d d'.
Proof.
  intros Hwf Hp Hxs Hrun. unfold attachments_of in Hxs. rewrite Hp in Hxs.
  destruct (dict_get "_previous_publication" d) as [prev|] eqn:Hprev.
  2:{ rewrite (attach_publication_noop alert h p d Hp) in Hrun by auto.
      injection Hrun as <- <-. now left. }
  destruct (dict_get "slack.attachments" d) as [v|] eqn:Hv.
  2:{ rewrite (attach_publication_noop alert h p d Hp) in Hrun by auto.
      injection Hrun as <- <-. now left. }
  destruct v as [| | | | |la0]; try discriminate.
  destruct (h !! la0) as [[?|xs0]|] eqn:Hla0; try discriminate.
  right.
  destruct (copied_attaching h p la0 d xs0 Hwf Hp Hv Hla0)
    as (h1 & m0 & np & la & Hdc & _ & _ & Hat).
  destruct (deepcopy_spec h (VRef p) Hwf) as (h1' & m & Hdc' & Hcp & [np' Hnp]).
  { simpl. eapply lookup_lt_Some; eauto. }
  simpl in Hdc'. rewrite Hnp in Hdc'. rewrite Hdc in Hdc'.
  injection Hdc' as <- <-.
  destruct (copied_entries h h1 m p np d Hcp Hnp Hp) as [Hnp1 Hkeep].
  rewrite (attach_publication_unfold alert h h1 p d prev _ _
             Hp Hprev Hv Hdc (at_prefix _ _ _ _ _ Hat)) in Hrun.
  destruct (snapshot (length h1) h1 prev) as [t|]; [|discriminate].
  cbn [mbind option_bind] in Hrun.
  rewrite (at_get _ _ _ _ _ Hat) in Hrun. cbn [mbind option_bind] in Hrun.
  destruct (attach_tree _ _ _ _ _ _ Hat
              (publication_attachment_atomic
                 ("```" +:+ nl +:+ json_dumps t +:+ nl +:+ "```")))
    as (h4 & a & h'' & Hb & Happ & _ & Hk & _).
  rewrite Hb in Hrun. cbv beta iota in Hrun. rewrite Happ in Hrun.
  injection Hrun as <- <-.
  eexists np, _. split_and!; [reflexivity| | |].
  - apply Hat.
  - apply Hk; [|exact Hnp1]. eapply attaching_distinct; eauto.
  - split.
    + intros k. rewrite map_fst_rename. split; [now right|].
      intros [->|Hk']; [|exact Hk'].
      pose proof (dict_get_key _ _ _ Hv) as E.
      apply existsb_exists in E as (x & Hin & Hx).
      apply String.eqb_eq in Hx. now subst x.
    + intros k _. apply Hkeep.
Qed.
End EntryFacts.

(** The copies keep what the publication held.  The publication that
    [AttachRuleInfo.publish] and [AttachFullRecord.publish] return, and
    the one [AttachPublication.publish] returns when it does not return
    the publication it was given, has the keys of that publication and
    the key ['slack.attachments']; under every other key a string, a
    number, a boolean or [None] is the same value, and an object is a
    new object. *)
Theorem copies_keep_the_other_entries `{Externals}
    (self : AttachFullRecord.cls) (alert : Alert) (h : heap) (p : loc)
    (d : list (string * val)) (xs : list val) :
  wf_heap h -> h !! p = Some (ODict d) ->
  attachments_of h (VRef p) = Some xs ->
  (exists h' np d',
     AttachRuleInfo.publish alert (VRef p) h = Some (h', VRef np) /\
     h' !! np = Some (ODict d') /\
     keeps_entries (length h) d d') /\
  (exists h' np d',
     AttachFullRecord.publish self alert (VRef p) h = Some (h', VRef np) /\
     h' !! np = Some (ODict d') /\
     keeps_entries (length h) d d') /\
  (forall h' r,
     AttachPublication.publish alert (VRef p) h = Some (h', r) ->
     (h' = h /\ r = VRef p) \/
     exists np d',
       r = VRef np /\ (length h <= np)%nat /\
       h' !! np = Some (ODict d') /\
       keeps_entries (length h) d d').
Proof.
  intros Hwf Hp Hxs. split_and!.
  - now apply (rule_info_publish_entries alert h p d xs).
  - now apply (full_record_publish_entries self alert h p d xs).
  - intros h' r. now apply (attach_publication_entries alert h h' p d xs).
Qed.

Lemma titled_publication_store_wf : wf_heap titled_publication_store.
Proof.
  unfold wf_heap, titled_publication_store.
  repeat (apply Forall_cons; split); try apply Forall_nil; split; simpl;
    try exact I; repeat constructor; simpl; try lia.
  all: apply (bool_decide_unpack _); vm_compute; exact I.
Qed.

(** The theorem at a publication with a text and a number, for
    [AttachRuleInfo]: both are in the publication it returns. *)
Lemma copies_keep_the_other_entries_witness :
  exists h' np d',
    AttachRuleInfo.publish (H := example_externals) example_alert
      (VRef 1%nat) titled_publication_store = Some (h', VRef np) /\
    h' !! np = Some (ODict d') /\
    (forall k, In k (map fst d') <->
               k = "slack.attachments" \/
               In k ["slack.text"; "slack.attachments"; "retries"]) /\
    dict_get "slack.text" d' = Some (VStr "earlier text") /\
    dict_get "retries" d' = Some (VInt 3).
Proof.
  destruct (copies_keep_the_other_entries (H := example_externals)
              AttachFullRecord.base example_alert titled_publication_store
              1%nat _ [] titled_publication_store_wf eq_refl eq_refl)
    as [(h' & np & d' & Hrun & Hnp & Hkeys & Hkeep) _].
  exists h', np, d'. split_and!; [exact Hrun | exact Hnp | exact Hkeys | |].
  - apply (Hkeep "slack.text"). discriminate.
  - apply (Hkeep "retries"). discriminate.
Defined.
